(** * vidar.js utilities: keyframe resolution, interpolation and option merging

    A shallow embedding of [applyOptions], [getDefaultOptions], [isKeyFrames],
    [val], [linearInterp], [cosineInterp], [Color], [memoize], [parseColor],
    [Font], [parseFont] and [PubSub], together with the parts of the host
    language they rely on (numbers, objects with own properties,
    conversions between strings and numbers), the properties of the
    specification that were checked against them, and further properties
    of the code.

    What the embedding leaves out of the host language: rounding to binary64
    (finite numbers are exact rationals; [Binary64] holds the one
    computation where rounding is looked at), the sign of zero, properties
    inherited from a prototype, accessors, keys that are symbols or carry a
    host meaning of their own ([__proto__]), white space outside ASCII,
    objects that reach themselves through their properties (a value is a
    finite tree), a method [hasOwnProperty] other than the host's (an object
    that owns a property of this name), and the digits of the whole numbers
    above [2^53], which the host prints rounded.  A property that depends on
    one of these says so and, where the embedding can state it, assumes
    it. *)

From Stdlib Require Import List String Ascii Bool Arith ZArith QArith Qcanon Lia Lqa DecimalString.
From Stdlib Require Import Permutation.
From Stdlib Require PrimFloat DecimalFacts DecimalPos DecimalN.
Import ListNotations.
Close Scope Qc_scope.
Close Scope Q_scope.
Local Open Scope string_scope.

(** ** Numbers

    A host number is NaN, one of the two infinities, or a finite value.
    Finite values are exact rationals in canonical form: ordering, equality
    and the special values follow IEEE 754 as the host does, while rounding
    to binary64 and the sign of zero are not represented. *)

Module Num.

Inductive num : Type :=
| NaN
| PInf
| NInf
| Fin (q : Qc).

Definition zero : num := Fin (Q2Qc 0%Q).
Definition one : num := Fin (Q2Qc 1%Q).
Definition of_Z (z : Z) : num := Fin (Q2Qc (inject_Z z)).

Definition isNaN (a : num) : bool :=
  match a with NaN => true | _ => false end.

Definition Qc_leb (x y : Qc) : bool := Qle_bool x y.
Definition Qc_eqb (x y : Qc) : bool := Qeq_bool x y.
Definition Qc_ltb (x y : Qc) : bool := negb (Qle_bool y x).

(** [a <= b]: false as soon as one side is NaN. *)
Definition leb (a b : num) : bool :=
  match a, b with
  | NaN, _ => false
  | _, NaN => false
  | NInf, _ => true
  | _, PInf => true
  | PInf, _ => false
  | Fin _, NInf => false
  | Fin x, Fin y => Qc_leb x y
  end.

(** [a === b] on numbers: NaN is different from everything, itself included. *)
Definition strict_eq (a b : num) : bool :=
  match a, b with
  | PInf, PInf => true
  | NInf, NInf => true
  | Fin x, Fin y => Qc_eqb x y
  | _, _ => false
  end.

Definition neg (a : num) : num :=
  match a with
  | NaN => NaN
  | PInf => NInf
  | NInf => PInf
  | Fin x => Fin (- x)%Qc
  end.

Definition add (a b : num) : num :=
  match a, b with
  | NaN, _ => NaN
  | _, NaN => NaN
  | PInf, NInf => NaN
  | NInf, PInf => NaN
  | PInf, _ => PInf
  | _, PInf => PInf
  | NInf, _ => NInf
  | _, NInf => NInf
  | Fin x, Fin y => Fin (x + y)%Qc
  end.

Definition sub (a b : num) : num := add a (neg b).

(** The sign of an infinity scaled by the finite factor [x]. *)
Definition scale_inf (x : Qc) (pos : bool) : num :=
  if Qc_eqb x (Q2Qc 0%Q) then NaN
  else if Bool.eqb (Qc_ltb (Q2Qc 0%Q) x) pos then PInf else NInf.

Definition mul (a b : num) : num :=
  match a, b with
  | NaN, _ => NaN
  | _, NaN => NaN
  | PInf, PInf => PInf
  | NInf, NInf => PInf
  | PInf, NInf => NInf
  | NInf, PInf => NInf
  | Fin x, PInf => scale_inf x true
  | Fin x, NInf => scale_inf x false
  | PInf, Fin y => scale_inf y true
  | NInf, Fin y => scale_inf y false
  | Fin x, Fin y => Fin (x * y)%Qc
  end.

(** Division; a zero divisor is taken as positive zero. *)
Definition div (a b : num) : num :=
  match a, b with
  | NaN, _ => NaN
  | _, NaN => NaN
  | PInf, PInf => NaN
  | PInf, NInf => NaN
  | NInf, PInf => NaN
  | NInf, NInf => NaN
  | Fin _, PInf => zero
  | Fin _, NInf => zero
  | PInf, Fin y => if Qc_ltb y (Q2Qc 0%Q) then NInf else PInf
  | NInf, Fin y => if Qc_ltb y (Q2Qc 0%Q) then PInf else NInf
  | Fin x, Fin y =>
      if Qc_eqb y (Q2Qc 0%Q) then
        (if Qc_eqb x (Q2Qc 0%Q) then NaN
         else if Qc_ltb (Q2Qc 0%Q) x then PInf else NInf)
      else Fin (x / y)%Qc
  end.

(** Boolean equality that decides Leibniz equality (NaN equal to NaN): used
    to compare computed values, not by the program. *)
Definition eqb (a b : num) : bool :=
  match a, b with
  | NaN, NaN => true
  | PInf, PInf => true
  | NInf, NInf => true
  | Fin x, Fin y => Qc_eqb x y
  | _, _ => false
  end.

End Num.
Export Num.

(** ** Conversions between strings and numbers

    [ToNumber] is the unary [+] applied to a string (the host's
    StringToNumber), [parseFloat] and [Number_toString] are the host
    functions of these names.  Values are exact: a numeral with more digits
    than binary64 holds is not rounded. *)

Module Conv.

Definition is_ws (c : ascii) : bool :=
  match nat_of_ascii c with
  | 9 | 10 | 11 | 12 | 13 | 32 => true
  | _ => false
  end.

Fixpoint trim_left (l : list ascii) : list ascii :=
  match l with
  | c :: r => if is_ws c then trim_left r else l
  | [] => []
  end.

Definition trim (l : list ascii) : list ascii :=
  rev (trim_left (rev (trim_left l))).

Definition digit_in (base : N) (c : ascii) : option Z :=
  let n := N_of_ascii c in
  let d :=
    if (48 <=? n)%N && (n <=? 57)%N then Some (n - 48)%N
    else if (97 <=? n)%N && (n <=? 102)%N then Some (n - 87)%N
    else if (65 <=? n)%N && (n <=? 70)%N then Some (n - 55)%N
    else None in
  match d with
  | Some v => if (v <? base)%N then Some (Z.of_N v) else None
  | None => None
  end.

(** Reads digits of [base] from the front of [l]: the value accumulated
    from [acc], the number of digits read and the rest. *)
Fixpoint take_digits (base : N) (l : list ascii) (acc : Z) (count : nat)
  : Z * nat * list ascii :=
  match l with
  | c :: r =>
      match digit_in base c with
      | Some d => take_digits base r (Z.of_N base * acc + d) (S count)
      | None => (acc, count, l)
      end
  | [] => (acc, count, l)
  end.

Definition pow10 (e : Z) : Q := Qpower (10 # 1)%Q e.

Definition is_char (c : ascii) (s : string) : bool :=
  match s with
  | String d EmptyString => Ascii.eqb c d
  | _ => false
  end.

(** ExponentPart at the front of [l], when there is a complete one. *)
Definition take_exponent (l : list ascii) : Z * list ascii :=
  match l with
  | c :: r =>
      if is_char c "e" || is_char c "E" then
        let '(sgn, r1) :=
          match r with
          | s :: r' =>
              if is_char s "-" then ((-1)%Z, r')
              else if is_char s "+" then (1%Z, r')
              else (1%Z, r)
          | [] => (1%Z, r)
          end in
        let '(e, n, r2) := take_digits 10 r1 0 0 in
        if Nat.eqb n 0 then (0%Z, l) else ((sgn * e)%Z, r2)
      else (0%Z, l)
  | [] => (0%Z, l)
  end.

(** The longest StrUnsignedDecimalLiteral (digits, fraction, exponent) at
    the front of [l], Infinity apart. *)
Definition take_unsigned_decimal (l : list ascii) : option (Qc * list ascii) :=
  let '(ip, ni, r1) := take_digits 10 l 0 0 in
  let '(m, nf, r2) :=
    match r1 with
    | c :: r =>
        if is_char c "." then
          let '(m, nf, r') := take_digits 10 r ip 0 in
          if Nat.eqb ni 0 && Nat.eqb nf 0 then (ip, 0%nat, r1) else (m, nf, r')
        else (ip, 0%nat, r1)
    | [] => (ip, 0%nat, r1)
    end in
  if Nat.eqb ni 0 && Nat.eqb nf 0 then None
  else
    let '(e, r3) := take_exponent r2 in
    Some (Q2Qc (inject_Z m * pow10 (e - Z.of_nat nf))%Q, r3).

Fixpoint strip_prefix (p l : list ascii) : option (list ascii) :=
  match p, l with
  | [], _ => Some l
  | a :: p', b :: l' => if Ascii.eqb a b then strip_prefix p' l' else None
  | _ :: _, [] => None
  end.

Definition take_sign (l : list ascii) : bool * list ascii :=
  match l with
  | c :: r =>
      if is_char c "-" then (true, r)
      else if is_char c "+" then (false, r)
      else (false, l)
  | [] => (false, l)
  end.

(** The longest StrDecimalLiteral at the front of [l]. *)
Definition take_decimal (l : list ascii) : option (num * list ascii) :=
  let '(negative, r) := take_sign l in
  match strip_prefix (list_ascii_of_string "Infinity") r with
  | Some r' => Some (if negative then NInf else PInf, r')
  | None =>
      match take_unsigned_decimal r with
      | Some (q, r') => Some (Fin (if negative then (- q)%Qc else q), r')
      | None => None
      end
  end.

Definition parseFloat (s : string) : num :=
  match take_decimal (trim_left (list_ascii_of_string s)) with
  | Some (n, _) => n
  | None => NaN
  end.

Definition all_digits (base : N) (l : list ascii) : num :=
  match take_digits base l 0 0 with
  | (v, S _, []) => Num.of_Z v
  | _ => NaN
  end.

Definition ToNumber (s : string) : num :=
  match trim (list_ascii_of_string s) with
  | [] => Num.zero
  | l =>
      match l with
      | z :: x :: r =>
          if is_char z "0" && (is_char x "x" || is_char x "X") then all_digits 16 r
          else if is_char z "0" && (is_char x "o" || is_char x "O") then all_digits 8 r
          else if is_char z "0" && (is_char x "b" || is_char x "B") then all_digits 2 r
          else match take_decimal l with Some (n, []) => n | _ => NaN end
      | _ => match take_decimal l with Some (n, []) => n | _ => NaN end
      end
  end.

(** *** Number to string *)

Definition dec_of_Z (z : Z) : string := NilZero.string_of_uint (N.to_uint (Z.to_N z)).

Fixpoint zeros (n : nat) : string :=
  match n with
  | O => ""
  | S n' => String "0" (zeros n')
  end.

Definition drop_trailing_zeros (s : string) : string :=
  let fix go (l : list ascii) : list ascii :=
    match l with
    | c :: r => if is_char c "0" then go r else l
    | [] => []
    end in
  string_of_list_ascii (rev (go (rev (list_ascii_of_string s)))).

Definition skip (n : nat) (s : string) : string :=
  String.substring n (String.length s - n) s.

(** The layout rules of Number::toString for the significant digits [ds]
    of a positive value [0.ds * 10^n]. *)
Definition layout (ds : string) (n : Z) : string :=
  let k := Z.of_nat (String.length ds) in
  if (k <=? n)%Z && (n <=? 21)%Z then ds ++ zeros (Z.to_nat (n - k))
  else if (0 <? n)%Z && (n <=? 21)%Z then
    String.substring 0 (Z.to_nat n) ds ++ "." ++ skip (Z.to_nat n) ds
  else if (-6 <? n)%Z && (n <=? 0)%Z then "0." ++ zeros (Z.to_nat (- n)) ++ ds
  else
    let e := (n - 1)%Z in
    let es := (if (e <? 0)%Z then "-" else "+") ++ dec_of_Z (Z.abs e) in
    if (k =? 1)%Z then ds ++ "e" ++ es
    else String.substring 0 1 ds ++ "." ++ skip 1 ds ++ "e" ++ es.

(** The least exponent, from [k] on and at most [fuel] above it, at which
    [d] divides [p * 10^k]. *)
Fixpoint decimal_scale (fuel : nat) (p d : Z) (k : Z) : option Z :=
  if (((p * 10 ^ k) mod d) =? 0)%Z then Some k
  else match fuel with
       | O => None
       | S f => decimal_scale f p d (k + 1)
       end.

(** The least exponent, from [j] on and at most [fuel] above it, at which
    [p * 10^j] reaches [d]. *)
Fixpoint leading_scale (fuel : nat) (p d : Z) (j : Z) : Z :=
  if (d <=? p * 10 ^ j)%Z then j
  else match fuel with
       | O => j
       | S f => leading_scale f p d (j + 1)
       end.

(** A positive rational [p / d]: its digits when it is a decimal fraction,
    and otherwise its first seventeen significant digits (where the host
    prints the shortest numeral that reads back as the same binary64). *)
Definition positive_to_string (p d : Z) : string :=
  let bits := Z.to_nat (Z.log2 d + 1) in
  match decimal_scale bits p d 0 with
  | Some k =>
      let m := dec_of_Z (p * 10 ^ k / d) in
      layout (drop_trailing_zeros m) (Z.of_nat (String.length m) - k)
  | None =>
      let int_digits := dec_of_Z (p / d) in
      let n :=
        if (d <=? p)%Z then Z.of_nat (String.length int_digits)
        else (1 - leading_scale (4 * bits) p d 1)%Z in
      let m := dec_of_Z (p * 10 ^ (17 - n) / d) in
      layout (drop_trailing_zeros m) n
  end.

Definition Number_toString (a : num) : string :=
  match a with
  | NaN => "NaN"
  | PInf => "Infinity"
  | NInf => "-Infinity"
  | Fin q =>
      match Qnum q with
      | Z0 => "0"
      | Zpos p => positive_to_string (Zpos p) (Zpos (Qden q))
      | Zneg p => "-" ++ positive_to_string (Zpos p) (Zpos (Qden q))
      end
  end.

End Conv.
Export Conv.

(** ** Values and objects

    An object has a prototype, the flag [Array.isArray] reads, and its own
    properties in enumeration order, each enumerable or not.  Prototypes are
    identities: they are compared, and carry no properties of their own that
    the functions below would read (a property read is an own-property
    read).  A callable is a name, run by the host. *)

Inductive proto : Type :=
| ObjectPrototype
| ArrayPrototype
| ClassPrototype (c : nat).

Record prop (V : Type) : Type := mkProp {
  pkey : string;
  penum : bool;
  pval : V
}.
Arguments mkProp {V} _ _ _.
Arguments pkey {V} _.
Arguments penum {V} _.
Arguments pval {V} _.

#[warnings="-register-all"]
Inductive value : Type :=
| VUndefined
| VNull
| VBoolean (b : bool)
| VNumber (n : num)
| VString (s : string)
| VFunction (f : nat)
| VObject (p : proto) (isArray : bool) (own : list (prop value)).

Definition props : Type := list (prop value).

Inductive jstype : Type :=
| TUndefined | TObject | TBoolean | TNumber | TString | TFunction.

Definition typeof (v : value) : jstype :=
  match v with
  | VUndefined => TUndefined
  | VNull => TObject
  | VBoolean _ => TBoolean
  | VNumber _ => TNumber
  | VString _ => TString
  | VFunction _ => TFunction
  | VObject _ _ _ => TObject
  end.

Definition jstype_eqb (a b : jstype) : bool :=
  match a, b with
  | TUndefined, TUndefined | TObject, TObject | TBoolean, TBoolean
  | TNumber, TNumber | TString, TString | TFunction, TFunction => true
  | _, _ => false
  end.

Definition proto_eqb (a b : proto) : bool :=
  match a, b with
  | ObjectPrototype, ObjectPrototype => true
  | ArrayPrototype, ArrayPrototype => true
  | ClassPrototype c, ClassPrototype d => Nat.eqb c d
  | _, _ => false
  end.

(** [v === null] *)
Definition is_null (v : value) : bool :=
  match v with VNull => true | _ => false end.

Definition ToBoolean (v : value) : bool :=
  match v with
  | VUndefined | VNull => false
  | VBoolean b => b
  | VNumber n => negb (isNaN n || Num.strict_eq n Num.zero)
  | VString s => negb (String.eqb s "")
  | VFunction _ | VObject _ _ _ => true
  end.

(** The number an arithmetic operator takes a value for. *)
Definition as_number (v : value) : num :=
  match v with
  | VUndefined => NaN
  | VNull => Num.zero
  | VBoolean b => if b then Num.one else Num.zero
  | VNumber n => n
  | VString s => ToNumber s
  | VFunction _ | VObject _ _ _ => NaN
  end.

Module Obj.

Fixpoint lookup (own : props) (key : string) : option (prop value) :=
  match own with
  | [] => None
  | p :: rest => if String.eqb (pkey p) key then Some p else lookup rest key
  end.

Definition hasOwnProperty (own : props) (key : string) : bool :=
  match lookup own key with Some _ => true | None => false end.

(** [obj[key]] *)
Definition get (own : props) (key : string) : value :=
  match lookup own key with Some p => pval p | None => VUndefined end.

(** [Object.keys(obj)], which is also what [for (key in obj)] visits. *)
Definition keys (own : props) : list string :=
  map pkey (filter penum own).

(** [obj[key] = v] *)
Fixpoint set (own : props) (key : string) (v : value) : props :=
  match own with
  | [] => [mkProp key true v]
  | p :: rest =>
      if String.eqb (pkey p) key then mkProp key (penum p) v :: rest
      else p :: set rest key v
  end.

(** Copies the enumerable own properties of [src] onto [dst]. *)
Definition assign (dst src : props) : props :=
  fold_left (fun acc key => set acc key (get src key)) (keys src) dst.

(** [{...a, ...b}] *)
Definition spread (a b : props) : props := assign (assign [] a) b.

(** An object literal [{k1: v1, ...}]. *)
Definition literal (l : list (string * value)) : props :=
  map (fun kv => mkProp (fst kv) true (snd kv)) l.

(** No two own properties have the same name. *)
Definition wf (own : props) : Prop := NoDup (map pkey own).

End Obj.

Definition plain (l : list (string * value)) : value :=
  VObject ObjectPrototype false (Obj.literal l).

(** ** Failures

    What the functions throw; [message] gives the thrown string. *)

Inductive error : Type :=
| InvalidInputError
| MissingLowerBoundError (time : num)
| MissingUpperBoundError (time : num)
| KeyframeTypeMismatchError
| TypeMismatchError
| StructuralMismatchError
| InvalidOptionError (option : string)
| InvalidFormatError (str : string)
| HostTypeError
| CalleeThrew (v : value).

Definition message (e : error) : string :=
  match e with
  | InvalidInputError => "|time| is undefined or null"
  | MissingLowerBoundError time =>
      "No keyframes located before or at time " ++ Number_toString time ++ "."
  | MissingUpperBoundError time =>
      "No keyframes located after or at time " ++ Number_toString time ++ "."
  | KeyframeTypeMismatchError => "Type mismatch in keyframe values"
  | TypeMismatchError => "Type mismatch"
  | StructuralMismatchError => "Prototype mismatch"
  | InvalidOptionError option => "Invalid option: '" ++ option ++ "'"
  | InvalidFormatError str => "Invalid font '" ++ str ++ "'"
  | HostTypeError => "TypeError"
  | CalleeThrew _ => "thrown by a callee"
  end.

Inductive result (A : Type) : Type :=
| Ok (a : A)
| Err (e : error).
Arguments Ok {A} _.
Arguments Err {A} _.


(** *** Induction on values and decidable equality *)

Section ValueInduction.
Variable P : value -> Prop.
Hypothesis Hundefined : P VUndefined.
Hypothesis Hnull : P VNull.
Hypothesis Hboolean : forall b, P (VBoolean b).
Hypothesis Hnumber : forall n, P (VNumber n).
Hypothesis Hstring : forall s, P (VString s).
Hypothesis Hfunction : forall f, P (VFunction f).
Hypothesis Hobject : forall p isArray own,
  Forall (fun q => P (pval q)) own -> P (VObject p isArray own).

Fixpoint value_nested_ind (v : value) : P v :=
  match v with
  | VUndefined => Hundefined
  | VNull => Hnull
  | VBoolean b => Hboolean b
  | VNumber n => Hnumber n
  | VString s => Hstring s
  | VFunction f => Hfunction f
  | VObject p isArray own =>
      Hobject p isArray own
        ((fix all (l : list (prop value)) : Forall (fun q => P (pval q)) l :=
            match l with
            | [] => Forall_nil _
            | q :: r => Forall_cons q (value_nested_ind (pval q)) (all r)
            end) own)
  end.
End ValueInduction.

Fixpoint value_eqb (a b : value) : bool :=
  match a, b with
  | VUndefined, VUndefined => true
  | VNull, VNull => true
  | VBoolean x, VBoolean y => Bool.eqb x y
  | VNumber x, VNumber y => Num.eqb x y
  | VString x, VString y => String.eqb x y
  | VFunction x, VFunction y => Nat.eqb x y
  | VObject p1 a1 o1, VObject p2 a2 o2 =>
      proto_eqb p1 p2 && Bool.eqb a1 a2 &&
      (fix all (l1 l2 : list (prop value)) : bool :=
         match l1, l2 with
         | [], [] => true
         | q1 :: r1, q2 :: r2 =>
             String.eqb (pkey q1) (pkey q2) && Bool.eqb (penum q1) (penum q2)
             && value_eqb (pval q1) (pval q2) && all r1 r2
         | _, _ => false
         end) o1 o2
  | _, _ => false
  end.

Definition error_eqb (a b : error) : bool :=
  match a, b with
  | InvalidInputError, InvalidInputError => true
  | MissingLowerBoundError x, MissingLowerBoundError y => Num.eqb x y
  | MissingUpperBoundError x, MissingUpperBoundError y => Num.eqb x y
  | KeyframeTypeMismatchError, KeyframeTypeMismatchError => true
  | TypeMismatchError, TypeMismatchError => true
  | StructuralMismatchError, StructuralMismatchError => true
  | InvalidOptionError x, InvalidOptionError y => String.eqb x y
  | InvalidFormatError x, InvalidFormatError y => String.eqb x y
  | HostTypeError, HostTypeError => true
  | CalleeThrew x, CalleeThrew y => value_eqb x y
  | _, _ => false
  end.

Definition result_eqb (a b : result value) : bool :=
  match a, b with
  | Ok x, Ok y => value_eqb x y
  | Err x, Err y => error_eqb x y
  | _, _ => false
  end.

(** ** The interpolators *)

(** The array [[v0, v1, ...]]: its elements under their indices and a
    [length] that is not enumerable. *)
Definition array_of (l : list value) : value :=
  VObject ArrayPrototype true
    (map (fun iv => mkProp (dec_of_Z (Z.of_nat (fst iv))) true (snd iv))
         (combine (seq 0 (List.length l)) l)
     ++ [mkProp "length" false (VNumber (Num.of_Z (Z.of_nat (List.length l))))]).

(** The array of the strings [l], as [Object.keys] returns it. *)
Definition array_of_strings (l : list string) : value :=
  array_of (map VString l).

(** [Object.keys(x1) || objectKeys]: the left operand is an array, and an
    array, empty or not, is an object, which [ToBoolean] takes to true. *)
Definition keys_or (a : list string) (b : option (list string)) : option (list string) :=
  if ToBoolean (array_of_strings a) then Some a else b.

(** The strings of a [string[]] argument, [None] when it is not given. *)
Definition string_array (v : value) : option (list string) :=
  match v with
  | VObject _ _ own =>
      Some (map (fun k => match Obj.get own k with VString s => s | _ => "" end)
                (Obj.keys own))
  | _ => None
  end.

(** Interpolating [undefined] with [y]: what either interpolator gives on a
    first operand that is not there. *)
Definition interp_undefined (y : value) : result value :=
  if negb (jstype_eqb TUndefined (typeof y)) then Err TypeMismatchError
  else Ok VUndefined.

(** [interp(x1[key], y)], where [interp] is the interpolator calling itself
    with the same [t] and no [objectKeys]. *)
Definition at_key (interp : value -> value -> result value)
  : list (prop value) -> string -> value -> result value :=
  fix at_key (own : list (prop value)) (key : string) (y : value) {struct own} :=
    match own with
    | [] => interp_undefined y
    | p :: rest =>
        if String.eqb (pkey p) key then interp (pval p) y
        else at_key rest key y
    end.

(** The loop [for (let i=0; i<keys.length; i++)] that fills [int], the
    object created with the prototype [p1] of [x1]. *)
Definition interp_loop (interp : value -> value -> result value)
  (p1 : proto) (own1 own2 : list (prop value))
  : list string -> props -> result value :=
  fix loop (keys : list string) (int : props) {struct keys} :=
    match keys with
    | [] => Ok (VObject p1 false int)
    | key :: keys' =>
        if negb (Obj.hasOwnProperty own1 key) || negb (Obj.hasOwnProperty own2 key)
        then loop keys' int
        else
          match at_key interp own1 key (Obj.get own2 key) with
          | Ok v => loop keys' (Obj.set int key v)
          | Err e => Err e
          end
    end.

Section Interpolators.

(** [Math.PI] and [Math.cos], as the host provides them. *)
Variable Math_PI : num.
Variable Math_cos : num -> num.

Fixpoint linearInterp (x1 x2 : value) (t : num) (objectKeys : option (list string))
  {struct x1} : result value :=
  if negb (jstype_eqb (typeof x1) (typeof x2)) then Err TypeMismatchError
  else if negb (jstype_eqb (typeof x1) TNumber) && negb (jstype_eqb (typeof x1) TObject)
  then Ok x1
  else if jstype_eqb (typeof x1) TObject then
    match x1, x2 with
    | VObject p1 _ own1, VObject p2 _ own2 =>
        if negb (proto_eqb p1 p2) then Err StructuralMismatchError
        else
          match keys_or (Obj.keys own1) objectKeys with
          | None => Err HostTypeError
          | Some keys =>
              interp_loop (fun x y => linearInterp x y t None) p1 own1 own2 keys []
          end
    | _, _ => Err HostTypeError   (* Object.getPrototypeOf(null) *)
    end
  else
    Ok (VNumber (Num.add (Num.mul (Num.sub Num.one t) (as_number x1))
                         (Num.mul t (as_number x2)))).

Fixpoint cosineInterp (x1 x2 : value) (t : num) (objectKeys : option (list string))
  {struct x1} : result value :=
  if negb (jstype_eqb (typeof x1) (typeof x2)) then Err TypeMismatchError
  else if negb (jstype_eqb (typeof x1) TNumber) && negb (jstype_eqb (typeof x1) TObject)
  then Ok x1
  else if jstype_eqb (typeof x1) TObject && jstype_eqb (typeof x2) TObject then
    match x1, x2 with
    | VObject p1 _ own1, VObject p2 _ own2 =>
        if negb (proto_eqb p1 p2) then Err StructuralMismatchError
        else
          match keys_or (Obj.keys own1) objectKeys with
          | None => Err HostTypeError
          | Some keys =>
              interp_loop (fun x y => cosineInterp x y t None) p1 own1 own2 keys []
          end
    | _, _ => Err HostTypeError   (* Object.getPrototypeOf(null) *)
    end
  else
    let cos := Math_cos (Num.mul (Num.div Math_PI (Num.of_Z 2)) t) in
    Ok (VNumber (Num.add (Num.mul cos (as_number x1))
                         (Num.mul (Num.sub Num.one cos) (as_number x2)))).

End Interpolators.

(** ** Keyframe sets *)

Fixpoint isKeyFrames_loop (keys : list string) : bool :=
  match keys with
  | [] => true
  | key :: rest =>
      if Num.strict_eq (ToNumber key) NaN
         && negb (String.eqb key "interpolate" || String.eqb key "interpolationKeys")
      then false
      else isKeyFrames_loop rest
  end.

Definition isKeyFrames (property : value) : bool :=
  match property with
  | VObject _ isArray own =>
      if isArray then false else isKeyFrames_loop (Obj.keys own)
  | _ => false   (* typeof property !== "object" || property === null *)
  end.

(** The four variables of the scan in [val]. *)
Record bounds : Type := mkBounds {
  lowerTime : num;
  upperTime : num;
  lowerValue : value;
  upperValue : value
}.

Definition initial_bounds : bounds :=
  mkBounds Num.zero PInf VNull VNull.

(** One turn of the loop [for (let keyTime in property)]. *)
Definition scan_step (property : props) (time : num) (b : bounds) (key : string) : bounds :=
  let keyValue := Obj.get property key in
  let keyTime := ToNumber key in
  let b :=
    if Num.leb (lowerTime b) keyTime && Num.leb keyTime time
    then mkBounds keyTime (upperTime b) keyValue (upperValue b)
    else b in
  if Num.leb time keyTime && Num.leb keyTime (upperTime b)
  then mkBounds (lowerTime b) keyTime (lowerValue b) keyValue
  else b.

Definition scan (property : props) (time : num) : bounds :=
  fold_left (scan_step property time) (Obj.keys property) initial_bounds.

Definition number_or_object (v : value) : bool :=
  jstype_eqb (typeof v) TNumber || jstype_eqb (typeof v) TObject.

Section Resolution.

(** How the host runs a callable on its arguments: it returns ([inl]) or
    throws ([inr]). *)
Variable call : nat -> list value -> value + value.

Definition invoke (f : value) (args : list value) : result value :=
  match f with
  | VFunction name =>
      match call name args with
      | inl v => Ok v
      | inr thrown => Err (CalleeThrew thrown)
      end
  | _ => Err HostTypeError
  end.

Definition time_value (time : option num) : value :=
  match time with Some t => VNumber t | None => VUndefined end.

(** [val(property, element, time)]; [time] is [None] when it is undefined
    or null. *)
Definition val (property element : value) (time : option num) : result value :=
  if isKeyFrames property then
    match property, time with
    | VObject _ _ own, Some time =>
        let b := scan own time in
        if is_null (lowerValue b) then Err (MissingLowerBoundError time)
        else if negb (number_or_object (lowerValue b)) then Ok (lowerValue b)
        else if is_null (upperValue b) then Err (MissingUpperBoundError time)
        else if negb (jstype_eqb (typeof (lowerValue b)) (typeof (upperValue b)))
        then Err KeyframeTypeMismatchError
        else if Num.strict_eq (upperTime b) (lowerTime b) then Ok (upperValue b)
        else
          let progress := Num.sub time (lowerTime b) in
          let percentProgress :=
            Num.div progress (Num.sub (upperTime b) (lowerTime b)) in
          let interpolate := Obj.get own "interpolate" in
          if ToBoolean interpolate then
            invoke interpolate
              [lowerValue b; upperValue b; VNumber percentProgress;
               Obj.get own "interpolationKeys"]
          else
            linearInterp (lowerValue b) (upperValue b) percentProgress
              (string_array (Obj.get own "interpolationKeys"))
    | _, _ => Err InvalidInputError
    end
  else if jstype_eqb (typeof property) TFunction then
    invoke property [element; time_value time]
  else Ok property.

End Resolution.

(** *** The arithmetic of a resolution on binary64

    What [val] and [linearInterp] compute between the keyframes [(t0, v0)]
    and [(t1, v1)] at [time], with the operations of binary64 that the host
    uses, rounding included. *)

Module Binary64.

Import PrimFloat.
Local Open Scope float_scope.

Definition blend (t0 t1 v0 v1 time : float) : float :=
  let progress := time - t0 in
  let percentProgress := progress / (t1 - t0) in
  (1 - percentProgress) * v0 + percentProgress * v1.

(** [(a + b) / 2] *)
Definition midpoint (a b : float) : float := (a + b) / 2.

Definition zero : float := 0.
Definition one : float := 1.

(** The numbers written [0.1] and [0.2]. *)
Definition tenth : float := 0x1.999999999999ap-4.
Definition fifth : float := 0x1.999999999999ap-3.

(** [a === b] *)
Definition strict_eq (a b : float) : bool := a =? b.

End Binary64.

(** ** Default options

    A class is known by its name in a table; it declares its own
    [defaultOptions] and the classes whose defaults it inherits.  The
    prototype of the instances of class [c] is [ClassPrototype c]. *)

Record clazz : Type := mkClass {
  defaultOptions : props;
  inheritedDefaultOptions : list nat
}.

Definition class_table : Type := nat -> clazz.

(** The [while (queue.length)] loop; [None] when [fuel] turns of the loop
    did not empty the queue. *)
Fixpoint getDefaultOptions_loop (classes : class_table) (fuel : nat)
  (queue : list nat) (acc : props) : option props :=
  match queue with
  | [] => Some acc
  | currClass :: queue' =>
      match fuel with
      | O => None
      | S fuel' =>
          getDefaultOptions_loop classes fuel'
            (queue' ++ inheritedDefaultOptions (classes currClass))
            (Obj.spread acc (defaultOptions (classes currClass)))
      end
  end.

Definition getDefaultOptions (classes : class_table) (fuel : nat) (clazz : nat)
  : option props :=
  getDefaultOptions_loop classes fuel [clazz] [].

(** The first of [keys] that [defaultOptions] does not own. *)
Fixpoint first_invalid (defaultOptions : props) (keys : list string) : option string :=
  match keys with
  | [] => None
  | option :: rest =>
      if negb (Obj.hasOwnProperty defaultOptions option) then Some option
      else first_invalid defaultOptions rest
  end.

(** How a call of [applyOptions] ends: the target as the call leaves it, and
    what was thrown, if anything. *)
Record outcome : Type := mkOutcome {
  target : value;
  thrown : option error
}.

Definition applyOptions (classes : class_table) (fuel : nat)
  (options : props) (destObj : value) (callingClass : nat) : option outcome :=
  match destObj with
  | VObject p isArray own =>
      let superclass := negb (proto_eqb p (ClassPrototype callingClass)) in
      if superclass then Some (mkOutcome destObj None)
      else
        match getDefaultOptions classes fuel callingClass with
        | None => None
        | Some defaultOptions =>
            match first_invalid defaultOptions (Obj.keys options) with
            | Some option => Some (mkOutcome destObj (Some (InvalidOptionError option)))
            | None =>
                let options := Obj.spread defaultOptions options in
                Some (mkOutcome (VObject p isArray (Obj.assign own options)) None)
            end
        end
  | VUndefined | VNull => Some (mkOutcome destObj (Some HostTypeError))
  | _ => Some (mkOutcome destObj None)
  end.

(** ** Fonts *)

Record Font : Type := mkFont {
  size : num;
  family : string;
  sizeUnit : string
}.

(** [str.split(" ")] *)
Fixpoint split_space (s : string) : list string :=
  match s with
  | EmptyString => [""]
  | String c rest =>
      if Ascii.eqb c " " then "" :: split_space rest
      else
        match split_space rest with
        | piece :: pieces => String c piece :: pieces
        | [] => [String c ""]
        end
  end.

Definition parseFont (str : string) : result Font :=
  match split_space str with
  | [sizeWithUnit; family] =>
      let size := parseFloat sizeWithUnit in
      let sizeUnit := skip (String.length (Number_toString size)) sizeWithUnit in
      Ok (mkFont size family sizeUnit)
  | _ => Err (InvalidFormatError str)
  end.

Definition font_eqb (a b : Font) : bool :=
  Num.eqb (size a) (size b) && String.eqb (family a) (family b)
  && String.eqb (sizeUnit a) (sizeUnit b).

(** ** Notions the properties are stated with *)

(** Membership in a list of names, as a boolean. *)
Definition mem (k : string) (l : list string) : bool :=
  existsb (String.eqb k) l.

(** Every property that [set] or [assign] creates is enumerable. *)
Definition all_enumerable (own : props) : Prop :=
  forall p, In p own -> penum p = true.

(** What holds of [lowerTime] and [lowerValue], here [lt] and [lv], once
    the keys [seen] went through the loop. *)
Record lower_inv (property : props) (time : num) (seen : list string)
  (lt : num) (lv : value) : Prop := mkLowerInv {
  low_ge : Num.leb Num.zero lt = true;
  low_src :
    (lt = Num.zero /\ lv = VNull /\
     forall k, In k seen ->
       Num.leb Num.zero (ToNumber k) && Num.leb (ToNumber k) time = false)
    \/ (exists k, In k seen /\ ToNumber k = lt /\ lv = Obj.get property k /\
                  Num.leb (ToNumber k) time = true);
  low_max :
    forall k, In k seen -> Num.leb Num.zero (ToNumber k) = true ->
      Num.leb (ToNumber k) time = true -> Num.leb (ToNumber k) lt = true
}.

(** What holds of [upperTime] and [upperValue], here [ut] and [uv]. *)
Record upper_inv (property : props) (time : num) (seen : list string)
  (ut : num) (uv : value) : Prop := mkUpperInv {
  up_num : isNaN ut = false;
  up_src :
    (ut = PInf /\ uv = VNull /\
     forall k, In k seen -> Num.leb time (ToNumber k) = false)
    \/ (exists k, In k seen /\ ToNumber k = ut /\ uv = Obj.get property k /\
                  Num.leb time (ToNumber k) = true);
  up_min :
    forall k, In k seen -> Num.leb time (ToNumber k) = true ->
      Num.leb ut (ToNumber k) = true
}.

Definition scan_inv (property : props) (time : num) (seen : list string)
  (b : bounds) : Prop :=
  lower_inv property time seen (lowerTime b) (lowerValue b) /\
  upper_inv property time seen (upperTime b) (upperValue b).

(** The keys of [keys] the loop does not skip. *)
Definition shared (own1 own2 : props) (keys : list string) : list string :=
  filter (fun key => Obj.hasOwnProperty own1 key && Obj.hasOwnProperty own2 key) keys.

(** The recursive interpolations, key by key, up to the first failure. *)
Fixpoint interpolate_all (interp : value -> value -> result value)
  (own1 own2 : props) (keys : list string) : result (list (string * value)) :=
  match keys with
  | [] => Ok []
  | key :: rest =>
      match interp (Obj.get own1 key) (Obj.get own2 key) with
      | Ok v =>
          match interpolate_all interp own1 own2 rest with
          | Ok kvs => Ok ((key, v) :: kvs)
          | Err e => Err e
          end
      | Err e => Err e
      end
  end.

Definition set_all (int : props) (kvs : list (string * value)) : props :=
  fold_left (fun acc kv => Obj.set acc (fst kv) (snd kv)) kvs int.

Definition half : num := Num.div Num.one (Num.of_Z 2).

Definition number (z : Z) : value := VNumber (Num.of_Z z).

(** An object whose one own property, [x], is not enumerable (as
    [Object.defineProperty] leaves it). *)
Definition hidden_x (z : Z) : value :=
  VObject ObjectPrototype false [mkProp "x" false (number z)].

(** The failures of [linearInterp] are its own two and the host's. *)
Definition interp_failure (e : error) : Prop :=
  e = TypeMismatchError \/ e = StructuralMismatchError \/ e = HostTypeError.

(** A callable-free host: no keyframe set below names an interpolator. *)
Definition no_callables : nat -> list value -> value + value :=
  fun _ _ => inl VUndefined.



(** No two keys are the same time. *)
Definition times_distinct (own : props) : Prop :=
  forall k k', In k (Obj.keys own) -> In k' (Obj.keys own) ->
    isNaN (ToNumber k) = false -> ToNumber k' = ToNumber k -> k' = k.

Definition two : Qc := Q2Qc (inject_Z 2).

Definition sample_keyframes : props :=
  Obj.literal [("2", number 10); ("0", number 0)].

Definition ramp : props :=
  Obj.literal [("0", number 0); ("2", number 10); ("5", number 4)].


(** [parent] is one of the sources that [child] declares it inherits. *)
Definition inherits (classes : class_table) (parent child : nat) : Prop :=
  In parent (inheritedDefaultOptions (classes child)).

(** Every chain of inherited sources from [c] has fewer than [n] links. *)
Inductive height_le (classes : class_table) : nat -> nat -> Prop :=
| height_le_intro (n c : nat) :
    (forall p, inherits classes p c -> height_le classes n p) ->
    height_le classes (S n) c.

(** Class 0 inherits from 1 and 2, which both inherit from 3. *)
Definition diamond : class_table :=
  fun c =>
    match c with
    | 0 => mkClass (Obj.literal [("d", number 0)]) [1; 2]
    | 1 => mkClass (Obj.literal [("b", number 1)]) [3]
    | 2 => mkClass (Obj.literal [("c", number 2)]) [3]
    | 3 => mkClass (Obj.literal [("a", number 3)]) []
    | _ => mkClass [] []
    end.

(** A class that inherits from itself. *)
Definition self_inheriting : class_table :=
  fun _ => mkClass [] [0].

(** The classes in the order the loop dequeues them. *)
Fixpoint bfs_order (classes : class_table) (fuel : nat) (queue : list nat)
  : option (list nat) :=
  match queue with
  | [] => Some []
  | currClass :: queue' =>
      match fuel with
      | O => None
      | S fuel' =>
          match bfs_order classes fuel'
                  (queue' ++ inheritedDefaultOptions (classes currClass)) with
          | Some order => Some (currClass :: order)
          | None => None
          end
      end
  end.

(** The last class of [order] that declares the option [k]. *)
Fixpoint last_declaring (classes : class_table) (k : string) (order : list nat)
  : option nat :=
  match order with
  | [] => None
  | c :: rest =>
      match last_declaring classes k rest with
      | Some d => Some d
      | None => if mem k (Obj.keys (defaultOptions (classes c))) then Some c else None
      end
  end.

Definition merge_all (classes : class_table) (order : list nat) (acc : props) : props :=
  fold_left (fun a c => Obj.spread a (defaultOptions (classes c))) order acc.

(** Class 0 declares nothing and inherits from 1 and 2, which declare [k]
    as 1 and as 2. *)
Definition two_parents : class_table :=
  fun c =>
    match c with
    | 0 => mkClass [] [1; 2]
    | 1 => mkClass (Obj.literal [("k", number 1)]) []
    | 2 => mkClass (Obj.literal [("k", number 2)]) []
    | _ => mkClass [] []
    end.

(** Class 0 declares [k] as 0 and inherits from 1, which declares it as 1. *)
Definition child_and_parent : class_table :=
  fun c =>
    match c with
    | 0 => mkClass (Obj.literal [("k", number 0)]) [1]
    | 1 => mkClass (Obj.literal [("k", number 1)]) []
    | _ => mkClass [] []
    end.

(** Class 0 declares two options; class 1 inherits them and adds one. *)
Definition layers : class_table :=
  fun c =>
    match c with
    | 0 => mkClass (Obj.literal [("width", number 100); ("height", number 50)]) []
    | 1 => mkClass (Obj.literal [("opacity", number 1)]) [0]
    | _ => mkClass [] []
    end.

Fixpoint count_spaces (s : string) : nat :=
  match s with
  | EmptyString => 0
  | String c rest => (if Ascii.eqb c " " then 1 else 0) + count_spaces rest
  end.

(** Follows the specification's words, to compare with [split_space]: the
    whitespace-separated tokens of a string, [cur] being the token begun. *)
Fixpoint whitespace_tokens_from (s cur : string) : list string :=
  match s with
  | EmptyString => if String.eqb cur "" then [] else [cur]
  | String c rest =>
      if is_ws c then
        (if String.eqb cur "" then whitespace_tokens_from rest ""
         else cur :: whitespace_tokens_from rest "")
      else whitespace_tokens_from rest (cur ++ String c "")
  end.

Definition whitespace_tokens (s : string) : list string :=
  whitespace_tokens_from s "".

Definition font_result_eqb (a b : result Font) : bool :=
  match a, b with
  | Ok x, Ok y => font_eqb x y
  | Err x, Err y => error_eqb x y
  | _, _ => false
  end.

(** ** Colours *)

Module Color.

Record t : Type := mk {
  r : num;
  g : num;
  b : num;
  a : num
}.

(** [new Color(r, g, b, a)]; [a] is [None] when it is not given. *)
Definition constructor (r g b : num) (a : option num) : t :=
  mk r g b (match a with Some a => a | None => Num.of_Z 255 end).

Definition toString (this : t) : string :=
  "rgba(" ++ Number_toString (r this) ++ ", " ++ Number_toString (g this) ++ ", "
  ++ Number_toString (b this) ++ ", " ++ Number_toString (a this) ++ ")".

End Color.

(** ** Memoization

    [memoize(factory, ctx)] returns a function that keeps, in an object of
    its own, what [factory] returned for each key it was called with.  The
    factory works on a state of the host, of type [State], and returns a
    [V] or throws.  As everywhere here the cache is read by its own
    properties, so keys that name a property of [Object.prototype] are left
    out. *)

Section Memoize.

Variable State V : Type.
Variable factory : State -> string -> (V + value) * State.

(** The cache of a memoized function and the state of the host. *)
Record memo : Type := mkMemo {
  cache : list (string * V);
  host : State
}.

(** [memoize(factory, ctx)], the host being in the state [s]: the cache is
    empty. *)
Definition memoize (s : State) : memo := mkMemo [] s.

(** [cache[key]], when [key in cache]. *)
Fixpoint cache_get (cache : list (string * V)) (key : string) : option V :=
  match cache with
  | [] => None
  | (k, v) :: rest => if String.eqb k key then Some v else cache_get rest key
  end.

(** A call of the memoized function: what it returns or throws, the cache
    and the host after it, and the keys the factory was called with. *)
Definition memoized (m : memo) (key : string) : result V * memo * list string :=
  match cache_get (cache m) key with
  | Some v => (Ok v, m, [])
  | None =>
      match factory (host m) key with
      | (inl v, s) => (Ok v, mkMemo (cache m ++ [(key, v)]) s, [key])
      | (inr thrown, s) => (Err (CalleeThrew thrown), mkMemo (cache m) s, [key])
      end
  end.

(** The calls with [keys], one after the other. *)
Fixpoint memoized_all (m : memo) (keys : list string)
  : list (result V) * memo * list string :=
  match keys with
  | [] => ([], m, [])
  | key :: rest =>
      let '(x, m1, c1) := memoized m key in
      let '(xs, m2, c2) := memoized_all m1 rest in
      (x :: xs, m2, (c1 ++ c2)%list)
  end.

End Memoize.

Arguments mkMemo {State V} _ _.
Arguments cache {State V} _.
Arguments host {State V} _.
Arguments memoize {State V} _.
Arguments cache_get {V} _ _.
Arguments memoized {State V} _ _ _.
Arguments memoized_all {State V} _ _ _.

(** ** Parsing a colour

    The rendering context that [parseColor] keeps: [style] is its fill
    style, [set_fillStyle] what the assignment [ctx.fillStyle = str] makes
    of it, and [getImageData] the four channels of the pixel once it was
    cleared and filled with the style. *)

(** [new Color(...data)] *)
Definition Color_of_data (data : num * num * num * num) : Color.t :=
  let '(r, g, b, a) := data in Color.constructor r g b (Some a).

Section ParseColor.

Variable style : Type.
Variable set_fillStyle : style -> string -> style.
Variable getImageData : style -> num * num * num * num.

(** The function given to [memoize]. *)
Definition parseColor_factory (s : style) (str : string) : (Color.t + value) * style :=
  let s := set_fillStyle s str in
  (inl (Color_of_data (getImageData s)), s).

Definition parseColor (m : memo style Color.t) (str : string)
  : result Color.t * memo style Color.t * list string :=
  memoized parseColor_factory m str.

End ParseColor.

(** A context that knows two colour names and ignores every other string. *)
Definition two_colours (s : string) (str : string) : string :=
  if String.eqb str "red" || String.eqb str "blue" then str else s.

Definition two_colours_pixel (s : string) : num * num * num * num :=
  if String.eqb s "red" then (Num.of_Z 255, Num.of_Z 0, Num.of_Z 0, Num.of_Z 255)
  else if String.eqb s "blue" then (Num.of_Z 0, Num.of_Z 0, Num.of_Z 255, Num.of_Z 255)
  else (Num.of_Z 0, Num.of_Z 0, Num.of_Z 0, Num.of_Z 255).

(** ** Publishing and subscribing

    A [PubSub] object is known by its [_callbacks] property: absent, or an
    object that maps an event type to the array of the callbacks subscribed
    to it, in the order of the subscriptions.  As everywhere here a
    property read is an own-property read, so event types that name a
    property of [Object.prototype] are left out; and a callback is run by
    the host without access to the object it is subscribed to. *)

Record PubSub : Type := mkPubSub {
  _callbacks : option (list (string * list value))
}.

(** [callbacks[type]] *)
Fixpoint callbacks_of (callbacks : list (string * list value)) (type : string)
  : option (list value) :=
  match callbacks with
  | [] => None
  | (t, l) :: rest => if String.eqb t type then Some l else callbacks_of rest type
  end.

(** [(callbacks[type] || (callbacks[type] = [])).push(callback)] *)
Fixpoint push_callback (callbacks : list (string * list value)) (type : string)
  (callback : value) : list (string * list value) :=
  match callbacks with
  | [] => [(type, [callback])]
  | (t, l) :: rest =>
      if String.eqb t type then (t, (l ++ [callback])%list) :: rest
      else (t, l) :: push_callback rest type callback
  end.

(** [this.subscribe(type, callback)]: the object after the call. *)
Definition subscribe (this : PubSub) (type : string) (callback : value) : PubSub :=
  let callbacks := match _callbacks this with Some c => c | None => [] end in
  mkPubSub (Some (push_callback callbacks type callback)).

(** What a call of [_publish] did: the callbacks it called, in order, and
    how it ended. *)
Record publication : Type := mkPublication {
  called : list value;
  ended : result value
}.

Section Publish.

Variable call : nat -> list value -> value + value.

(** The loop over [this._callbacks[type]]: it stops at the first callback
    that throws. *)
Fixpoint _publish_loop (callbacks : list value) (event : value) : publication :=
  match callbacks with
  | [] => mkPublication [] (Ok event)
  | callback :: rest =>
      match invoke call callback [event] with
      | Ok _ =>
          let p := _publish_loop rest event in
          mkPublication (callback :: called p) (ended p)
      | Err e => mkPublication [callback] (Err e)
      end
  end.

(** [this._publish(type, event)] *)
Definition _publish (this : PubSub) (type : string) (event : value) : publication :=
  match _callbacks this with
  | None => mkPublication [] (Ok VUndefined)
  | Some callbacks =>
      match callbacks_of callbacks type with
      | None => mkPublication [] (Ok VUndefined)
      | Some l => _publish_loop l event
      end
  end.

End Publish.

(** The subscriptions [subs], made one after the other. *)
Definition subscribe_all (this : PubSub) (subs : list (string * value)) : PubSub :=
  fold_left (fun s tc => subscribe s (fst tc) (snd tc)) subs this.

(** The callbacks that [subs] subscribes to [type], in order. *)
Definition subscribers (subs : list (string * value)) (type : string) : list value :=
  map snd (filter (fun tc => String.eqb (fst tc) type) subs).

(** [this._callbacks && this._callbacks[type]]: the array under [type],
    when there is one. *)
Definition handlers (this : PubSub) (type : string) : option (list value) :=
  match _callbacks this with
  | None => None
  | Some callbacks => callbacks_of callbacks type
  end.

(** A host whose callable 1 returns and whose callable 2 throws. *)
Definition one_throws : nat -> list value -> value + value :=
  fun f _ => match f with 2 => inr (VString "no") | _ => inl VUndefined end.

(** ** Fonts: construction and printing *)

(** [new Font(size, family, sizeUnit)]; [sizeUnit] is [None] when it is not
    given. *)
Definition Font_constructor (size : num) (family : string) (sizeUnit : option string)
  : Font :=
  mkFont size family (match sizeUnit with Some u => u | None => "px" end).

Definition Font_toString (this : Font) : string :=
  Number_toString (size this) ++ sizeUnit this ++ " " ++ family this.

(** ** Further notions the properties are stated with *)

(** The last of [keys], in enumeration order, whose time is [n]. *)
Fixpoint last_with_time (n : num) (keys : list string) : option string :=
  match keys with
  | [] => None
  | k :: rest =>
      match last_with_time n rest with
      | Some k' => Some k'
      | None => if Num.eqb (ToNumber k) n then Some k else None
      end
  end.

(** What holds of [lowerTime] and [lowerValue], here [lt] and [lv], once
    the keys [seen] went through the loop: the value is that of the last
    key seen that is the time [lt]. *)
Definition lower_last (property : props) (time : num) (seen : list string)
  (lt : num) (lv : value) : Prop :=
  (lt = Num.zero /\ lv = VNull /\
   forall k, In k seen ->
     Num.leb Num.zero (ToNumber k) && Num.leb (ToNumber k) time = false)
  \/ (exists k, last_with_time lt seen = Some k /\ lv = Obj.get property k /\
                Num.leb lt time = true /\ Num.leb Num.zero lt = true).

(** The same for [upperTime] and [upperValue], here [ut] and [uv]. *)
Definition upper_last (property : props) (time : num) (seen : list string)
  (ut : num) (uv : value) : Prop :=
  (ut = PInf /\ uv = VNull /\
   forall k, In k seen -> Num.leb time (ToNumber k) = false)
  \/ (exists k, last_with_time ut seen = Some k /\ uv = Obj.get property k /\
                Num.leb time ut = true).

(** Two keys that are the same time, in the order the host enumerates them
    (an integer index comes before the other names). *)
Definition same_time_twice : props :=
  Obj.literal [("1", number 10); ("1.0", number 20)].

(** A colour name at time 0 and another at time 4. *)
Definition colour_steps : props :=
  Obj.literal [("0", VString "red"); ("4", VString "blue")].

(** The keys [k0] and [k1] are the times [q0 < q1], none of them negative,
    and no key of the set is a time strictly between them. *)
Record adjacent (own : props) (k0 k1 : string) (q0 q1 : Qc) : Prop := mkAdjacent {
  adj_first : In k0 (Obj.keys own);
  adj_second : In k1 (Obj.keys own);
  adj_first_time : ToNumber k0 = Fin q0;
  adj_second_time : ToNumber k1 = Fin q1;
  adj_not_negative : (0 <= q0)%Qc;
  adj_in_order : (q0 < q1)%Qc;
  adj_none_between :
    forall k, In k (Obj.keys own) ->
      Num.leb (ToNumber k) (Fin q0) = true
      \/ Num.leb (Fin q1) (ToNumber k) = true
      \/ isNaN (ToNumber k) = true
}.

(** [percentProgress] at the time [qt] between the times [q0] and [q1]. *)
Definition progress_between (q0 q1 qt : Qc) : Qc := ((qt - q0) / (q1 - q0))%Qc.

(** A keyframe set that names its interpolator, the callable 7. *)
Definition eased : props :=
  Obj.literal [("0", number 0); ("2", number 10); ("interpolate", VFunction 7)].

(** A host whose callable 7 returns its third argument. *)
Definition third_argument : nat -> list value -> value + value :=
  fun f args =>
    match f, args with
    | 7, [_; _; t; _] => inl t
    | _, _ => inr VUndefined
    end.

(** Two positions, and interpolation keys that name none of their keys. *)
Definition path : props :=
  Obj.literal [("0", plain [("x", number 0)]); ("4", plain [("x", number 8)]);
               ("interpolationKeys", array_of_strings ["y"])].

(** A number at time 0 and an object at time 2. *)
Definition mixed : props :=
  Obj.literal [("0", number 0); ("2", plain [("x", number 1)])].

(** The point at the fraction [t] of the way from [a] to [b]. *)
Definition line_at (a b t : Qc) : Qc := ((1 - t) * a + t * b)%Qc.

(** The keyframes of [ramp], declared in another order. *)
Definition ramp_shuffled : props :=
  Obj.literal [("5", number 4); ("0", number 0); ("2", number 10)].


(** No object of [v], at any depth, owns a property named [hasOwnProperty]:
    [x.hasOwnProperty(key)] is then the method of the host. *)
Fixpoint host_hasOwnProperty (v : value) : bool :=
  match v with
  | VObject _ _ own =>
      negb (Obj.hasOwnProperty own "hasOwnProperty")
      && forallb (fun q => host_hasOwnProperty (pval q)) own
  | _ => true
  end.

(** The names that every object inherits from [Object.prototype]: [key in
    cache] holds of them in a cache that owns nothing. *)
Definition Object_prototype_names : list string :=
  ["constructor"; "hasOwnProperty"; "isPrototypeOf"; "propertyIsEnumerable";
   "toLocaleString"; "toString"; "valueOf"; "__proto__";
   "__defineGetter__"; "__defineSetter__"; "__lookupGetter__"; "__lookupSetter__"].


(** What a failure of [val] on [property] at [time] can be. *)
Definition val_failure (property : value) (time : option num) (e : error) : Prop :=
  match e with
  | InvalidInputError => time = None /\ isKeyFrames property = true
  | MissingLowerBoundError t | MissingUpperBoundError t =>
      time = Some t /\ isKeyFrames property = true
  | KeyframeTypeMismatchError | TypeMismatchError | StructuralMismatchError =>
      time <> None /\ isKeyFrames property = true
  | HostTypeError => time <> None /\ isKeyFrames property = true
  | CalleeThrew _ =>
      (exists f, property = VFunction f)
      \/ (time <> None /\ isKeyFrames property = true)
  | InvalidOptionError _ | InvalidFormatError _ => False
  end.

(** [1 - Math.cos(Math.PI / 2 * t)] *)
Definition eased_fraction (Math_PI : num) (Math_cos : num -> num) (t : num) : num :=
  Num.sub Num.one (Math_cos (Num.mul (Num.div Math_PI (Num.of_Z 2)) t)).

(** [a] is the class [c] itself or a source that [c] inherits from, directly
    or through other sources. *)
Inductive ancestor (classes : class_table) : nat -> nat -> Prop :=
| ancestor_self (c : nat) : ancestor classes c c
| ancestor_step (a p c : nat) :
    inherits classes p c -> ancestor classes a p -> ancestor classes a c.

Definition is_digit (c : ascii) : bool :=
  match digit_in 10 c with Some _ => true | None => false end.

(** A numeral followed by [unit] ends where [unit] begins: [unit] does not
    begin with a digit, with a point, or with an exponent ([e] or [E], an
    optional sign, a digit). *)
Definition ends_numeral (unit : string) : bool :=
  match list_ascii_of_string unit with
  | [] => true
  | c :: r =>
      negb (is_digit c) && negb (is_char c ".")
      && negb ((is_char c "e" || is_char c "E")
               && match r with
                  | s :: r' =>
                      if is_char s "-" || is_char s "+"
                      then match r' with d :: _ => is_digit d | [] => false end
                      else is_digit s
                  | [] => false
                  end)
  end.

(** The number that the digits [d] write, after the digits that gave [acc]. *)
Fixpoint uint_value (d : Decimal.uint) (acc : Z) : Z :=
  match d with
  | Decimal.Nil => acc
  | Decimal.D0 d => uint_value d (10 * acc + 0)
  | Decimal.D1 d => uint_value d (10 * acc + 1)
  | Decimal.D2 d => uint_value d (10 * acc + 2)
  | Decimal.D3 d => uint_value d (10 * acc + 3)
  | Decimal.D4 d => uint_value d (10 * acc + 4)
  | Decimal.D5 d => uint_value d (10 * acc + 5)
  | Decimal.D6 d => uint_value d (10 * acc + 6)
  | Decimal.D7 d => uint_value d (10 * acc + 7)
  | Decimal.D8 d => uint_value d (10 * acc + 8)
  | Decimal.D9 d => uint_value d (10 * acc + 9)
  end.

(** The zeros at the front of a list of characters, removed. *)
Fixpoint strip_zeros (l : list ascii) : list ascii :=
  match l with
  | c :: r => if is_char c "0" then strip_zeros r else l
  | [] => []
  end.

(** * Properties *)

(** ** Numbers, conversions and equality tests *)

Lemma Qc_eqb_eq (x y : Qc) : Qc_eqb x y = true <-> x = y.
Proof.
  unfold Qc_eqb. rewrite Qeq_bool_iff. split.
  - apply Qc_is_canon.
  - intros ->. reflexivity.
Qed.

Lemma Qc_leb_le (x y : Qc) : Qc_leb x y = true <-> (x <= y)%Qc.
Proof. unfold Qc_leb. rewrite Qle_bool_iff. reflexivity. Qed.

Lemma num_eqb_eq (a b : num) : Num.eqb a b = true <-> a = b.
Proof.
  destruct a, b; simpl; split; intros H; try congruence; try reflexivity.
  - apply Qc_eqb_eq in H. congruence.
  - apply Qc_eqb_eq. congruence.
Qed.

Lemma leb_refl (a : num) : isNaN a = false -> leb a a = true.
Proof.
  destruct a; simpl; intros H; try congruence.
  apply Qc_leb_le. apply Qcle_refl.
Qed.

Lemma leb_trans (a b c : num) :
  leb a b = true -> leb b c = true -> leb a c = true.
Proof.
  destruct a, b, c; simpl; intros H1 H2; try congruence.
  apply Qc_leb_le. apply Qc_leb_le in H1, H2.
  eapply Qcle_trans; eassumption.
Qed.

Lemma leb_total (a b : num) :
  isNaN a = false -> isNaN b = false -> leb a b = true \/ leb b a = true.
Proof.
  destruct a, b; simpl; intros Ha Hb; try congruence; auto.
  destruct (Qclt_le_dec q q0) as [H | H].
  - left. apply Qc_leb_le. apply Qclt_le_weak. exact H.
  - right. apply Qc_leb_le. exact H.
Qed.

Lemma leb_antisym (a b : num) :
  leb a b = true -> leb b a = true -> a = b.
Proof.
  destruct a, b; simpl; intros H1 H2; try congruence.
  apply Qc_leb_le in H1, H2. f_equal. apply Qcle_antisym; assumption.
Qed.

Lemma leb_not_NaN (a b : num) :
  leb a b = true -> isNaN a = false /\ isNaN b = false.
Proof. destruct a, b; simpl; intros H; try congruence; auto. Qed.

Lemma strict_eq_true (a b : num) : strict_eq a b = true -> a = b.
Proof.
  destruct a, b; simpl; intros H; try congruence.
  apply Qc_eqb_eq in H. congruence.
Qed.

Lemma strict_eq_NaN_r (a : num) : strict_eq a NaN = false.
Proof. destruct a; reflexivity. Qed.

Lemma strict_eq_refl (a : num) : isNaN a = false -> strict_eq a a = true.
Proof.
  destruct a; simpl; intros H; try congruence.
  apply Qc_eqb_eq. reflexivity.
Qed.

Example ToNumber_samples :
  map (fun s => Number_toString (ToNumber s))
      ["0"; "1.5"; " 12 "; "-3"; "1e3"; "0x1F"; ""; "Infinity"; "foo";
       "interpolate"; "interpolationKeys"; "1px"; "010"; "-Infinity"; "1 2"]
  = ["0"; "1.5"; "12"; "-3"; "1000"; "31"; "0"; "Infinity"; "NaN";
     "NaN"; "NaN"; "NaN"; "10"; "-Infinity"; "NaN"].
Proof. vm_compute. reflexivity. Qed.

Example parseFloat_samples :
  map (fun s => Number_toString (parseFloat s))
      ["16px"; "16.0px"; "1.5em"; "1e3px"; "px"; "-0.25x"; ".5"; "1e21"; "0.0000001"; "+7"; "12e"]
  = ["16"; "16"; "1.5"; "1000"; "NaN"; "-0.25"; "0.5"; "1e+21"; "1e-7"; "7"; "12"].
Proof. vm_compute. reflexivity. Qed.

Example Number_toString_third :
  Number_toString (Num.div Num.one (Num.of_Z 3)) = "0.33333333333333333".
Proof. vm_compute. reflexivity. Qed.

Lemma proto_eqb_eq (a b : proto) : proto_eqb a b = true <-> a = b.
Proof.
  destruct a, b; simpl; split; intros H; try congruence; try reflexivity.
  - apply Nat.eqb_eq in H. congruence.
  - apply Nat.eqb_eq. congruence.
Qed.


Lemma jstype_eqb_refl (a : jstype) : jstype_eqb a a = true.
Proof. destruct a; reflexivity. Qed.

Lemma value_eqb_sound (a b : value) : value_eqb a b = true -> a = b.
Proof.
  revert b. induction a using value_nested_ind; intros [] E; simpl in E;
    try discriminate; try reflexivity.
  - apply Bool.eqb_prop in E. congruence.
  - apply num_eqb_eq in E. congruence.
  - apply String.eqb_eq in E. congruence.
  - apply Nat.eqb_eq in E. congruence.
  - apply andb_true_iff in E. destruct E as [E E3].
    apply andb_true_iff in E. destruct E as [E1 E2].
    apply proto_eqb_eq in E1. apply Bool.eqb_prop in E2. subst.
    f_equal. revert own0 E3.
    induction H as [| q r Hq Hr IH]; intros [| q' r'] E3; try discriminate.
    + reflexivity.
    + apply andb_true_iff in E3. destruct E3 as [E3 E7].
      apply andb_true_iff in E3. destruct E3 as [E3 E6].
      apply andb_true_iff in E3. destruct E3 as [E4 E5].
      apply String.eqb_eq in E4. apply Bool.eqb_prop in E5.
      apply Hq in E6. apply IH in E7.
      destruct q, q'. simpl in *. subst. reflexivity.
Qed.

Lemma result_eqb_sound (a b : result value) : result_eqb a b = true -> a = b.
Proof.
  destruct a as [x | x], b as [y | y]; simpl; intros E; try discriminate.
  - apply value_eqb_sound in E. congruence.
  - destruct x, y; simpl in E; try discriminate; try reflexivity;
      try (apply num_eqb_eq in E; congruence);
      try (apply String.eqb_eq in E; congruence).
    apply value_eqb_sound in E. congruence.
Qed.

(** ** Own properties *)

Lemma get_set (own : props) (k k' : string) (v : value) :
  Obj.get (Obj.set own k v) k' = if String.eqb k k' then v else Obj.get own k'.
Proof.
  unfold Obj.get. induction own as [| p rest IH]; simpl.
  - destruct (String.eqb k k'); reflexivity.
  - destruct (String.eqb (pkey p) k) eqn:E; simpl.
    + apply String.eqb_eq in E. subst k.
      destruct (String.eqb (pkey p) k'); reflexivity.
    + destruct (String.eqb (pkey p) k') eqn:E'.
      * apply String.eqb_eq in E'. subst k'.
        rewrite String.eqb_sym, E. reflexivity.
      * exact IH.
Qed.

Lemma hasOwnProperty_set (own : props) (k k' : string) (v : value) :
  Obj.hasOwnProperty (Obj.set own k v) k'
  = String.eqb k k' || Obj.hasOwnProperty own k'.
Proof.
  unfold Obj.hasOwnProperty. induction own as [| p rest IH]; simpl.
  - destruct (String.eqb k k'); reflexivity.
  - destruct (String.eqb (pkey p) k) eqn:E; simpl.
    + apply String.eqb_eq in E. subst k.
      destruct (String.eqb (pkey p) k'); reflexivity.
    + destruct (String.eqb (pkey p) k') eqn:E'.
      * rewrite orb_true_r. reflexivity.
      * exact IH.
Qed.



Lemma hasOwnProperty_In (own : props) (k : string) :
  Obj.hasOwnProperty own k = true <-> In k (map pkey own).
Proof.
  unfold Obj.hasOwnProperty. induction own as [| p rest IH]; simpl.
  - split; [discriminate | tauto].
  - destruct (String.eqb (pkey p) k) eqn:E.
    + apply String.eqb_eq in E. tauto.
    + apply String.eqb_neq in E. rewrite IH. tauto.
Qed.


Lemma mem_In (k : string) (l : list string) : mem k l = true <-> In k l.
Proof.
  unfold mem. rewrite existsb_exists. split.
  - intros [x [H E]]. apply String.eqb_eq in E. subst. exact H.
  - intros H. exists k. split; [exact H | apply String.eqb_refl].
Qed.

Lemma fold_set_get (src : props) (l : list string) (dst : props) (k : string) :
  Obj.get (fold_left (fun acc key => Obj.set acc key (Obj.get src key)) l dst) k
  = if mem k l then Obj.get src k else Obj.get dst k.
Proof.
  revert dst. induction l as [| x l IH]; intros dst; simpl.
  - reflexivity.
  - rewrite IH. rewrite get_set.
    destruct (mem k l) eqn:M.
    + rewrite orb_true_r. reflexivity.
    + rewrite orb_false_r. rewrite (String.eqb_sym k x).
      destruct (String.eqb x k) eqn:E; [| reflexivity].
      apply String.eqb_eq in E. subst. reflexivity.
Qed.

Lemma fold_set_has (src : props) (l : list string) (dst : props) (k : string) :
  Obj.hasOwnProperty
    (fold_left (fun acc key => Obj.set acc key (Obj.get src key)) l dst) k
  = Obj.hasOwnProperty dst k || mem k l.
Proof.
  revert dst. induction l as [| x l IH]; intros dst; simpl.
  - rewrite orb_false_r. reflexivity.
  - rewrite IH. rewrite hasOwnProperty_set. rewrite (String.eqb_sym k x).
    destruct (String.eqb x k), (Obj.hasOwnProperty dst k), (mem k l); reflexivity.
Qed.


Lemma get_assign (dst src : props) (k : string) :
  Obj.get (Obj.assign dst src) k
  = if mem k (Obj.keys src) then Obj.get src k else Obj.get dst k.
Proof. apply fold_set_get. Qed.

Lemma hasOwnProperty_assign (dst src : props) (k : string) :
  Obj.hasOwnProperty (Obj.assign dst src) k
  = Obj.hasOwnProperty dst k || mem k (Obj.keys src).
Proof. apply fold_set_has. Qed.


Lemma all_enumerable_set (own : props) (k : string) (v : value) :
  all_enumerable own -> all_enumerable (Obj.set own k v).
Proof.
  unfold all_enumerable. induction own as [| q rest IH]; simpl; intros H p Hp.
  - destruct Hp as [<- | []]. reflexivity.
  - destruct (String.eqb (pkey q) k).
    + destruct Hp as [<- | Hp]; simpl; auto.
    + destruct Hp as [<- | Hp]; auto.
Qed.

Lemma all_enumerable_assign (dst src : props) :
  all_enumerable dst -> all_enumerable (Obj.assign dst src).
Proof.
  unfold Obj.assign. generalize (Obj.keys src) as l. intros l. revert dst.
  induction l as [| x l IH]; intros dst H; simpl.
  - exact H.
  - apply IH. apply all_enumerable_set. exact H.
Qed.

Lemma all_enumerable_spread (a b : props) : all_enumerable (Obj.spread a b).
Proof.
  unfold Obj.spread. apply all_enumerable_assign, all_enumerable_assign.
  intros p [].
Qed.

Lemma keys_all_enumerable (own : props) :
  all_enumerable own -> Obj.keys own = map pkey own.
Proof.
  unfold Obj.keys, all_enumerable. induction own as [| q rest IH]; simpl; intros H.
  - reflexivity.
  - rewrite (H q) by auto. simpl. f_equal. apply IH. auto.
Qed.

Lemma mem_keys_all_enumerable (own : props) (k : string) :
  all_enumerable own -> mem k (Obj.keys own) = Obj.hasOwnProperty own k.
Proof.
  intros H. rewrite keys_all_enumerable by exact H.
  destruct (Obj.hasOwnProperty own k) eqn:E.
  - apply mem_In, hasOwnProperty_In. exact E.
  - destruct (mem k (map pkey own)) eqn:M; [| reflexivity].
    apply mem_In, hasOwnProperty_In in M. congruence.
Qed.

(** [{...a, ...b}]: the enumerable properties of [b], then those of [a]. *)
Lemma get_spread (a b : props) (k : string) :
  Obj.get (Obj.spread a b) k
  = if mem k (Obj.keys b) then Obj.get b k
    else if mem k (Obj.keys a) then Obj.get a k else VUndefined.
Proof.
  unfold Obj.spread. rewrite !get_assign. reflexivity.
Qed.

Lemma hasOwnProperty_spread (a b : props) (k : string) :
  Obj.hasOwnProperty (Obj.spread a b) k = mem k (Obj.keys a) || mem k (Obj.keys b).
Proof.
  unfold Obj.spread. rewrite !hasOwnProperty_assign. reflexivity.
Qed.

(** ** The keyframe-set test *)

Lemma isKeyFrames_loop_true (keys : list string) : isKeyFrames_loop keys = true.
Proof.
  induction keys as [| key rest IH]; simpl.
  - reflexivity.
  - rewrite strict_eq_NaN_r. simpl. exact IH.
Qed.

Lemma isKeyFrames_object (p : proto) (own : props) :
  isKeyFrames (VObject p false own) = true.
Proof. simpl. apply isKeyFrames_loop_true. Qed.

Lemma isKeyFrames_iff (v : value) :
  isKeyFrames v = true <-> exists p own, v = VObject p false own.
Proof.
  split.
  - destruct v as [| | | | | | p [] own]; simpl; try discriminate.
    intros _. exists p, own. reflexivity.
  - intros [p [own ->]]. apply isKeyFrames_object.
Qed.

(** ** The scan for the two bounds *)

Lemma leb_PInf (a : num) : isNaN a = false -> Num.leb a PInf = true.
Proof. destruct a; simpl; intros H; congruence. Qed.

Lemma leb_false_total (a b : num) :
  isNaN a = false -> isNaN b = false -> Num.leb a b = false -> Num.leb b a = true.
Proof.
  intros Ha Hb H. destruct (leb_total a b Ha Hb) as [E | E]; congruence.
Qed.

Section Scan.

Variable property : props.
Variable time : num.

Lemma scan_inv_initial : scan_inv property time [] initial_bounds.
Proof.
  split; constructor; simpl.
  - reflexivity.
  - left. repeat split. intros k [].
  - intros k [].
  - reflexivity.
  - left. repeat split. intros k [].
  - intros k [].
Qed.

(** The two halves of a turn of the loop: each bound is replaced by the key
    exactly when its condition holds. *)
Lemma scan_step_bounds (b : bounds) (key : string) :
  let n := ToNumber key in
  let v := Obj.get property key in
  let low := Num.leb (lowerTime b) n && Num.leb n time in
  let up := Num.leb time n && Num.leb n (upperTime b) in
  scan_step property time b key
  = mkBounds (if low then n else lowerTime b) (if up then n else upperTime b)
             (if low then v else lowerValue b) (if up then v else upperValue b).
Proof.
  unfold scan_step. destruct b as [lt ut lv uv]. cbn [lowerTime upperTime lowerValue upperValue].
  destruct (Num.leb lt (ToNumber key) && Num.leb (ToNumber key) time);
    cbn [lowerTime upperTime lowerValue upperValue];
    destruct (Num.leb time (ToNumber key) && Num.leb (ToNumber key) ut); reflexivity.
Qed.

Lemma lower_inv_step (seen : list string) (lt : num) (lv : value) (key : string) :
  lower_inv property time seen lt lv ->
  lower_inv property time (seen ++ [key])
    (if Num.leb lt (ToNumber key) && Num.leb (ToNumber key) time
     then ToNumber key else lt)
    (if Num.leb lt (ToNumber key) && Num.leb (ToNumber key) time
     then Obj.get property key else lv).
Proof.
  intros [Hge Hsrc Hmax].
  destruct (Num.leb lt (ToNumber key) && Num.leb (ToNumber key) time) eqn:C.
  - (* the key becomes the lower bound *)
    apply andb_true_iff in C. destruct C as [C1 C2]. constructor.
    + exact (leb_trans _ _ _ Hge C1).
    + right. exists key. repeat split; auto. apply in_or_app. right. apply in_eq.
    + intros k Hk H0 Ht. apply in_app_or in Hk. destruct Hk as [Hk | [<- | []]].
      * exact (leb_trans _ _ _ (Hmax k Hk H0 Ht) C1).
      * apply leb_refl. apply (leb_not_NaN _ _ Ht).
  - (* the lower bound stays *)
    constructor.
    + exact Hge.
    + destruct Hsrc as [[E1 [E2 Hnone]] | [k [Hk Hsrc]]].
      * left. repeat split; auto. intros k Hk.
        apply in_app_or in Hk. destruct Hk as [Hk | [<- | []]].
        -- apply Hnone. exact Hk.
        -- rewrite <- E1. exact C.
      * right. exists k. split; [apply in_or_app; left; exact Hk | exact Hsrc].
    + intros k Hk H0 Ht. apply in_app_or in Hk. destruct Hk as [Hk | [<- | []]].
      * exact (Hmax k Hk H0 Ht).
      * rewrite Ht, andb_true_r in C. apply leb_false_total.
        -- apply (leb_not_NaN _ _ Hge).
        -- apply (leb_not_NaN _ _ Ht).
        -- exact C.
Qed.

Lemma upper_inv_step (seen : list string) (ut : num) (uv : value) (key : string) :
  upper_inv property time seen ut uv ->
  upper_inv property time (seen ++ [key])
    (if Num.leb time (ToNumber key) && Num.leb (ToNumber key) ut
     then ToNumber key else ut)
    (if Num.leb time (ToNumber key) && Num.leb (ToNumber key) ut
     then Obj.get property key else uv).
Proof.
  intros [Hnum Hsrc Hmin].
  destruct (Num.leb time (ToNumber key) && Num.leb (ToNumber key) ut) eqn:C.
  - (* the key becomes the upper bound *)
    apply andb_true_iff in C. destruct C as [C1 C2]. constructor.
    + apply (leb_not_NaN _ _ C1).
    + right. exists key. repeat split; auto. apply in_or_app. right. apply in_eq.
    + intros k Hk Ht. apply in_app_or in Hk. destruct Hk as [Hk | [<- | []]].
      * exact (leb_trans _ _ _ C2 (Hmin k Hk Ht)).
      * apply leb_refl. apply (leb_not_NaN _ _ Ht).
  - (* the upper bound stays *)
    constructor.
    + exact Hnum.
    + destruct Hsrc as [[E1 [E2 Hnone]] | [k [Hk Hsrc]]].
      * left. repeat split; auto. intros k Hk.
        apply in_app_or in Hk. destruct Hk as [Hk | [<- | []]].
        -- apply Hnone. exact Hk.
        -- destruct (Num.leb time (ToNumber key)) eqn:Ht; [| reflexivity].
           rewrite E1, leb_PInf in C by (apply (leb_not_NaN _ _ Ht)).
           discriminate.
      * right. exists k. split; [apply in_or_app; left; exact Hk | exact Hsrc].
    + intros k Hk Ht. apply in_app_or in Hk. destruct Hk as [Hk | [<- | []]].
      * exact (Hmin k Hk Ht).
      * rewrite Ht in C. simpl in C. apply leb_false_total.
        -- apply (leb_not_NaN _ _ Ht).
        -- exact Hnum.
        -- exact C.
Qed.

Lemma scan_inv_step (seen : list string) (b : bounds) (key : string) :
  scan_inv property time seen b ->
  scan_inv property time (seen ++ [key]) (scan_step property time b key).
Proof.
  intros [Hlow Hup]. rewrite scan_step_bounds. cbv zeta. split; simpl.
  - apply lower_inv_step. exact Hlow.
  - apply upper_inv_step. exact Hup.
Qed.

Lemma scan_inv_fold (keys seen : list string) (b : bounds) :
  scan_inv property time seen b ->
  scan_inv property time (seen ++ keys) (fold_left (scan_step property time) keys b).
Proof.
  revert seen b. induction keys as [| key rest IH]; intros seen b H; simpl.
  - rewrite app_nil_r. exact H.
  - replace (seen ++ key :: rest)%list with ((seen ++ [key]) ++ rest)%list
      by (rewrite <- app_assoc; reflexivity).
    apply IH. apply scan_inv_step. exact H.
Qed.

Lemma scan_invariant : scan_inv property time (Obj.keys property) (scan property time).
Proof. apply (scan_inv_fold (Obj.keys property) [] initial_bounds scan_inv_initial). Qed.

End Scan.

(** ** The interpolators on objects *)

Lemma linearInterp_objects (p1 p2 : proto) (a1 a2 : bool) (own1 own2 : props)
  (t : num) (objectKeys : option (list string)) :
  linearInterp (VObject p1 a1 own1) (VObject p2 a2 own2) t objectKeys
  = if negb (proto_eqb p1 p2) then Err StructuralMismatchError
    else interp_loop (fun x y => linearInterp x y t None) p1 own1 own2 (Obj.keys own1) [].
Proof. reflexivity. Qed.

Lemma linearInterp_numbers (a b t : num) (objectKeys : option (list string)) :
  linearInterp (VNumber a) (VNumber b) t objectKeys
  = Ok (VNumber (Num.add (Num.mul (Num.sub Num.one t) a) (Num.mul t b))).
Proof. reflexivity. Qed.

Section InterpLoop.

Variable interp : value -> value -> result value.
Variable p1 : proto.
Variable own1 own2 : props.

Lemma at_key_get (own : props) (key : string) (y : value) :
  Obj.hasOwnProperty own key = true ->
  at_key interp own key y = interp (Obj.get own key) y.
Proof.
  unfold Obj.hasOwnProperty, Obj.get.
  induction own as [| p rest IH]; simpl; intros H.
  - discriminate.
  - destruct (String.eqb (pkey p) key); [reflexivity | apply IH; exact H].
Qed.

Lemma interp_loop_spec (keys : list string) (int : props) :
  interp_loop interp p1 own1 own2 keys int
  = match interpolate_all interp own1 own2 (shared own1 own2 keys) with
    | Ok kvs => Ok (VObject p1 false (set_all int kvs))
    | Err e => Err e
    end.
Proof.
  revert int. induction keys as [| key rest IH]; intros int; simpl.
  - reflexivity.
  - destruct (Obj.hasOwnProperty own1 key) eqn:H1; simpl; [| apply IH].
    destruct (Obj.hasOwnProperty own2 key) eqn:H2; simpl; [| apply IH].
    rewrite at_key_get by exact H1.
    destruct (interp (Obj.get own1 key) (Obj.get own2 key)) as [v | e]; [| reflexivity].
    rewrite IH. destruct (interpolate_all interp own1 own2 (shared own1 own2 rest)); reflexivity.
Qed.




Lemma interpolate_all_failure (keys : list string) (e : error) :
  interpolate_all interp own1 own2 keys = Err e ->
  exists k, In k keys /\ interp (Obj.get own1 k) (Obj.get own2 k) = Err e.
Proof.
  induction keys as [| key rest IH]; simpl; intros H.
  - discriminate.
  - destruct (interp (Obj.get own1 key) (Obj.get own2 key)) as [w | e'] eqn:E.
    + destruct (interpolate_all interp own1 own2 rest) as [kvs' | e'']; [discriminate |].
      injection H as ->. destruct IH as [k [Hk Hv]]; [reflexivity |].
      exists k. auto.
    + injection H as ->. exists key. auto.
Qed.

End InterpLoop.




Lemma literal_keys (kvs : list (string * value)) :
  map pkey (Obj.literal kvs) = map fst kvs.
Proof. unfold Obj.literal. rewrite map_map. reflexivity. Qed.

Lemma literal_enumerable (kvs : list (string * value)) :
  all_enumerable (Obj.literal kvs).
Proof.
  intros p Hp. unfold Obj.literal in Hp. apply in_map_iff in Hp.
  destruct Hp as [kv [<- _]]. reflexivity.
Qed.







(** C5 (the code departs from it): the [objectKeys] argument has no effect
    on either interpolator, because [Object.keys(x1) || objectKeys] always
    takes its left operand, and the recursive calls pass no [objectKeys].
    On objects whose own key [x] is not enumerable, so that [Object.keys]
    is empty, the result is the empty object although [objectKeys] names
    [x]. *)
Theorem objectKeys_never_used :
  (forall x1 x2 t objectKeys,
     linearInterp x1 x2 t objectKeys = linearInterp x1 x2 t None)
  /\ (forall Math_PI Math_cos x1 x2 t objectKeys,
        cosineInterp Math_PI Math_cos x1 x2 t objectKeys
        = cosineInterp Math_PI Math_cos x1 x2 t None)
  /\ linearInterp (hidden_x 0) (hidden_x 10) half (Some ["x"])
     = Ok (VObject ObjectPrototype false [])
  /\ (forall Math_PI Math_cos,
        cosineInterp Math_PI Math_cos (hidden_x 0) (hidden_x 10) half (Some ["x"])
        = Ok (VObject ObjectPrototype false [])).
Proof.
  split; [| split; [| split]].
  - intros x1 x2 t objectKeys. destruct x1, x2; reflexivity.
  - intros Math_PI Math_cos x1 x2 t objectKeys. destruct x1, x2; reflexivity.
  - reflexivity.
  - intros Math_PI Math_cos. reflexivity.
Qed.

Lemma hasOwnProperty_get (own : props) (k : string) :
  Obj.hasOwnProperty own k = true -> exists q, In q own /\ Obj.get own k = pval q.
Proof.
  unfold Obj.hasOwnProperty, Obj.get. induction own as [| p rest IH]; simpl; intros H.
  - discriminate.
  - destruct (String.eqb (pkey p) k).
    + exists p. auto.
    + destruct (IH H) as [q [Hq E]]. exists q. auto.
Qed.

Lemma linearInterp_failures (x1 : value) :
  forall x2 t objectKeys e,
    linearInterp x1 x2 t objectKeys = Err e -> interp_failure e.
Proof.
  unfold interp_failure.
  induction x1 as [| | b | n | s | f | p isArray own IH] using value_nested_ind;
    intros x2 t objectKeys e H.
  1-6: destruct x2; simpl in H; try discriminate; injection H as <-; auto.
  destruct x2 as [| | | | | | p2 a2 own2];
    [simpl in H; injection H as <-; auto .. |].
  rewrite linearInterp_objects in H.
  destruct (negb (proto_eqb p p2)); [injection H as <-; auto |].
  rewrite interp_loop_spec in H.
  destruct (interpolate_all _ own own2 _) as [kvs | e'] eqn:Hk; [discriminate |].
  injection H as ->.
  apply interpolate_all_failure in Hk. destruct Hk as [k [Hin He]].
  unfold shared in Hin. apply filter_In in Hin. destruct Hin as [_ Hin].
  apply andb_true_iff in Hin. destruct Hin as [H1 _].
  destruct (hasOwnProperty_get own k H1) as [q [Hq E]].
  rewrite E in He. rewrite Forall_forall in IH.
  exact (IH q Hq _ _ _ _ He).
Qed.

(** ** Resolution of keyframe sets *)

Lemma leb_NaN_r (a : num) : Num.leb a NaN = false.
Proof. destruct a; reflexivity. Qed.

Lemma scan_step_NaN (property : props) (time : num) (b : bounds) (key : string) :
  isNaN (ToNumber key) = true -> scan_step property time b key = b.
Proof.
  unfold scan_step. destruct (ToNumber key); try discriminate. intros _.
  rewrite !leb_NaN_r. reflexivity.
Qed.

Lemma scan_filter_NaN (property : props) (time : num) (keys : list string) (b : bounds) :
  fold_left (scan_step property time) keys b
  = fold_left (scan_step property time)
      (filter (fun k => negb (isNaN (ToNumber k))) keys) b.
Proof.
  revert b. induction keys as [| key rest IH]; intros b; simpl.
  - reflexivity.
  - destruct (isNaN (ToNumber key)) eqn:E; simpl.
    + rewrite scan_step_NaN by exact E. apply IH.
    + apply IH.
Qed.

Lemma val_keyframes (call : nat -> list value -> value + value)
  (p : proto) (own : props) (element : value) (time : num) :
  val call (VObject p false own) element (Some time)
  = let b := scan own time in
    if is_null (lowerValue b) then Err (MissingLowerBoundError time)
    else if negb (number_or_object (lowerValue b)) then Ok (lowerValue b)
    else if is_null (upperValue b) then Err (MissingUpperBoundError time)
    else if negb (jstype_eqb (typeof (lowerValue b)) (typeof (upperValue b)))
    then Err KeyframeTypeMismatchError
    else if Num.strict_eq (upperTime b) (lowerTime b) then Ok (upperValue b)
    else
      let percentProgress :=
        Num.div (Num.sub time (lowerTime b)) (Num.sub (upperTime b) (lowerTime b)) in
      if ToBoolean (Obj.get own "interpolate") then
        invoke call (Obj.get own "interpolate")
          [lowerValue b; upperValue b; VNumber percentProgress;
           Obj.get own "interpolationKeys"]
      else
        linearInterp (lowerValue b) (upperValue b) percentProgress
          (string_array (Obj.get own "interpolationKeys")).
Proof. unfold val. rewrite isKeyFrames_object. reflexivity. Qed.

(** C1 (the code departs from it): [isKeyFrames] accepts every object that
    is no array, whatever its keys, because [+key === NaN] is false for every
    key.  So [{foo: 1}] is accepted, and resolving it at a time fails for
    want of a lower bound instead of returning it as a constant.  Arrays,
    null and the values that are no objects are rejected. *)
Theorem isKeyFrames_accepts_every_object :
  (forall v, isKeyFrames v = true <-> exists p own, v = VObject p false own)
  /\ isKeyFrames (plain [("foo", number 1)]) = true
  /\ (forall call element time,
        val call (plain [("foo", number 1)]) element (Some time)
        = Err (MissingLowerBoundError time)).
Proof.
  split; [exact isKeyFrames_iff |]. split; [reflexivity |].
  intros call element time. unfold plain. rewrite val_keyframes.
  unfold scan. simpl fold_left.
  rewrite scan_step_NaN by (vm_compute; reflexivity). reflexivity.
Qed.

(** C9: a key whose conversion to a number is NaN leaves the four variables
    of the scan as they are, so the scan is the scan of the keys that
    convert to a number; each bound it ends with is the initial one or the
    time and value of a key that converts to a number; and the two reserved
    keys convert to NaN. *)
Theorem scan_never_selects_NaN_key :
  forall (property : props) (time : num),
    (forall b key, isNaN (ToNumber key) = true -> scan_step property time b key = b)
    /\ scan property time
       = fold_left (scan_step property time)
           (filter (fun k => negb (isNaN (ToNumber k))) (Obj.keys property))
           initial_bounds
    /\ ((lowerTime (scan property time) = Num.zero /\
         lowerValue (scan property time) = VNull)
        \/ exists k, In k (Obj.keys property) /\ isNaN (ToNumber k) = false /\
                     lowerTime (scan property time) = ToNumber k /\
                     lowerValue (scan property time) = Obj.get property k)
    /\ ((upperTime (scan property time) = PInf /\
         upperValue (scan property time) = VNull)
        \/ exists k, In k (Obj.keys property) /\ isNaN (ToNumber k) = false /\
                     upperTime (scan property time) = ToNumber k /\
                     upperValue (scan property time) = Obj.get property k)
    /\ isNaN (ToNumber "interpolate") = true
    /\ isNaN (ToNumber "interpolationKeys") = true.
Proof.
  intros property time.
  destruct (scan_invariant property time) as [[_ Lsrc _] [_ Usrc _]].
  repeat split.
  - intros b key. apply scan_step_NaN.
  - apply scan_filter_NaN.
  - destruct Lsrc as [[L1 [L2 _]] | [k [Hk [L1 [L2 L3]]]]]; [left; auto |].
    right. exists k. repeat split; auto. apply (leb_not_NaN _ _ L3).
  - destruct Usrc as [[U1 [U2 _]] | [k [Hk [U1 [U2 U3]]]]]; [left; auto |].
    right. exists k. repeat split; auto. apply (leb_not_NaN _ _ U3).
Qed.

(** *** The bounds the scan finds *)

Section ScanBounds.

Variable own : props.
Variable time : num.

Lemma scan_lower_time (k : string) :
  In k (Obj.keys own) ->
  Num.leb Num.zero (ToNumber k) = true ->
  Num.leb (ToNumber k) time = true ->
  (forall k', In k' (Obj.keys own) -> Num.leb (ToNumber k') time = true ->
              Num.leb (ToNumber k') (ToNumber k) = true) ->
  lowerTime (scan own time) = ToNumber k /\
  exists k', In k' (Obj.keys own) /\ ToNumber k' = ToNumber k /\
             lowerValue (scan own time) = Obj.get own k'.
Proof.
  intros Hk H0 Ht Hmax.
  destruct (scan_invariant own time) as [[_ Lsrc Lmax] _].
  pose proof (Lmax k Hk H0 Ht) as Hle.
  destruct Lsrc as [[_ [_ L3]] | [k' [Hk' [L1 [L2 L3]]]]].
  - specialize (L3 k Hk). rewrite H0, Ht in L3. discriminate.
  - assert (E : ToNumber k' = ToNumber k).
    { apply leb_antisym; [apply Hmax; assumption | rewrite L1; exact Hle]. }
    split; [congruence |]. exists k'. auto.
Qed.

Lemma scan_upper_time (k : string) :
  In k (Obj.keys own) ->
  Num.leb time (ToNumber k) = true ->
  (forall k', In k' (Obj.keys own) -> Num.leb time (ToNumber k') = true ->
              Num.leb (ToNumber k) (ToNumber k') = true) ->
  upperTime (scan own time) = ToNumber k /\
  exists k', In k' (Obj.keys own) /\ ToNumber k' = ToNumber k /\
             upperValue (scan own time) = Obj.get own k'.
Proof.
  intros Hk Ht Hmin.
  destruct (scan_invariant own time) as [_ [_ Usrc Umin]].
  pose proof (Umin k Hk Ht) as Hle.
  destruct Usrc as [[_ [_ U3]] | [k' [Hk' [U1 [U2 U3]]]]].
  - specialize (U3 k Hk). congruence.
  - assert (E : ToNumber k' = ToNumber k).
    { apply leb_antisym; [rewrite U1; exact Hle | apply Hmin; assumption]. }
    split; [congruence |]. exists k'. auto.
Qed.



End ScanBounds.








(** *** Arithmetic of the midpoint *)

Lemma two_eq : two = (1 + 1)%Qc.
Proof. apply Qc_is_canon. reflexivity. Qed.

Lemma div_two (x : Qc) : Num.div (Fin x) (Num.of_Z 2) = Fin (x / two)%Qc.
Proof. reflexivity. Qed.

Lemma Qc_mid (a b : Qc) : (a < b)%Qc -> (a < (a + b) / two)%Qc /\ ((a + b) / two < b)%Qc.
Proof.
  unfold Qclt. intros H.
  assert (E : (this ((a + b) / two)%Qc == (this a + this b) * (1 # 2))%Q).
  { unfold Qcdiv, Qcmult, Qcplus, Qcinv, Q2Qc. cbn [this].
    rewrite !Qred_correct. reflexivity. }
  rewrite E. split; lra.
Qed.

Lemma Qc_neq_by_value (x y : Qc) : Qc_eqb x y = false -> x <> y.
Proof. intros H E. apply Qc_eqb_eq in E. congruence. Qed.

Lemma midpoint_blend (a b : num) :
  Num.add (Num.mul (Num.sub Num.one half) a) (Num.mul half b)
  = Num.div (Num.add a b) (Num.of_Z 2).
Proof.
  destruct a as [| | | x], b as [| | | y]; try reflexivity.
  change (Fin ((Q2Qc 1 + - (Q2Qc 1 / two)) * x + Q2Qc 1 / two * y)%Qc = Fin ((x + y) / two)%Qc).
  f_equal. change (Q2Qc 1) with 1%Qc. rewrite two_eq. field.
  apply Qc_neq_by_value. reflexivity.
Qed.

Lemma Qc_eqb_lt (a b : Qc) : (a < b)%Qc -> Qc_eqb b a = false.
Proof.
  intros H. destruct (Qc_eqb b a) eqn:E; [| reflexivity].
  apply Qc_eqb_eq in E. subst. exfalso. apply (Qclt_not_eq _ _ H). reflexivity.
Qed.

Lemma progress_half (q0 q1 : Qc) :
  (q0 < q1)%Qc ->
  Num.div (Num.sub (Num.div (Num.add (Fin q0) (Fin q1)) (Num.of_Z 2)) (Fin q0))
          (Num.sub (Fin q1) (Fin q0)) = half.
Proof.
  intros H. change (Num.add (Fin q0) (Fin q1)) with (Fin (q0 + q1)%Qc). rewrite div_two.
  change (Num.sub (Fin ((q0 + q1) / two)%Qc) (Fin q0)) with (Fin ((q0 + q1) / two + - q0)%Qc).
  change (Num.sub (Fin q1) (Fin q0)) with (Fin (q1 + - q0)%Qc).
  assert (N : (q1 + - q0)%Qc <> 0%Qc).
  { intros E. apply (Qclt_not_eq _ _ H). 
    rewrite <- (Qcplus_0_r q0). rewrite <- E. ring. }
  unfold Num.div. 
  replace (Qc_eqb (q1 + - q0) (Q2Qc 0)) with false.
  2:{ symmetry. destruct (Qc_eqb (q1 + - q0)%Qc (Q2Qc 0)) eqn:E; [| reflexivity].
      apply Qc_eqb_eq in E. contradiction. }
  change half with (Fin (Q2Qc 1 / two)%Qc). f_equal.
  change (Q2Qc 1) with 1%Qc. rewrite two_eq. field.
  split; [apply Qc_neq_by_value; reflexivity | exact N].
Qed.

Lemma val_exact_hit (call : nat -> list value -> value + value)
  (p : proto) (own : props) (element : value) (k : string) :
  times_distinct own ->
  In k (Obj.keys own) ->
  Num.leb Num.zero (ToNumber k) = true ->
  is_null (Obj.get own k) = false ->
  val call (VObject p false own) element (Some (ToNumber k)) = Ok (Obj.get own k).
Proof.
  intros Hd Hk H0 Hnn.
  assert (Hnum : isNaN (ToNumber k) = false) by (apply (leb_not_NaN _ _ H0)).
  assert (Hrefl : Num.leb (ToNumber k) (ToNumber k) = true) by (apply leb_refl, Hnum).
  destruct (scan_lower_time own (ToNumber k) k Hk H0 Hrefl) as [Lt [kl [Hkl [El Lv]]]].
  { intros k' _ H. exact H. }
  destruct (scan_upper_time own (ToNumber k) k Hk Hrefl) as [Ut [ku [Hku [Eu Uv]]]].
  { intros k' _ H. exact H. }
  rewrite (Hd k kl Hk Hkl Hnum El) in Lv.
  rewrite (Hd k ku Hk Hku Hnum Eu) in Uv.
  rewrite val_keyframes. cbv zeta. rewrite Lv, Uv, Lt, Ut, Hnn.
  destruct (number_or_object (Obj.get own k)); [| reflexivity]. simpl.
  rewrite jstype_eqb_refl. simpl. rewrite strict_eq_refl by exact Hnum. reflexivity.
Qed.

Lemma leb_Fin (x y : Qc) : Num.leb (Fin x) (Fin y) = true <-> (x <= y)%Qc.
Proof. simpl. apply Qc_leb_le. Qed.

(** C6, as amended: in a keyframe set no two of whose keys are the same
    time, resolving exactly at a key that is not negative and whose value is
    not null returns that value as it is stored; and for two such keys
    [t0 < t1] with no key between them that hold numbers, under the default
    linear interpolator, resolving at [t0] returns [v0], at [t1] returns
    [v1], and at [(t0 + t1) / 2] returns [(v0 + v1) / 2], the arithmetic
    being exact. *)
Theorem val_exact_and_midpoint :
  forall (call : nat -> list value -> value + value) (p : proto) (own : props)
         (element : value),
    times_distinct own ->
    (forall k, In k (Obj.keys own) ->
       Num.leb Num.zero (ToNumber k) = true ->
       is_null (Obj.get own k) = false ->
       val call (VObject p false own) element (Some (ToNumber k)) = Ok (Obj.get own k))
    /\ (forall k0 k1 q0 q1 v0 v1,
          In k0 (Obj.keys own) -> In k1 (Obj.keys own) ->
          ToNumber k0 = Fin q0 -> ToNumber k1 = Fin q1 ->
          (0 <= q0)%Qc -> (q0 < q1)%Qc ->
          Obj.get own k0 = VNumber v0 -> Obj.get own k1 = VNumber v1 ->
          (forall k, In k (Obj.keys own) ->
             Num.leb (ToNumber k) (Fin q0) = true
             \/ Num.leb (Fin q1) (ToNumber k) = true
             \/ isNaN (ToNumber k) = true) ->
          ToBoolean (Obj.get own "interpolate") = false ->
          val call (VObject p false own) element (Some (Fin q0)) = Ok (VNumber v0)
          /\ val call (VObject p false own) element (Some (Fin q1)) = Ok (VNumber v1)
          /\ val call (VObject p false own) element
               (Some (Num.div (Num.add (Fin q0) (Fin q1)) (Num.of_Z 2)))
             = Ok (VNumber (Num.div (Num.add v0 v1) (Num.of_Z 2)))).
Proof.
  intros call p own element Hd. split.
  - intros k Hk H0 Hnn. apply val_exact_hit; assumption.
  - intros k0 k1 q0 q1 v0 v1 Hk0 Hk1 E0 E1 Hq0 Hlt V0 V1 Hadj Hdefault.
    assert (Z0 : Num.leb Num.zero (ToNumber k0) = true)
      by (rewrite E0; apply leb_Fin; exact Hq0).
    assert (Z1 : Num.leb Num.zero (ToNumber k1) = true).
    { rewrite E1. apply leb_Fin. apply Qcle_trans with q0; [exact Hq0 |].
      apply Qclt_le_weak. exact Hlt. }
    split; [| split].
    + rewrite <- E0, <- V0. apply val_exact_hit; try assumption.
      rewrite V0. reflexivity.
    + rewrite <- E1, <- V1. apply val_exact_hit; try assumption.
      rewrite V1. reflexivity.
    + change (Num.add (Fin q0) (Fin q1)) with (Fin (q0 + q1)%Qc). rewrite div_two.
      set (qm := ((q0 + q1) / two)%Qc).
      destruct (Qc_mid q0 q1 Hlt) as [M0 M1]. fold qm in M0, M1.
      assert (L0 : Num.leb (ToNumber k0) (Fin qm) = true)
        by (rewrite E0; apply leb_Fin, Qclt_le_weak, M0).
      assert (L1 : Num.leb (Fin qm) (ToNumber k1) = true)
        by (rewrite E1; apply leb_Fin, Qclt_le_weak, M1).
      destruct (scan_lower_time own (Fin qm) k0 Hk0 Z0 L0) as [Lt [kl [Hkl [El Lv]]]].
      { intros k Hk Hle. rewrite E0. destruct (Hadj k Hk) as [H | [H | H]].
        - exact H.
        - exfalso. pose proof (leb_trans _ _ _ H Hle) as C.
          apply leb_Fin in C. apply (Qclt_not_le _ _ M1 C).
        - destruct (leb_not_NaN _ _ Hle). congruence. }
      destruct (scan_upper_time own (Fin qm) k1 Hk1 L1) as [Ut [ku [Hku [Eu Uv]]]].
      { intros k Hk Hle. rewrite E1. destruct (Hadj k Hk) as [H | [H | H]].
        - exfalso. pose proof (leb_trans _ _ _ Hle H) as C.
          apply leb_Fin in C. apply (Qclt_not_le _ _ M0 C).
        - exact H.
        - destruct (leb_not_NaN _ _ Hle). congruence. }
      assert (N0 : isNaN (ToNumber k0) = false) by (rewrite E0; reflexivity).
      assert (N1 : isNaN (ToNumber k1) = false) by (rewrite E1; reflexivity).
      rewrite (Hd k0 kl Hk0 Hkl N0 El), V0 in Lv.
      rewrite (Hd k1 ku Hk1 Hku N1 Eu), V1 in Uv.
      rewrite val_keyframes. cbv zeta. rewrite Lv, Uv, Lt, Ut, E0, E1, Hdefault.
      simpl is_null. simpl number_or_object. simpl typeof. simpl jstype_eqb.
      cbv iota. simpl negb. cbv iota.
      replace (Num.strict_eq (Fin q1) (Fin q0)) with false
        by (symmetry; apply Qc_eqb_lt; exact Hlt).
      assert (P : Num.div (Num.sub (Fin qm) (Fin q0)) (Num.sub (Fin q1) (Fin q0)) = half).
      { pose proof (progress_half q0 q1 Hlt) as P.
        change (Num.add (Fin q0) (Fin q1)) with (Fin (q0 + q1)%Qc) in P.
        rewrite div_two in P. exact P. }
      rewrite P, linearInterp_numbers, midpoint_blend. reflexivity.
Qed.

Lemma val_exact_and_midpoint_witness :
  times_distinct ramp /\
  val no_callables (VObject ObjectPrototype false ramp) VUndefined
      (Some (ToNumber "2"))
  = Ok (Obj.get ramp "2") /\
  val no_callables (VObject ObjectPrototype false ramp) VUndefined
      (Some (Num.div (Num.add (Fin (Q2Qc 0)) (Fin (Q2Qc 2))) (Num.of_Z 2)))
  = Ok (VNumber (Num.div (Num.add (Num.of_Z 0) (Num.of_Z 10)) (Num.of_Z 2))).
Proof.
  assert (Hd : times_distinct ramp).
  { intros k k' Hk Hk' _. simpl in Hk, Hk'.
    destruct Hk as [<- | [<- | [<- | []]]], Hk' as [<- | [<- | [<- | []]]];
      intros E; try reflexivity; apply num_eqb_eq in E; vm_compute in E; discriminate. }
  split; [exact Hd |]. split.
  - apply (proj1 (val_exact_and_midpoint no_callables ObjectPrototype ramp VUndefined Hd)).
    + simpl. auto.
    + reflexivity.
    + reflexivity.
  - apply (proj2 (val_exact_and_midpoint no_callables ObjectPrototype ramp VUndefined Hd)
             "0" "2" (Q2Qc 0) (Q2Qc 2) (Num.of_Z 0) (Num.of_Z 10)).
    + simpl. auto.
    + simpl. auto.
    + reflexivity.
    + reflexivity.
    + apply Qc_leb_le. reflexivity.
    + reflexivity.
    + reflexivity.
    + reflexivity.
    + intros k Hk. simpl in Hk.
      destruct Hk as [<- | [<- | [<- | []]]];
        [left; reflexivity | right; left; reflexivity | right; left; reflexivity].
    + reflexivity.
Defined.

(** C6 as stated fails: resolving exactly at a negative key, or at a key
    whose stored value is null, fails for want of a lower bound; and on
    binary64 the value at the midpoint of the keyframes [(0.1, 0)] and
    [(0.2, 1)] is not [(0 + 1) / 2]. *)
Lemma val_exact_and_midpoint_counterexample :
  val no_callables (plain [("-1", number 5)]) VUndefined (Some (ToNumber "-1"))
  = Err (MissingLowerBoundError (Num.of_Z (-1)))
  /\ val no_callables (plain [("0", VNull); ("1", number 1)]) VUndefined
       (Some (ToNumber "0"))
     = Err (MissingLowerBoundError (Num.of_Z 0))
  /\ Binary64.strict_eq
       (Binary64.blend Binary64.tenth Binary64.fifth Binary64.zero Binary64.one
          (Binary64.midpoint Binary64.tenth Binary64.fifth))
       (Binary64.midpoint Binary64.zero Binary64.one)
     = false.
Proof.
  split; [| split].
  - apply result_eqb_sound; vm_compute; reflexivity.
  - apply result_eqb_sound; vm_compute; reflexivity.
  - vm_compute. reflexivity.
Qed.

Example val_midpoint_example :
  val no_callables (VObject ObjectPrototype false ramp) VUndefined (Some (Num.of_Z 1))
  = Ok (number 5).
Proof. apply result_eqb_sound; vm_compute; reflexivity. Qed.

(** ** Default options *)

Lemma height_le_mono (classes : class_table) (n m c : nat) :
  height_le classes n c -> n <= m -> height_le classes m c.
Proof.
  intros H. revert m. induction H as [n c _ IH]. intros m Hm.
  destruct m as [| m]; [lia |]. constructor. intros p Hp.
  apply IH; [exact Hp | lia].
Qed.

Lemma height_le_all (classes : class_table) (l : list nat) :
  (forall p, In p l -> exists n, height_le classes n p) ->
  exists n, forall p, In p l -> height_le classes n p.
Proof.
  induction l as [| x l IH]; intros H.
  - exists 0. intros p [].
  - destruct (H x (in_eq _ _)) as [n Hn].
    destruct IH as [m Hm]; [intros p Hp; apply H; right; exact Hp |].
    exists (Nat.max n m). intros p [<- | Hp].
    + apply height_le_mono with n; [exact Hn | lia].
    + apply height_le_mono with m; [apply Hm; exact Hp | lia].
Qed.

Lemma Acc_height (classes : class_table) (c : nat) :
  Acc (inherits classes) c -> exists n, height_le classes n c.
Proof.
  induction 1 as [c _ IH].
  destruct (height_le_all classes (inheritedDefaultOptions (classes c)) IH) as [n Hn].
  exists (S n). constructor. exact Hn.
Qed.

Lemma getDefaultOptions_loop_fuel (classes : class_table) (fuel fuel' : nat)
  (queue : list nat) (acc r : props) :
  getDefaultOptions_loop classes fuel queue acc = Some r -> fuel <= fuel' ->
  getDefaultOptions_loop classes fuel' queue acc = Some r.
Proof.
  revert fuel' queue acc. induction fuel as [| fuel IH]; intros fuel' queue acc H Hle.
  - destruct queue; [| discriminate]. destruct fuel'; exact H.
  - destruct queue as [| c queue]; [destruct fuel'; exact H |].
    destruct fuel' as [| fuel']; [lia |]. simpl in *.
    apply IH; [exact H | lia].
Qed.

Lemma getDefaultOptions_loop_two (classes : class_table) (n : nat) :
  (forall queue, (forall c, In c queue -> height_le classes n c) ->
     exists fuel, forall acc, exists r,
       getDefaultOptions_loop classes fuel queue acc = Some r) ->
  forall q1 q2,
    (forall c, In c q1 -> height_le classes (S n) c) ->
    (forall c, In c q2 -> height_le classes n c) ->
    exists fuel, forall acc, exists r,
      getDefaultOptions_loop classes fuel (q1 ++ q2) acc = Some r.
Proof.
  intros Hn. induction q1 as [| c q1 IH]; intros q2 H1 H2.
  - apply Hn. exact H2.
  - destruct (IH (q2 ++ inheritedDefaultOptions (classes c))%list) as [fuel Hf].
    + intros d Hd. apply H1. right. exact Hd.
    + intros d Hd. apply in_app_or in Hd. destruct Hd as [Hd | Hd]; [apply H2, Hd |].
      specialize (H1 c (in_eq _ _)). inversion H1 as [m c' Hc]; subst.
      apply Hc. exact Hd.
    + exists (S fuel). intros acc. simpl. rewrite <- app_assoc. apply Hf.
Qed.

Lemma getDefaultOptions_loop_height (classes : class_table) (n : nat) :
  forall queue, (forall c, In c queue -> height_le classes n c) ->
    exists fuel, forall acc, exists r,
      getDefaultOptions_loop classes fuel queue acc = Some r.
Proof.
  induction n as [| n IH]; intros queue H.
  - destruct queue as [| c queue].
    + exists 0. intros acc. exists acc. reflexivity.
    + specialize (H c (in_eq _ _)). inversion H.
  - rewrite <- (app_nil_r queue).
    apply (getDefaultOptions_loop_two classes n IH); [exact H | intros c []].
Qed.

Lemma Acc_by_rank (classes : class_table) (rank : nat -> nat) :
  (forall p c, inherits classes p c -> rank p < rank c) ->
  forall c, Acc (inherits classes) c.
Proof.
  intros H c. remember (rank c) as n eqn:E. revert c E.
  induction n as [n IH] using lt_wf_ind. intros c ->.
  constructor. intros p Hp. apply (IH (rank p) (H p c Hp) p eq_refl).
Qed.

Lemma diamond_acyclic : forall c, Acc (inherits diamond) c.
Proof.
  apply (Acc_by_rank diamond (fun c => 4 - c)).
  intros p c. unfold inherits.
  destruct c as [| [| [| [| c]]]]; simpl; intros H;
    repeat (destruct H as [<- | H]; [lia |]); destruct H.
Qed.

(** The four classes of the diamond take five turns of the loop: class 3 is
    dequeued twice. *)
Example diamond_turns :
  getDefaultOptions diamond 4 0 = None /\
  getDefaultOptions diamond 5 0
  = Some (Obj.literal [("d", number 0); ("b", number 1); ("c", number 2); ("a", number 3)]).
Proof. split; reflexivity. Qed.

(** With a cycle the loop never empties its queue. *)
Lemma getDefaultOptions_cycle_diverges :
  forall fuel, getDefaultOptions self_inheriting fuel 0 = None.
Proof.
  unfold getDefaultOptions. generalize (@nil (prop value)) as acc.
  intros acc fuel. revert acc. induction fuel as [| fuel IH]; intros acc; simpl.
  - reflexivity.
  - apply IH.
Qed.

(** C10: when the sources reachable from a class by inheritance contain no
    cycle (the class is accessible for [inherits]), the breadth-first merge
    ends after finitely many turns of its loop and returns a mapping, the
    same one however many more turns it is allowed.  A source reached along
    several paths is dequeued and merged once for each path: the four
    classes of the diamond take five turns.  Without the hypothesis the
    loop may run for ever, as it keeps no record of the classes it visited:
    for a class that inherits from itself no number of turns is enough. *)
Theorem getDefaultOptions_terminates :
  (forall (classes : class_table) (clazz : nat),
     Acc (inherits classes) clazz ->
     exists fuel defaults,
       getDefaultOptions classes fuel clazz = Some defaults /\
       forall fuel', fuel <= fuel' ->
         getDefaultOptions classes fuel' clazz = Some defaults)
  /\ (getDefaultOptions diamond 4 0 = None /\
      getDefaultOptions diamond 5 0
      = Some (Obj.literal [("d", number 0); ("b", number 1); ("c", number 2);
                           ("a", number 3)]))
  /\ (forall fuel, getDefaultOptions self_inheriting fuel 0 = None).
Proof.
  split; [| split; [exact diamond_turns | exact getDefaultOptions_cycle_diverges]].
  intros classes clazz Hacc.
  destruct (Acc_height classes clazz Hacc) as [n Hn].
  destruct (getDefaultOptions_loop_height classes n [clazz]) as [fuel Hf].
  { intros c [<- | []]. exact Hn. }
  destruct (Hf []) as [r Hr].
  exists fuel, r. split; [exact Hr |].
  intros fuel' Hle. apply (getDefaultOptions_loop_fuel classes fuel fuel' _ _ _ Hr Hle).
Qed.

Lemma getDefaultOptions_terminates_witness :
  Acc (inherits diamond) 0 /\
  exists fuel defaults,
    getDefaultOptions diamond fuel 0 = Some defaults /\
    forall fuel', fuel <= fuel' -> getDefaultOptions diamond fuel' 0 = Some defaults.
Proof.
  split; [exact (diamond_acyclic 0) |].
  exact (proj1 getDefaultOptions_terminates diamond 0 (diamond_acyclic 0)).
Defined.

(** *** The order of the merge *)

Lemma getDefaultOptions_loop_order (classes : class_table) (fuel : nat)
  (queue : list nat) (acc : props) :
  getDefaultOptions_loop classes fuel queue acc
  = match bfs_order classes fuel queue with
    | Some order => Some (merge_all classes order acc)
    | None => None
    end.
Proof.
  revert queue acc. induction fuel as [| fuel IH]; intros queue acc.
  - destruct queue; reflexivity.
  - destruct queue as [| c queue]; [reflexivity |]. simpl. rewrite IH.
    destruct (bfs_order classes fuel _); reflexivity.
Qed.

Lemma get_absent (own : props) (k : string) :
  Obj.hasOwnProperty own k = false -> Obj.get own k = VUndefined.
Proof.
  unfold Obj.hasOwnProperty, Obj.get. destruct (Obj.lookup own k); [discriminate | reflexivity].
Qed.

Lemma get_spread_enumerable (a b : props) (k : string) :
  all_enumerable a ->
  Obj.get (Obj.spread a b) k
  = if mem k (Obj.keys b) then Obj.get b k else Obj.get a k.
Proof.
  intros Ha. rewrite get_spread. destruct (mem k (Obj.keys b)); [reflexivity |].
  rewrite (mem_keys_all_enumerable a k Ha).
  destruct (Obj.hasOwnProperty a k) eqn:E; [reflexivity |].
  rewrite get_absent by exact E. reflexivity.
Qed.

Lemma all_enumerable_merge_all (classes : class_table) (order : list nat) (acc : props) :
  all_enumerable acc -> all_enumerable (merge_all classes order acc).
Proof.
  revert acc. induction order as [| c rest IH]; intros acc H; simpl.
  - exact H.
  - apply IH. apply all_enumerable_spread.
Qed.

Lemma get_merge_all (classes : class_table) (order : list nat) (acc : props) (k : string) :
  all_enumerable acc ->
  Obj.get (merge_all classes order acc) k
  = match last_declaring classes k order with
    | Some c => Obj.get (defaultOptions (classes c)) k
    | None => Obj.get acc k
    end.
Proof.
  revert acc. induction order as [| c rest IH]; intros acc H; simpl.
  - reflexivity.
  - rewrite IH by apply all_enumerable_spread.
    destruct (last_declaring classes k rest); [reflexivity |].
    rewrite get_spread_enumerable by exact H.
    destruct (mem k (Obj.keys (defaultOptions (classes c)))); reflexivity.
Qed.


(** C2 (the code departs from it): the merge gives an option the value
    declared by the last source, in breadth-first order, that declares it,
    since each source is spread over what was merged before it.  So a
    deeper source overrides a shallower one, and at equal depth the later
    source in the declared list overrides the earlier: with [C] inheriting
    from [A] and [B] the merged [k] is that of [B], and a class's own
    default is overridden by its parent's. *)
Theorem getDefaultOptions_last_source_wins :
  (forall classes fuel clazz defaults order k,
     getDefaultOptions classes fuel clazz = Some defaults ->
     bfs_order classes fuel [clazz] = Some order ->
     Obj.get defaults k
     = match last_declaring classes k order with
       | Some c => Obj.get (defaultOptions (classes c)) k
       | None => VUndefined
       end)
  /\ getDefaultOptions two_parents 3 0 = Some (Obj.literal [("k", number 2)])
  /\ getDefaultOptions child_and_parent 2 0 = Some (Obj.literal [("k", number 1)]).
Proof.
  split; [| split; reflexivity].
  intros classes fuel clazz defaults order k H Ho.
  unfold getDefaultOptions in H. rewrite getDefaultOptions_loop_order, Ho in H.
  injection H as <-. rewrite get_merge_all by (intros p []).
  destruct (last_declaring classes k order); reflexivity.
Qed.

(** *** Applying options *)

Lemma first_invalid_some (defaults : props) (keys : list string) (option : string) :
  first_invalid defaults keys = Some option ->
  In option keys /\ Obj.hasOwnProperty defaults option = false.
Proof.
  induction keys as [| k rest IH]; simpl; intros H.
  - discriminate.
  - destruct (Obj.hasOwnProperty defaults k) eqn:E; simpl in H.
    + destruct (IH H). auto.
    + injection H as <-. auto.
Qed.






Example applyOptions_example :
  applyOptions layers 2 (Obj.literal [("width", number 7)])
    (VObject (ClassPrototype 1) false (Obj.literal [("name", VString "a")])) 1
  = Some (mkOutcome
            (VObject (ClassPrototype 1) false
               (Obj.literal [("name", VString "a"); ("opacity", number 1);
                             ("width", number 7); ("height", number 50)]))
            None).
Proof. reflexivity. Qed.

(** ** Fonts *)

Lemma font_eqb_sound (a b : Font) : font_eqb a b = true -> a = b.
Proof.
  destruct a, b. unfold font_eqb. simpl. intros E.
  apply andb_true_iff in E. destruct E as [E E3].
  apply andb_true_iff in E. destruct E as [E1 E2].
  apply num_eqb_eq in E1. apply String.eqb_eq in E2. apply String.eqb_eq in E3.
  congruence.
Qed.

Lemma font_result_eqb_sound (a b : result Font) : font_result_eqb a b = true -> a = b.
Proof.
  destruct a as [x | x], b as [y | y]; simpl; intros E; try discriminate.
  - apply font_eqb_sound in E. congruence.
  - assert (R : result_eqb (Err x) (Err y) = true) by exact E.
    apply result_eqb_sound in R. congruence.
Qed.

Lemma split_space_length (s : string) :
  List.length (split_space s) = S (count_spaces s).
Proof.
  induction s as [| c rest IH]; simpl.
  - reflexivity.
  - destruct (Ascii.eqb c " "); simpl.
    + rewrite IH. reflexivity.
    + destruct (split_space rest); simpl in *; [discriminate | exact IH].
Qed.

Lemma split_space_no_space (s : string) :
  count_spaces s = 0 -> split_space s = [s].
Proof.
  induction s as [| c rest IH]; simpl; intros H.
  - reflexivity.
  - destruct (Ascii.eqb c " "); [discriminate |].
    rewrite IH by exact H. reflexivity.
Qed.

Lemma split_space_app (a b : string) :
  count_spaces a = 0 -> split_space (a ++ " " ++ b) = a :: split_space b.
Proof.
  change (" " ++ b) with (String " "%char b).
  induction a as [| c rest IH]; simpl; intros H.
  - reflexivity.
  - destruct (Ascii.eqb c " "); [discriminate |].
    rewrite IH by exact H. reflexivity.
Qed.

Lemma skip_app (a b : string) : skip (String.length a) (a ++ b) = b.
Proof.
  unfold skip. induction a as [| c rest IH]; simpl.
  - rewrite Nat.sub_0_r. clear. induction b as [| c b IH]; simpl.
    + reflexivity.
    + f_equal. destruct b; simpl in *; [reflexivity | exact IH].
  - exact IH.
Qed.

(** C8, as amended: [parseFont] fails, and then with the failure that names
    its input, exactly when its input does not hold exactly one space
    character; with one space, the text before it being [sizeWithUnit] and
    the text after it [family], it returns a font whose size is
    [parseFloat sizeWithUnit] and whose family is [family], and whose unit
    is what follows the numeral in [sizeWithUnit] when the numeral is
    written as the size prints.  ["16px Arial"] gives size 16, unit ["px"]
    and family ["Arial"], and ["bad"] fails. *)
Theorem parseFont_one_space :
  forall str : string,
    (parseFont str = Err (InvalidFormatError str) <-> count_spaces str <> 1)
    /\ (forall e, parseFont str = Err e -> e = InvalidFormatError str)
    /\ (forall sizeWithUnit family,
          str = sizeWithUnit ++ " " ++ family ->
          count_spaces sizeWithUnit = 0 -> count_spaces family = 0 ->
          exists unit,
            parseFont str = Ok (mkFont (parseFloat sizeWithUnit) family unit) /\
            forall rest,
              sizeWithUnit = Number_toString (parseFloat sizeWithUnit) ++ rest ->
              unit = rest)
    /\ parseFont "16px Arial" = Ok (mkFont (Num.of_Z 16) "Arial" "px")
    /\ parseFont "bad" = Err (InvalidFormatError "bad").
Proof.
  intros str. split; [| split; [| split; [| split]]].
  - pose proof (split_space_length str) as L. unfold parseFont.
    destruct (split_space str) as [| a [| b [| c l]]]; simpl in L; split; intros H;
      try reflexivity; try discriminate; try lia.
  - intros e. unfold parseFont.
    destruct (split_space str) as [| a [| b [| c l]]]; intros H;
      try discriminate; injection H as <-; reflexivity.
  - intros sizeWithUnit family -> Hs Hf.
    exists (skip (String.length (Number_toString (parseFloat sizeWithUnit))) sizeWithUnit).
    split.
    + unfold parseFont. rewrite split_space_app by exact Hs.
      rewrite split_space_no_space by exact Hf. reflexivity.
    + intros rest E. rewrite E at 2. apply skip_app.
  - apply font_result_eqb_sound. vm_compute. reflexivity.
  - reflexivity.
Qed.

Lemma parseFont_one_space_witness :
  count_spaces "1.5em" = 0 /\ count_spaces "serif" = 0 /\
  exists unit,
    parseFont "1.5em serif" = Ok (mkFont (parseFloat "1.5em") "serif" unit) /\
    forall rest, "1.5em" = Number_toString (parseFloat "1.5em") ++ rest -> unit = rest.
Proof.
  split; [reflexivity |]. split; [reflexivity |].
  exact (proj1 (proj2 (proj2 (parseFont_one_space "1.5em serif")))
           "1.5em" "serif" eq_refl eq_refl eq_refl).
Defined.

(** C8 as stated fails: two tokens separated by two spaces are refused, one
    token followed by a space is accepted with an empty family, and the
    unit of ["16.0px"] is not what follows its numeral. *)
Lemma parseFont_one_space_counterexample :
  whitespace_tokens "16px  Arial" = ["16px"; "Arial"]
  /\ parseFont "16px  Arial" = Err (InvalidFormatError "16px  Arial")
  /\ whitespace_tokens "16px " = ["16px"]
  /\ parseFont "16px " = Ok (mkFont (Num.of_Z 16) "" "px")
  /\ parseFont "16.0px Arial" = Ok (mkFont (Num.of_Z 16) "Arial" ".0px").
Proof.
  repeat split; try reflexivity; apply font_result_eqb_sound; vm_compute; reflexivity.
Qed.

(** ** Values that are no keyframe sets *)


(** ** The failures of resolution *)

(** X2: where [val] fails, on values that are finite trees (no object
    reaches itself through its properties, which would end the recursion of
    the interpolation with a failure of the host that is not among these).
    A value that is neither a keyframe set nor a callable never makes it
    fail.  A callable makes it fail, with or without a time, with what the
    callable threw and nothing else.  A keyframe set without a time makes it
    fail with the invalid-input failure and nothing else.  A keyframe set
    with a time makes it fail only for want of a lower or of an upper bound
    at this very time, with the keyframe type mismatch, with a failure of
    the interpolation (type or prototype mismatch, or a type error of the
    host), or with what a callable threw.  It never fails with the failures
    of [applyOptions] and [parseFont]. *)
Theorem val_failures :
  forall (call : nat -> list value -> value + value) (property element : value)
         (time : option num) (e : error),
    val call property element time = Err e ->
    val_failure property time e
    /\ (isKeyFrames property = true \/ exists f, property = VFunction f)
    /\ (forall f, property = VFunction f -> exists thrown, e = CalleeThrew thrown)
    /\ (isKeyFrames property = true -> time = None -> e = InvalidInputError).
Proof.
  intros call property element time e H.
  assert (F : val_failure property time e).
  { unfold val in H.
    destruct (isKeyFrames property) eqn:K.
    - destruct property as [| | | | | | p isArray own]; try discriminate K.
      destruct time as [time |]; [| injection H as <-; split; [reflexivity | exact K]].
      assert (T : Some time <> None) by discriminate.
      destruct (is_null _); [injection H as <-; split; [reflexivity | exact K] |].
      destruct (negb (number_or_object _)); [discriminate |].
      destruct (is_null _); [injection H as <-; split; [reflexivity | exact K] |].
      destruct (negb (jstype_eqb _ _)); [injection H as <-; split; [exact T | exact K] |].
      destruct (Num.strict_eq _ _); [discriminate |].
      destruct (ToBoolean _).
      + unfold invoke in H. destruct (Obj.get own "interpolate");
          try (injection H as <-; split; [exact T | exact K]).
        destruct (call f _); [discriminate |]. injection H as <-.
        right. split; [exact T | exact K].
      + apply linearInterp_failures in H. destruct H as [-> | [-> | ->]];
          (split; [exact T | exact K]).
    - destruct (jstype_eqb (typeof property) TFunction) eqn:F; [| discriminate].
      destruct property; try discriminate F. simpl in H.
      destruct (call f _); [discriminate |]. injection H as <-.
      left. exists f. reflexivity. }
  split; [exact F |]. split; [| split].
  - destruct e; simpl in F; tauto.
  - intros f ->. destruct e; simpl in F; try (eexists; reflexivity);
      try (destruct F as [_ F]; discriminate F); destruct F.
  - intros K ->. destruct e; simpl in F; try reflexivity; exfalso.
    all: try (destruct F as [F _]; first [discriminate F | apply F; reflexivity]).
    all: try (exact F).
    destruct F as [[f ->] | [F _]]; [discriminate K | apply F; reflexivity].
Qed.

Lemma val_failures_witness :
  val_failure (VObject ObjectPrototype false sample_keyframes) (Some (Num.of_Z 3))
    (MissingUpperBoundError (Num.of_Z 3)).
Proof.
  apply (val_failures no_callables (VObject ObjectPrototype false sample_keyframes)
           VUndefined (Some (Num.of_Z 3)) (MissingUpperBoundError (Num.of_Z 3))).
  apply result_eqb_sound. vm_compute. reflexivity.
Defined.

(** ** Keys that are the same time *)

Lemma last_with_time_snoc (n : num) (seen : list string) (key : string) :
  last_with_time n (seen ++ [key])
  = if Num.eqb (ToNumber key) n then Some key else last_with_time n seen.
Proof.
  induction seen as [| k rest IH]; simpl.
  - reflexivity.
  - rewrite IH. destruct (Num.eqb (ToNumber key) n); reflexivity.
Qed.

Lemma num_eqb_refl (a : num) : Num.eqb a a = true.
Proof. apply num_eqb_eq. reflexivity. Qed.

Section LastWins.

Variable property : props.
Variable time : num.

Lemma lower_last_step (seen : list string) (lt : num) (lv : value) (key : string) :
  lower_last property time seen lt lv ->
  lower_last property time (seen ++ [key])
    (if Num.leb lt (ToNumber key) && Num.leb (ToNumber key) time
     then ToNumber key else lt)
    (if Num.leb lt (ToNumber key) && Num.leb (ToNumber key) time
     then Obj.get property key else lv).
Proof.
  intros H.
  destruct (Num.leb lt (ToNumber key) && Num.leb (ToNumber key) time) eqn:C.
  - apply andb_true_iff in C. destruct C as [C1 C2].
    right. exists key. rewrite last_with_time_snoc, num_eqb_refl.
    repeat split; auto.
    destruct H as [[-> _] | [k [_ [_ [_ H0]]]]]; [exact C1 |].
    exact (leb_trans _ _ _ H0 C1).
  - destruct H as [[-> [-> Hnone]] | [k [Hk [Hv [Ht H0]]]]].
    + left. repeat split; auto. intros k Hk.
      apply in_app_or in Hk. destruct Hk as [Hk | [<- | []]]; auto.
    + right. exists k. rewrite last_with_time_snoc.
      destruct (Num.eqb (ToNumber key) lt) eqn:E; [| auto].
      apply num_eqb_eq in E. rewrite E, Ht, andb_true_r in C.
      rewrite leb_refl in C; [discriminate | apply (leb_not_NaN _ _ Ht)].
Qed.

Lemma upper_last_step (seen : list string) (ut : num) (uv : value) (key : string) :
  upper_last property time seen ut uv ->
  upper_last property time (seen ++ [key])
    (if Num.leb time (ToNumber key) && Num.leb (ToNumber key) ut
     then ToNumber key else ut)
    (if Num.leb time (ToNumber key) && Num.leb (ToNumber key) ut
     then Obj.get property key else uv).
Proof.
  intros H.
  destruct (Num.leb time (ToNumber key) && Num.leb (ToNumber key) ut) eqn:C.
  - apply andb_true_iff in C. destruct C as [C1 C2].
    right. exists key. rewrite last_with_time_snoc, num_eqb_refl. auto.
  - destruct H as [[-> [-> Hnone]] | [k [Hk [Hv Ht]]]].
    + left. repeat split; auto. intros k Hk.
      apply in_app_or in Hk. destruct Hk as [Hk | [<- | []]]; auto.
      destruct (Num.leb time (ToNumber key)) eqn:Hle; [| reflexivity].
      rewrite leb_PInf in C by (apply (leb_not_NaN _ _ Hle)). discriminate.
    + right. exists k. rewrite last_with_time_snoc.
      destruct (Num.eqb (ToNumber key) ut) eqn:E; [| auto].
      apply num_eqb_eq in E. rewrite E, Ht in C.
      rewrite leb_refl in C; [discriminate | apply (leb_not_NaN _ _ Ht)].
Qed.

Lemma last_fold (keys seen : list string) (b : bounds) :
  lower_last property time seen (lowerTime b) (lowerValue b) ->
  upper_last property time seen (upperTime b) (upperValue b) ->
  let b' := fold_left (scan_step property time) keys b in
  lower_last property time (seen ++ keys) (lowerTime b') (lowerValue b') /\
  upper_last property time (seen ++ keys) (upperTime b') (upperValue b').
Proof.
  revert seen b. induction keys as [| key rest IH]; intros seen b Hl Hu; simpl.
  - rewrite app_nil_r. auto.
  - replace (seen ++ key :: rest)%list with ((seen ++ [key]) ++ rest)%list
      by (rewrite <- app_assoc; reflexivity).
    apply IH; rewrite scan_step_bounds; cbv zeta; simpl.
    + apply lower_last_step. exact Hl.
    + apply upper_last_step. exact Hu.
Qed.

End LastWins.

Lemma scan_last (own : props) (time : num) :
  lower_last own time (Obj.keys own) (lowerTime (scan own time)) (lowerValue (scan own time))
  /\ upper_last own time (Obj.keys own) (upperTime (scan own time)) (upperValue (scan own time)).
Proof.
  apply (last_fold own time (Obj.keys own) [] initial_bounds).
  - left. repeat split. intros k [].
  - left. repeat split. intros k [].
Qed.

(** X3: when several keys of a keyframe set are the same time (as ["1"] and
    ["1.0"] are), each bound of the scan takes its value from the one of
    them that is enumerated last, since both comparisons of the loop admit
    equality. *)
Theorem scan_equal_times_last_wins :
  forall (own : props) (time : num),
    let b := scan own time in
    ((exists k, In k (Obj.keys own) /\
        Num.leb Num.zero (ToNumber k) && Num.leb (ToNumber k) time = true) ->
     exists k, last_with_time (lowerTime b) (Obj.keys own) = Some k /\
               lowerValue b = Obj.get own k)
    /\ ((exists k, In k (Obj.keys own) /\ Num.leb time (ToNumber k) = true) ->
        exists k, last_with_time (upperTime b) (Obj.keys own) = Some k /\
                  upperValue b = Obj.get own k)
    /\ (forall call element,
          val call (VObject ObjectPrototype false same_time_twice) element
              (Some (Num.of_Z 1))
          = Ok (number 20)).
Proof.
  intros own time b. destruct (scan_last own time) as [Hl Hu]. fold b in Hl, Hu.
  split; [| split].
  - intros [k [Hk Hc]].
    destruct Hl as [[_ [_ Hnone]] | [k' [Hk' [Hv _]]]].
    + rewrite (Hnone k Hk) in Hc. discriminate.
    + exists k'. auto.
  - intros [k [Hk Hc]].
    destruct Hu as [[_ [_ Hnone]] | [k' [Hk' [Hv _]]]].
    + rewrite (Hnone k Hk) in Hc. discriminate.
    + exists k'. auto.
  - intros call element. rewrite val_keyframes.
    apply result_eqb_sound. vm_compute. reflexivity.
Qed.

(** ** Between two keyframes *)

Lemma scan_between (own : props) (k0 k1 : string) (q0 q1 qt : Qc) :
  times_distinct own -> adjacent own k0 k1 q0 q1 ->
  (q0 < qt)%Qc -> (qt < q1)%Qc ->
  scan own (Fin qt) = mkBounds (Fin q0) (Fin q1) (Obj.get own k0) (Obj.get own k1).
Proof.
  intros Hd [Hk0 Hk1 E0 E1 Hq0 Hlt Hadj] M0 M1.
  assert (Z0 : Num.leb Num.zero (ToNumber k0) = true)
    by (rewrite E0; apply leb_Fin; exact Hq0).
  assert (L0 : Num.leb (ToNumber k0) (Fin qt) = true)
    by (rewrite E0; apply leb_Fin, Qclt_le_weak, M0).
  assert (L1 : Num.leb (Fin qt) (ToNumber k1) = true)
    by (rewrite E1; apply leb_Fin, Qclt_le_weak, M1).
  destruct (scan_lower_time own (Fin qt) k0 Hk0 Z0 L0) as [Lt [kl [Hkl [El Lv]]]].
  { intros k Hk Hle. rewrite E0. destruct (Hadj k Hk) as [H | [H | H]].
    - exact H.
    - exfalso. pose proof (leb_trans _ _ _ H Hle) as C.
      apply leb_Fin in C. apply (Qclt_not_le _ _ M1 C).
    - destruct (leb_not_NaN _ _ Hle). congruence. }
  destruct (scan_upper_time own (Fin qt) k1 Hk1 L1) as [Ut [ku [Hku [Eu Uv]]]].
  { intros k Hk Hle. rewrite E1. destruct (Hadj k Hk) as [H | [H | H]].
    - exfalso. pose proof (leb_trans _ _ _ Hle H) as C.
      apply leb_Fin in C. apply (Qclt_not_le _ _ M0 C).
    - exact H.
    - destruct (leb_not_NaN _ _ Hle). congruence. }
  assert (N0 : isNaN (ToNumber k0) = false) by (rewrite E0; reflexivity).
  assert (N1 : isNaN (ToNumber k1) = false) by (rewrite E1; reflexivity).
  rewrite (Hd k0 kl Hk0 Hkl N0 El) in Lv.
  rewrite (Hd k1 ku Hk1 Hku N1 Eu) in Uv.
  destruct (scan own (Fin qt)) as [lt ut lv uv]. simpl in *. congruence.
Qed.

Lemma progress_between_eq (q0 q1 qt : Qc) :
  (q0 < q1)%Qc ->
  Num.div (Num.sub (Fin qt) (Fin q0)) (Num.sub (Fin q1) (Fin q0))
  = Fin (progress_between q0 q1 qt).
Proof.
  intros H.
  change (Num.sub (Fin qt) (Fin q0)) with (Fin (qt + - q0)%Qc).
  change (Num.sub (Fin q1) (Fin q0)) with (Fin (q1 + - q0)%Qc).
  unfold Num.div.
  replace (Qc_eqb (q1 + - q0) (Q2Qc 0)) with false; [reflexivity |].
  symmetry. destruct (Qc_eqb (q1 + - q0)%Qc (Q2Qc 0)) eqn:E; [| reflexivity].
  apply Qc_eqb_eq in E. exfalso. apply (Qclt_not_eq _ _ H).
  rewrite <- (Qcplus_0_r q0). change (Q2Qc 0) with 0%Qc in E. rewrite <- E. ring.
Qed.

Lemma not_object_not_null (v : value) : number_or_object v = false -> is_null v = false.
Proof. destruct v; simpl; intros H; try reflexivity; discriminate. Qed.

(** X4: a keyframe whose value is neither a number nor an object (a string,
    a boolean, a callable, undefined) holds from its time on, without
    interpolation: at every time at or after a key that is not negative and
    is the latest one at or before that time, resolution returns the value
    stored under that key, whatever the later keyframes hold and also when
    there is none. *)
Theorem val_step_values :
  forall (call : nat -> list value -> value + value) (p : proto) (own : props)
         (element : value) (time : num) (k : string),
    In k (Obj.keys own) ->
    Num.leb Num.zero (ToNumber k) = true ->
    Num.leb (ToNumber k) time = true ->
    (forall k', In k' (Obj.keys own) -> Num.leb (ToNumber k') time = true ->
                Num.leb (ToNumber k') (ToNumber k) = true) ->
    (forall k', In k' (Obj.keys own) -> ToNumber k' = ToNumber k -> k' = k) ->
    number_or_object (Obj.get own k) = false ->
    val call (VObject p false own) element (Some time) = Ok (Obj.get own k).
Proof.
  intros call p own element time k Hk H0 Ht Hmax Hsole Hflat.
  destruct (scan_lower_time own time k Hk H0 Ht Hmax) as [_ [k' [Hk' [E Lv]]]].
  rewrite (Hsole k' Hk' E) in Lv.
  rewrite val_keyframes. cbv zeta. rewrite Lv, (not_object_not_null _ Hflat), Hflat.
  reflexivity.
Qed.

Lemma val_step_values_witness :
  val no_callables (VObject ObjectPrototype false colour_steps) VUndefined
      (Some (Num.of_Z 7))
  = Ok (VString "blue").
Proof.
  apply (val_step_values no_callables ObjectPrototype colour_steps VUndefined
           (Num.of_Z 7) "4").
  - simpl. auto.
  - reflexivity.
  - reflexivity.
  - intros k' Hk' _. simpl in Hk'. destruct Hk' as [<- | [<- | []]]; reflexivity.
  - intros k' Hk'. simpl in Hk'. destruct Hk' as [<- | [<- | []]]; intros E.
    + apply num_eqb_eq in E. vm_compute in E. discriminate.
    + reflexivity.
  - reflexivity.
Defined.

(** X5: in a keyframe set no two of whose keys are the same time, at a
    time strictly between the times [t0 < t1] of two keys, where [t0] is
    not negative and no key of the set is a time strictly between [t0] and
    [t1]: when the values at [t0] and [t1] are not null and are of
    different types, the first being a number or an object, resolution
    fails with the keyframe type mismatch, before any interpolator is
    consulted. *)
Theorem val_keyframe_type_mismatch :
  forall (call : nat -> list value -> value + value) (p : proto) (own : props)
         (element : value) (k0 k1 : string) (q0 q1 qt : Qc),
    times_distinct own -> adjacent own k0 k1 q0 q1 ->
    (q0 < qt)%Qc -> (qt < q1)%Qc ->
    number_or_object (Obj.get own k0) = true ->
    is_null (Obj.get own k0) = false ->
    is_null (Obj.get own k1) = false ->
    typeof (Obj.get own k0) <> typeof (Obj.get own k1) ->
    val call (VObject p false own) element (Some (Fin qt)) = Err KeyframeTypeMismatchError.
Proof.
  intros call p own element k0 k1 q0 q1 qt Hd Hadj M0 M1 Hkind N0 N1 Hty.
  rewrite val_keyframes, (scan_between own k0 k1 q0 q1 qt Hd Hadj M0 M1).
  cbv zeta. cbn [lowerValue upperValue lowerTime upperTime].
  rewrite N0, Hkind, N1. simpl negb. cbv iota.
  destruct (typeof (Obj.get own k0)), (typeof (Obj.get own k1));
    try reflexivity; exfalso; apply Hty; reflexivity.
Qed.

Lemma Qc_lt_by_value (x y : Qc) : Qc_ltb x y = true -> (x < y)%Qc.
Proof.
  unfold Qc_ltb. intros H. apply Qcnot_le_lt. intros C.
  apply Qc_leb_le in C. unfold Qc_leb in C. rewrite C in H. discriminate.
Qed.

Lemma Qc_le_by_value (x y : Qc) : Qc_leb x y = true -> (x <= y)%Qc.
Proof. apply Qc_leb_le. Qed.

Lemma times_distinct_literal (kvs : list (string * value)) :
  (forall k k', In k (map fst kvs) -> In k' (map fst kvs) ->
     Num.eqb (ToNumber k') (ToNumber k) = true -> isNaN (ToNumber k) = false -> k' = k) ->
  times_distinct (Obj.literal kvs).
Proof.
  intros H k k' Hk Hk' Hn E.
  rewrite keys_all_enumerable, literal_keys in Hk, Hk' by apply literal_enumerable.
  apply H; auto. apply num_eqb_eq. exact E.
Qed.

Lemma mixed_adjacent : times_distinct mixed /\ adjacent mixed "0" "2" (Q2Qc 0) (Q2Qc 2).
Proof.
  split.
  - apply times_distinct_literal. intros k k' Hk Hk'. simpl in Hk, Hk'.
    destruct Hk as [<- | [<- | []]], Hk' as [<- | [<- | []]]; intros E _;
      try reflexivity; vm_compute in E; discriminate.
  - constructor; try (simpl; auto; fail); try reflexivity.
    + apply Qc_le_by_value. reflexivity.
    + intros k Hk. simpl in Hk.
      destruct Hk as [<- | [<- | []]]; [left | right; left]; reflexivity.
Qed.

Lemma val_keyframe_type_mismatch_witness :
  val no_callables (VObject ObjectPrototype false mixed) VUndefined (Some (Num.of_Z 1))
  = Err KeyframeTypeMismatchError.
Proof.
  destruct mixed_adjacent as [Hd Hadj].
  apply (val_keyframe_type_mismatch no_callables ObjectPrototype mixed VUndefined
           "0" "2" (Q2Qc 0) (Q2Qc 2) (Q2Qc 1) Hd Hadj).
  - apply Qc_lt_by_value. reflexivity.
  - apply Qc_lt_by_value. reflexivity.
  - reflexivity.
  - reflexivity.
  - reflexivity.
  - discriminate.
Defined.

(** X6: in a keyframe set no two of whose keys are the same time, at a
    time strictly between the times [t0 < t1] of two keys, where [t0] is
    not negative and no key of the set is a time strictly between [t0] and
    [t1]: when the values at [t0] and [t1] are not null and are of one
    type, number or object, and the [interpolate] property of the set is
    truthy, it is called with the two values, the fraction of the interval
    that has elapsed and the [interpolationKeys] property, and resolution
    gives what this call gives (a failure of the host when it is no
    callable). *)
Theorem val_custom_interpolate :
  forall (call : nat -> list value -> value + value) (p : proto) (own : props)
         (element : value) (k0 k1 : string) (q0 q1 qt : Qc),
    times_distinct own -> adjacent own k0 k1 q0 q1 ->
    (q0 < qt)%Qc -> (qt < q1)%Qc ->
    number_or_object (Obj.get own k0) = true ->
    is_null (Obj.get own k0) = false ->
    is_null (Obj.get own k1) = false ->
    typeof (Obj.get own k0) = typeof (Obj.get own k1) ->
    ToBoolean (Obj.get own "interpolate") = true ->
    val call (VObject p false own) element (Some (Fin qt))
    = match Obj.get own "interpolate" with
      | VFunction f =>
          match call f [Obj.get own k0; Obj.get own k1;
                        VNumber (Fin (progress_between q0 q1 qt));
                        Obj.get own "interpolationKeys"] with
          | inl v => Ok v
          | inr thrown => Err (CalleeThrew thrown)
          end
      | _ => Err HostTypeError
      end.
Proof.
  intros call p own element k0 k1 q0 q1 qt Hd Hadj M0 M1 Hkind N0 N1 Hty Hint.
  rewrite val_keyframes, (scan_between own k0 k1 q0 q1 qt Hd Hadj M0 M1).
  cbv zeta. cbn [lowerValue upperValue lowerTime upperTime].
  rewrite N0, Hkind, N1, Hty, jstype_eqb_refl, Hint. simpl negb. cbv iota.
  destruct Hadj as [_ _ _ _ _ Hlt _].
  replace (Num.strict_eq (Fin q1) (Fin q0)) with false
    by (symmetry; apply Qc_eqb_lt; exact Hlt).
  rewrite progress_between_eq by exact Hlt. reflexivity.
Qed.

Lemma eased_adjacent : times_distinct eased /\ adjacent eased "0" "2" (Q2Qc 0) (Q2Qc 2).
Proof.
  split.
  - apply times_distinct_literal. intros k k' Hk Hk'. simpl in Hk, Hk'.
    destruct Hk as [<- | [<- | [<- | []]]], Hk' as [<- | [<- | [<- | []]]]; intros E N;
      try reflexivity; vm_compute in E; try discriminate; vm_compute in N; discriminate.
  - constructor; try (simpl; auto; fail); try reflexivity.
    + apply Qc_le_by_value. reflexivity.
    + intros k Hk. simpl in Hk.
      destruct Hk as [<- | [<- | [<- | []]]];
        [left | right; left | right; right]; reflexivity.
Qed.

Lemma val_custom_interpolate_witness :
  val third_argument (VObject ObjectPrototype false eased) VUndefined (Some (Num.of_Z 1))
  = Ok (VNumber (Fin (progress_between (Q2Qc 0) (Q2Qc 2) (Q2Qc 1)))).
Proof.
  destruct eased_adjacent as [Hd Hadj].
  apply (val_custom_interpolate third_argument ObjectPrototype eased VUndefined
           "0" "2" (Q2Qc 0) (Q2Qc 2) (Q2Qc 1) Hd Hadj).
  - apply Qc_lt_by_value. reflexivity.
  - apply Qc_lt_by_value. reflexivity.
  - reflexivity.
  - reflexivity.
  - reflexivity.
  - reflexivity.
  - reflexivity.
Defined.

(** X7: in a keyframe set no two of whose keys are the same time, at a
    time strictly between the times [t0 < t1] of two keys, where [t0] is
    not negative and no key of the set is a time strictly between [t0] and
    [t1]: when the values at [t0] and [t1] are not null and are of one
    type, number or object, and the set has no truthy [interpolate]
    property, resolution gives what linear interpolation gives of the two
    values at the fraction of the interval that has elapsed, called without
    interpolation keys: the [interpolationKeys] property of the set has no
    effect on the result. *)
Theorem val_default_interpolation :
  forall (call : nat -> list value -> value + value) (p : proto) (own : props)
         (element : value) (k0 k1 : string) (q0 q1 qt : Qc),
    times_distinct own -> adjacent own k0 k1 q0 q1 ->
    (q0 < qt)%Qc -> (qt < q1)%Qc ->
    number_or_object (Obj.get own k0) = true ->
    is_null (Obj.get own k0) = false ->
    is_null (Obj.get own k1) = false ->
    typeof (Obj.get own k0) = typeof (Obj.get own k1) ->
    ToBoolean (Obj.get own "interpolate") = false ->
    val call (VObject p false own) element (Some (Fin qt))
    = linearInterp (Obj.get own k0) (Obj.get own k1)
        (Fin (progress_between q0 q1 qt)) None.
Proof.
  intros call p own element k0 k1 q0 q1 qt Hd Hadj M0 M1 Hkind N0 N1 Hty Hint.
  rewrite val_keyframes, (scan_between own k0 k1 q0 q1 qt Hd Hadj M0 M1).
  cbv zeta. cbn [lowerValue upperValue lowerTime upperTime].
  rewrite N0, Hkind, N1, Hty, jstype_eqb_refl, Hint. simpl negb. cbv iota.
  destruct Hadj as [_ _ _ _ _ Hlt _].
  replace (Num.strict_eq (Fin q1) (Fin q0)) with false
    by (symmetry; apply Qc_eqb_lt; exact Hlt).
  rewrite progress_between_eq by exact Hlt.
  destruct (Obj.get own k0), (Obj.get own k1); reflexivity.
Qed.

Lemma path_adjacent : times_distinct path /\ adjacent path "0" "4" (Q2Qc 0) (Q2Qc 4).
Proof.
  split.
  - intros k k' Hk Hk'. simpl in Hk, Hk'.
    destruct Hk as [<- | [<- | [<- | []]]], Hk' as [<- | [<- | [<- | []]]]; intros N E;
      try reflexivity; try (vm_compute in N; discriminate);
      apply num_eqb_eq in E; vm_compute in E; discriminate.
  - constructor; try (simpl; auto; fail); try reflexivity.
    + apply Qc_le_by_value. reflexivity.
    + intros k Hk. simpl in Hk.
      destruct Hk as [<- | [<- | [<- | []]]];
        [left | right; left | right; right]; reflexivity.
Qed.

Lemma val_default_interpolation_witness :
  val no_callables (VObject ObjectPrototype false path) VUndefined (Some (Num.of_Z 1))
  = linearInterp (plain [("x", number 0)]) (plain [("x", number 8)])
      (Fin (progress_between (Q2Qc 0) (Q2Qc 4) (Q2Qc 1))) None.
Proof.
  destruct path_adjacent as [Hd Hadj].
  apply (val_default_interpolation no_callables ObjectPrototype path VUndefined
           "0" "4" (Q2Qc 0) (Q2Qc 4) (Q2Qc 1) Hd Hadj).
  - apply Qc_lt_by_value. reflexivity.
  - apply Qc_lt_by_value. reflexivity.
  - reflexivity.
  - reflexivity.
  - reflexivity.
  - reflexivity.
  - reflexivity.
Defined.

Example val_default_interpolation_example :
  val no_callables (VObject ObjectPrototype false path) VUndefined (Some (Num.of_Z 1))
  = Ok (plain [("x", number 2)]).
Proof. apply result_eqb_sound; vm_compute; reflexivity. Qed.

(** ** The line through two numbers *)

Lemma this_plus (a b : Qc) : (this (a + b)%Qc == this a + this b)%Q.
Proof. unfold Qcplus, Q2Qc. cbn [this]. apply Qred_correct. Qed.

Lemma this_mult (a b : Qc) : (this (a * b)%Qc == this a * this b)%Q.
Proof. unfold Qcmult, Q2Qc. cbn [this]. apply Qred_correct. Qed.

Lemma this_opp (a : Qc) : (this (- a)%Qc == - this a)%Q.
Proof. unfold Qcopp, Q2Qc. cbn [this]. apply Qred_correct. Qed.

Lemma this_line_at (a b t : Qc) :
  (this (line_at a b t) == (1 - this t) * this a + this t * this b)%Q.
Proof.
  unfold line_at, Qcminus. rewrite this_plus, !this_mult, this_plus, this_opp.
  change (this 1%Qc) with 1%Q. ring.
Qed.

Lemma linearInterp_finite (a b t : Qc) (objectKeys : option (list string)) :
  linearInterp (VNumber (Fin a)) (VNumber (Fin b)) (Fin t) objectKeys
  = Ok (VNumber (Fin (line_at a b t))).
Proof. reflexivity. Qed.

Lemma line_at_between (a b t : Qc) :
  (0 <= t)%Qc -> (t <= 1)%Qc -> (a <= b)%Qc ->
  (a <= line_at a b t)%Qc /\ (line_at a b t <= b)%Qc.
Proof.
  unfold Qcle. intros H0 H1 Hab. rewrite this_line_at.
  change (this 0%Qc) with 0%Q in H0. change (this 1%Qc) with 1%Q in H1.
  split; nra.
Qed.

Lemma line_at_between_rev (a b t : Qc) :
  (0 <= t)%Qc -> (t <= 1)%Qc -> (b <= a)%Qc ->
  (b <= line_at a b t)%Qc /\ (line_at a b t <= a)%Qc.
Proof.
  unfold Qcle. intros H0 H1 Hab. rewrite this_line_at.
  change (this 0%Qc) with 0%Q in H0. change (this 1%Qc) with 1%Q in H1.
  split; nra.
Qed.

Lemma line_at_0 (a b : Qc) : line_at a b 0%Qc = a.
Proof. unfold line_at. ring. Qed.

Lemma line_at_1 (a b : Qc) : line_at a b 1%Qc = b.
Proof. unfold line_at. ring. Qed.


(** X9: under the default linear interpolator, at every time from one
    keyframe to the next, both holding finite numbers, resolution returns
    the point of the line through the two keyframes, in exact arithmetic:
    [v0] and [v1] blended at the elapsed fraction of the interval.  The
    value lies between [v0] and [v1], and is [v0] at the first time and [v1]
    at the second, where no interpolation is performed. *)
Theorem val_linear_between :
  forall (call : nat -> list value -> value + value) (p : proto) (own : props)
         (element : value) (k0 k1 : string) (q0 q1 qt x0 x1 : Qc),
    times_distinct own -> adjacent own k0 k1 q0 q1 ->
    (q0 <= qt)%Qc -> (qt <= q1)%Qc ->
    Obj.get own k0 = VNumber (Fin x0) ->
    Obj.get own k1 = VNumber (Fin x1) ->
    ToBoolean (Obj.get own "interpolate") = false ->
    let t := progress_between q0 q1 qt in
    val call (VObject p false own) element (Some (Fin qt))
    = Ok (VNumber (Fin (line_at x0 x1 t)))
    /\ (0 <= t)%Qc /\ (t <= 1)%Qc
    /\ ((x0 <= x1)%Qc -> (x0 <= line_at x0 x1 t)%Qc /\ (line_at x0 x1 t <= x1)%Qc)
    /\ ((x1 <= x0)%Qc -> (x1 <= line_at x0 x1 t)%Qc /\ (line_at x0 x1 t <= x0)%Qc).
Proof.
  intros call p own element k0 k1 q0 q1 qt x0 x1 Hd Hadj M0 M1 V0 V1 Hdefault t.
  pose proof Hadj as [Hk0 Hk1 E0 E1 Hq0 Hlt _].
  assert (N : (q1 - q0)%Qc <> 0%Qc).
  { intros E. apply (Qclt_not_eq _ _ Hlt).
    rewrite <- (Qcplus_0_r q0). rewrite <- E. ring. }
  assert (T0 : (0 <= t)%Qc /\ (t <= 1)%Qc).
  { assert (D : (0 < q1 - q0)%Qc) by (apply Qclt_minus_iff in Hlt; exact Hlt).
    split.
    - apply Qcmult_lt_0_le_reg_r with (q1 - q0)%Qc; [exact D |].
      replace (t * (q1 - q0))%Qc with (qt - q0)%Qc
        by (unfold t, progress_between; field; exact N).
      rewrite Qcmult_0_l. apply Qcle_minus_iff in M0. exact M0.
    - apply Qcmult_lt_0_le_reg_r with (q1 - q0)%Qc; [exact D |].
      replace (t * (q1 - q0))%Qc with (qt - q0)%Qc
        by (unfold t, progress_between; field; exact N).
      rewrite Qcmult_1_l. unfold Qcminus. apply Qcplus_le_compat; [exact M1 |].
      apply Qcle_refl. }
  destruct T0 as [T0 T1].
  split; [| split; [exact T0 | split; [exact T1 | split]]].
  - destruct (Qcle_lt_or_eq _ _ M0) as [L0 | <-];
      [destruct (Qcle_lt_or_eq _ _ M1) as [L1 | ->] |].
    + (* strictly between the two keyframes *)
      rewrite val_keyframes, (scan_between own k0 k1 q0 q1 qt Hd Hadj L0 L1).
      cbv zeta. cbn [lowerValue upperValue lowerTime upperTime].
      rewrite V0, V1, Hdefault. simpl is_null. simpl number_or_object.
      simpl typeof. simpl jstype_eqb. simpl negb. cbv iota.
      replace (Num.strict_eq (Fin q1) (Fin q0)) with false
        by (symmetry; apply Qc_eqb_lt; exact Hlt).
      rewrite progress_between_eq by exact Hlt. apply linearInterp_finite.
    + (* at the second keyframe *)
      replace t with 1%Qc by (unfold t, progress_between; field; exact N).
      rewrite line_at_1, <- E1, <- V1. apply val_exact_hit; try assumption.
      * rewrite E1. apply leb_Fin. apply Qcle_trans with q0; [exact Hq0 | exact M0].
      * rewrite V1. reflexivity.
    + (* at the first keyframe *)
      replace t with 0%Qc by (unfold t, progress_between; field; exact N).
      rewrite line_at_0, <- E0, <- V0. apply val_exact_hit; try assumption.
      * rewrite E0. apply leb_Fin. exact Hq0.
      * rewrite V0. reflexivity.
  - intros Hx. apply line_at_between; assumption.
  - intros Hx. apply line_at_between_rev; assumption.
Qed.

Lemma ramp_adjacent : times_distinct ramp /\ adjacent ramp "2" "5" (Q2Qc 2) (Q2Qc 5).
Proof.
  split.
  - apply times_distinct_literal. intros k k' Hk Hk'. simpl in Hk, Hk'.
    destruct Hk as [<- | [<- | [<- | []]]], Hk' as [<- | [<- | [<- | []]]]; intros E _;
      try reflexivity; vm_compute in E; discriminate.
  - constructor; try (simpl; auto; fail); try reflexivity.
    + apply Qc_le_by_value. reflexivity.
    + intros k Hk. simpl in Hk.
      destruct Hk as [<- | [<- | [<- | []]]];
        [left | left | right; left]; reflexivity.
Qed.

Lemma val_linear_between_witness :
  val no_callables (VObject ObjectPrototype false ramp) VUndefined (Some (Num.of_Z 3))
  = Ok (VNumber (Fin (line_at (Q2Qc 10) (Q2Qc 4) (progress_between (Q2Qc 2) (Q2Qc 5) (Q2Qc 3))))).
Proof.
  destruct ramp_adjacent as [Hd Hadj].
  apply (val_linear_between no_callables ObjectPrototype ramp VUndefined
           "2" "5" (Q2Qc 2) (Q2Qc 5) (Q2Qc 3) (Q2Qc 10) (Q2Qc 4) Hd Hadj).
  - apply Qc_le_by_value. reflexivity.
  - apply Qc_le_by_value. reflexivity.
  - reflexivity.
  - reflexivity.
  - reflexivity.
Defined.

(** ** The order of the keyframes *)

Lemma lookup_permutation (own own' : props) (k : string) :
  Permutation own own' -> Obj.wf own -> Obj.lookup own k = Obj.lookup own' k.
Proof.
  unfold Obj.wf. induction 1 as [| x l l' Hp IH | x y l | l l' l'' H1 IH1 H2 IH2]; intros Hwf.
  - reflexivity.
  - simpl. destruct (String.eqb (pkey x) k); [reflexivity |].
    apply IH. simpl in Hwf. inversion Hwf. assumption.
  - simpl. destruct (String.eqb (pkey y) k) eqn:Ey, (String.eqb (pkey x) k) eqn:Ex;
      try reflexivity.
    apply String.eqb_eq in Ex, Ey. simpl in Hwf. inversion Hwf as [| a b Ha Hb]; subst.
    exfalso. apply Ha. left. congruence.
  - rewrite IH1 by exact Hwf. apply IH2.
    apply (Permutation_NoDup (Permutation_map pkey H1) Hwf).
Qed.

Lemma keys_permutation (own own' : props) (k : string) :
  Permutation own own' -> In k (Obj.keys own) -> In k (Obj.keys own').
Proof.
  unfold Obj.keys. intros Hp Hk. apply in_map_iff in Hk. destruct Hk as [q [<- Hq]].
  apply filter_In in Hq. destruct Hq as [Hq He]. apply in_map. apply filter_In.
  split; [exact (Permutation_in q Hp Hq) | exact He].
Qed.

Lemma scan_permutation (own own' : props) (time : num) :
  Permutation own own' -> Obj.wf own -> times_distinct own ->
  scan own time = scan own' time.
Proof.
  intros Hp Hwf Hd.
  assert (Hget : forall k, Obj.get own' k = Obj.get own k).
  { intros k. unfold Obj.get. rewrite (lookup_permutation own own' k Hp Hwf). reflexivity. }
  assert (Hin : forall k, In k (Obj.keys own') -> In k (Obj.keys own)).
  { intros k. apply keys_permutation. apply Permutation_sym. exact Hp. }
  assert (Hin' : forall k, In k (Obj.keys own) -> In k (Obj.keys own')).
  { intros k. apply keys_permutation. exact Hp. }
  destruct (scan_invariant own time) as [[Lge Lsrc Lmax] [Unum Usrc Umin]].
  destruct (scan_invariant own' time) as [[Lge' Lsrc' Lmax'] [Unum' Usrc' Umin']].
  destruct (scan own time) as [lt ut lv uv], (scan own' time) as [lt' ut' lv' uv'].
  cbn [lowerTime upperTime lowerValue upperValue] in *.
  assert (L : lt = lt' /\ lv = lv').
  { destruct Lsrc as [[L1 [L2 L3]] | [k [Hk [L1 [L2 L3]]]]],
             Lsrc' as [[L1' [L2' L3']] | [k' [Hk' [L1' [L2' L3']]]]].
    - split; congruence.
    - exfalso. specialize (L3 k' (Hin k' Hk')).
      rewrite L3', L1', Lge' in L3. discriminate.
    - exfalso. specialize (L3' k (Hin' k Hk)).
      rewrite L3, L1, Lge in L3'. discriminate.
    - assert (E : ToNumber k' = ToNumber k).
      { apply leb_antisym.
        + rewrite L1. apply Lmax; [apply Hin, Hk' | rewrite L1'; exact Lge' | exact L3'].
        + rewrite L1'. apply Lmax'; [apply Hin', Hk | rewrite L1; exact Lge | exact L3]. }
      assert (Ek : k' = k).
      { apply Hd; [exact Hk | apply Hin, Hk' | apply (leb_not_NaN _ _ L3) | exact E]. }
      subst k'. split; [congruence |]. rewrite L2, L2'. symmetry. apply Hget. }
  assert (U : ut = ut' /\ uv = uv').
  { destruct Usrc as [[U1 [U2 U3]] | [k [Hk [U1 [U2 U3]]]]],
             Usrc' as [[U1' [U2' U3']] | [k' [Hk' [U1' [U2' U3']]]]].
    - split; congruence.
    - exfalso. specialize (U3 k' (Hin k' Hk')). congruence.
    - exfalso. specialize (U3' k (Hin' k Hk)). congruence.
    - assert (E : ToNumber k' = ToNumber k).
      { apply leb_antisym.
        + rewrite U1'. apply Umin'; [apply Hin', Hk | exact U3].
        + rewrite U1. apply Umin; [apply Hin, Hk' | exact U3']. }
      assert (Ek : k' = k).
      { apply Hd; [exact Hk | apply Hin, Hk' | apply (leb_not_NaN _ _ U3) | exact E]. }
      subst k'. split; [congruence |]. rewrite U2, U2'. symmetry. apply Hget. }
  destruct L as [-> ->], U as [-> ->]. reflexivity.
Qed.

(** X10: the keyframes of a set may be declared in any order: when no two
    own properties have the same name and no two keys are the same time,
    resolution gives the same result on the set and on every rearrangement
    of its own properties, at every time and also when the time is not
    given. *)
Theorem val_any_order :
  forall (call : nat -> list value -> value + value) (p : proto) (own own' : props)
         (element : value) (time : option num),
    Permutation own own' -> Obj.wf own -> times_distinct own ->
    val call (VObject p false own') element time
    = val call (VObject p false own) element time.
Proof.
  intros call p own own' element time Hp Hwf Hd.
  destruct time as [time |];
    [| unfold val; rewrite !isKeyFrames_object; reflexivity].
  rewrite !val_keyframes. cbv zeta.
  rewrite <- (scan_permutation own own' time Hp Hwf Hd).
  assert (Hget : forall k, Obj.get own' k = Obj.get own k).
  { intros k. unfold Obj.get. rewrite (lookup_permutation own own' k Hp Hwf). reflexivity. }
  rewrite !Hget. reflexivity.
Qed.

Lemma val_any_order_witness :
  val no_callables (VObject ObjectPrototype false ramp_shuffled) VUndefined
      (Some (Num.of_Z 1))
  = val no_callables (VObject ObjectPrototype false ramp) VUndefined (Some (Num.of_Z 1)).
Proof.
  apply val_any_order.
  - unfold ramp, ramp_shuffled, Obj.literal. simpl.
    apply Permutation_sym. apply perm_trans with
      [mkProp "0" true (number 0); mkProp "5" true (number 4); mkProp "2" true (number 10)].
    + apply perm_swap.
    + apply perm_skip. apply perm_swap.
  - unfold Obj.wf. simpl. repeat constructor; simpl; intuition discriminate.
  - apply times_distinct_literal. intros k k' Hk Hk'. simpl in Hk, Hk'.
    destruct Hk as [<- | [<- | [<- | []]]], Hk' as [<- | [<- | [<- | []]]]; intros E _;
      try reflexivity; vm_compute in E; discriminate.
Defined.

(** ** The failures of linear interpolation *)

(** X11: on operands that are finite trees (no object reaches itself
    through its properties) and none of whose objects, at any depth, owns a
    property named [hasOwnProperty], linear interpolation fails in three
    ways only: with the type mismatch, with the prototype mismatch, and
    with a type error of the host.  On all operands: it gives the type
    mismatch whenever its two operands are of different types; the
    prototype mismatch on two objects of different prototypes (as an array
    and an object that is none); and the type error of the host on null,
    which is of type object but has no prototype to read.  Two operands of
    one type that is neither number nor object give the first operand as it
    is, whatever [t]. *)
Theorem linearInterp_failure_causes :
  forall (x1 x2 : value) (t : num) (objectKeys : option (list string)),
    (host_hasOwnProperty x1 = true -> host_hasOwnProperty x2 = true ->
     forall e, linearInterp x1 x2 t objectKeys = Err e ->
       e = TypeMismatchError \/ e = StructuralMismatchError \/ e = HostTypeError)
    /\ (typeof x1 <> typeof x2 ->
        linearInterp x1 x2 t objectKeys = Err TypeMismatchError)
    /\ (typeof x1 = typeof x2 -> number_or_object x1 = false ->
        linearInterp x1 x2 t objectKeys = Ok x1)
    /\ (typeof x1 = TObject -> typeof x2 = TObject ->
        is_null x1 || is_null x2 = true ->
        linearInterp x1 x2 t objectKeys = Err HostTypeError)
    /\ (forall p1 a1 own1 p2 a2 own2,
          x1 = VObject p1 a1 own1 -> x2 = VObject p2 a2 own2 -> p1 <> p2 ->
          linearInterp x1 x2 t objectKeys = Err StructuralMismatchError).
Proof.
  intros x1 x2 t objectKeys. split; [| split; [| split; [| split]]].
  - intros _ _ e H. exact (linearInterp_failures x1 x2 t objectKeys e H).
  - intros Hty. destruct x1, x2; try reflexivity; exfalso; apply Hty; reflexivity.
  - intros Hty Hflat. destruct x1, x2; try discriminate; reflexivity.
  - intros H1 H2 Hn. destruct x1, x2; try discriminate; reflexivity.
  - intros p1 a1 own1 p2 a2 own2 -> -> Hp. rewrite linearInterp_objects.
    destruct (proto_eqb p1 p2) eqn:E; [| reflexivity].
    apply proto_eqb_eq in E. contradiction.
Qed.

(** ** Interpolating a value with itself *)






(** ** Cosine interpolation *)

Lemma sub_one_sub_one (s : num) : Num.sub Num.one (Num.sub Num.one s) = s.
Proof.
  destruct s as [| | | q]; try reflexivity.
  change (Fin (Q2Qc 1 + - (Q2Qc 1 + - q))%Qc = Fin q). f_equal.
  change (Q2Qc 1) with 1%Qc. ring.
Qed.

Lemma cosineInterp_numbers (Math_PI : num) (Math_cos : num -> num) (a b t : num)
  (objectKeys : option (list string)) :
  cosineInterp Math_PI Math_cos (VNumber a) (VNumber b) t objectKeys
  = let cos := Math_cos (Num.mul (Num.div Math_PI (Num.of_Z 2)) t) in
    Ok (VNumber (Num.add (Num.mul cos a) (Num.mul (Num.sub Num.one cos) b))).
Proof. reflexivity. Qed.

Lemma at_key_ext (f g : value -> value -> result value) (own : props)
  (key : string) (y : value) :
  (forall q, In q own -> f (pval q) y = g (pval q) y) ->
  at_key f own key y = at_key g own key y.
Proof.
  induction own as [| p rest IH]; simpl; intros H.
  - reflexivity.
  - destruct (String.eqb (pkey p) key); [apply H; auto | apply IH; auto].
Qed.

Lemma interp_loop_ext (f g : value -> value -> result value) (p1 : proto)
  (own1 own2 : props) (keys : list string) (int : props) :
  (forall q, In q own1 -> forall y, f (pval q) y = g (pval q) y) ->
  interp_loop f p1 own1 own2 keys int = interp_loop g p1 own1 own2 keys int.
Proof.
  intros H. revert int. induction keys as [| key rest IH]; intros int; simpl.
  - reflexivity.
  - destruct (negb (Obj.hasOwnProperty own1 key) || negb (Obj.hasOwnProperty own2 key));
      [apply IH |].
    rewrite (at_key_ext f g own1 key) by (intros q Hq; apply H; exact Hq).
    destruct (at_key g own1 key (Obj.get own2 key)); [apply IH | reflexivity].
Qed.

(** X13: in exact arithmetic, cosine interpolation is linear interpolation at
    the eased fraction [1 - cos(pi / 2 * t)], on all values: numbers, the
    values taken without interpolation, objects and arrays at every depth
    (the nested values are interpolated at the same [t]), and the failures.
    So the two interpolators fail on the same operands with the same
    failure and return structured values of the same shape. *)
Theorem cosineInterp_is_eased_linearInterp :
  forall (Math_PI : num) (Math_cos : num -> num) (x1 x2 : value) (t : num)
         (objectKeys : option (list string)),
    cosineInterp Math_PI Math_cos x1 x2 t objectKeys
    = linearInterp x1 x2 (eased_fraction Math_PI Math_cos t) objectKeys.
Proof.
  intros Math_PI Math_cos x1.
  induction x1 as [| | b | n | s | f | p isArray own IH] using value_nested_ind;
    intros x2 t objectKeys.
  1-3,5-6: destruct x2; reflexivity.
  - destruct x2; try reflexivity.
    rewrite cosineInterp_numbers, linearInterp_numbers. unfold eased_fraction.
    rewrite sub_one_sub_one. reflexivity.
  - destruct x2 as [| | | | | | p2 a2 own2]; try reflexivity.
    simpl. destruct (negb (proto_eqb p p2)); [reflexivity |].
    unfold keys_or. simpl.
    apply interp_loop_ext. intros q Hq y.
    rewrite Forall_forall in IH. apply (IH q Hq).
Qed.

(** *** The keys of the merged defaults *)

Lemma bfs_order_ancestors (classes : class_table) (fuel : nat) :
  forall queue order,
    bfs_order classes fuel queue = Some order ->
    forall a, In a order <-> exists c, In c queue /\ ancestor classes a c.
Proof.
  induction fuel as [| fuel IH]; intros queue order H a.
  - destruct queue as [| c queue]; [| discriminate]. injection H as <-.
    split; [intros [] | intros [c [[] _]]].
  - destruct queue as [| c queue].
    + injection H as <-. split; [intros [] | intros [c [[] _]]].
    + simpl in H.
      destruct (bfs_order classes fuel (queue ++ inheritedDefaultOptions (classes c)))
        as [order' |] eqn:E; [| discriminate].
      injection H as <-. specialize (IH _ _ E a). split.
      * intros [<- | Hin].
        -- exists c. split; [left; reflexivity | constructor].
        -- apply IH in Hin. destruct Hin as [c' [Hc' Ha]].
           apply in_app_or in Hc'. destruct Hc' as [Hc' | Hc'].
           ++ exists c'. split; [right; exact Hc' | exact Ha].
           ++ exists c. split; [left; reflexivity |].
              apply ancestor_step with c'; assumption.
      * intros [c' [[<- | Hc'] Ha]].
        -- inversion Ha as [| a' p c'' Hp Hap]; subst.
           ++ left. reflexivity.
           ++ right. apply IH. exists p. split; [| exact Hap].
              apply in_or_app. right. exact Hp.
        -- right. apply IH. exists c'. split; [| exact Ha].
           apply in_or_app. left. exact Hc'.
Qed.

Lemma hasOwnProperty_merge_all (classes : class_table) (order : list nat)
  (acc : props) (k : string) :
  all_enumerable acc ->
  Obj.hasOwnProperty (merge_all classes order acc) k
  = Obj.hasOwnProperty acc k
    || existsb (fun c => mem k (Obj.keys (defaultOptions (classes c)))) order.
Proof.
  revert acc. induction order as [| c rest IH]; intros acc H; simpl.
  - rewrite orb_false_r. reflexivity.
  - rewrite IH by apply all_enumerable_spread.
    rewrite hasOwnProperty_spread, (mem_keys_all_enumerable acc k H).
    rewrite orb_assoc. reflexivity.
Qed.

Lemma names_set (own : props) (k : string) (v : value) :
  map pkey (Obj.set own k v)
  = if Obj.hasOwnProperty own k then map pkey own else (map pkey own ++ [k])%list.
Proof.
  unfold Obj.hasOwnProperty. induction own as [| p rest IH]; simpl.
  - reflexivity.
  - destruct (String.eqb (pkey p) k) eqn:E; simpl.
    + apply String.eqb_eq in E. subst. reflexivity.
    + rewrite IH. destruct (Obj.lookup rest k); reflexivity.
Qed.

Lemma wf_set (own : props) (k : string) (v : value) :
  Obj.wf own -> Obj.wf (Obj.set own k v).
Proof.
  unfold Obj.wf. intros H. rewrite names_set.
  destruct (Obj.hasOwnProperty own k) eqn:E; [exact H |].
  apply NoDup_app; [exact H | repeat constructor; intros [] |].
  intros x Hx [<- | []]. apply hasOwnProperty_In in Hx. congruence.
Qed.

Lemma wf_assign (dst src : props) : Obj.wf dst -> Obj.wf (Obj.assign dst src).
Proof.
  unfold Obj.assign. generalize (Obj.keys src) as l. intros l. revert dst.
  induction l as [| x l IH]; intros dst H; simpl.
  - exact H.
  - apply IH. apply wf_set. exact H.
Qed.

Lemma wf_spread (a b : props) : Obj.wf (Obj.spread a b).
Proof. unfold Obj.spread. apply wf_assign, wf_assign. constructor. Qed.

Lemma wf_merge_all (classes : class_table) (order : list nat) (acc : props) :
  Obj.wf acc -> Obj.wf (merge_all classes order acc).
Proof.
  revert acc. induction order as [| c rest IH]; intros acc H; simpl.
  - exact H.
  - apply IH. apply wf_spread.
Qed.

(** X14: the merged defaults of a class hold exactly the options that the
    class or one of its sources, direct or indirect, declares among its
    enumerable default options: no source is missed and nothing else is
    added.  Each is there once, as an enumerable property. *)
Theorem getDefaultOptions_keys :
  forall (classes : class_table) (fuel clazz : nat) (defaults : props),
    getDefaultOptions classes fuel clazz = Some defaults ->
    (forall k, Obj.hasOwnProperty defaults k = true <->
       exists a, ancestor classes a clazz /\
                 In k (Obj.keys (defaultOptions (classes a))))
    /\ Obj.wf defaults /\ all_enumerable defaults.
Proof.
  intros classes fuel clazz defaults H.
  unfold getDefaultOptions in H. rewrite getDefaultOptions_loop_order in H.
  destruct (bfs_order classes fuel [clazz]) as [order |] eqn:E; [| discriminate].
  injection H as <-. split; [| split].
  - intros k. rewrite hasOwnProperty_merge_all by (intros p []). simpl.
    rewrite existsb_exists. split.
    + intros [a [Ha Hk]]. apply (bfs_order_ancestors _ _ _ _ E) in Ha.
      destruct Ha as [c [[<- | []] Ha]]. exists a. split; [exact Ha |].
      apply mem_In. exact Hk.
    + intros [a [Ha Hk]]. exists a. split; [| apply mem_In; exact Hk].
      apply (bfs_order_ancestors _ _ _ _ E). exists clazz. split; [left; reflexivity | exact Ha].
  - apply wf_merge_all. constructor.
  - apply all_enumerable_merge_all. intros p [].
Qed.

Lemma getDefaultOptions_keys_witness :
  exists defaults,
    getDefaultOptions diamond 5 0 = Some defaults /\
    (Obj.hasOwnProperty defaults "a" = true <->
     exists a, ancestor diamond a 0 /\ In "a" (Obj.keys (defaultOptions (diamond a)))).
Proof.
  eexists. split; [reflexivity |].
  exact (proj1 (getDefaultOptions_keys diamond 5 0 _ eq_refl) "a").
Defined.

(** *** Applying options twice *)

Lemma set_same (own : props) (k : string) :
  Obj.hasOwnProperty own k = true -> Obj.set own k (Obj.get own k) = own.
Proof.
  unfold Obj.hasOwnProperty, Obj.get. induction own as [| p rest IH]; simpl; intros H.
  - discriminate.
  - destruct (String.eqb (pkey p) k) eqn:E.
    + apply String.eqb_eq in E. subst. destruct p. reflexivity.
    + f_equal. apply IH. exact H.
Qed.

Lemma fold_set_same (src : props) (l : list string) (own : props) :
  (forall k, In k l -> Obj.hasOwnProperty own k = true /\ Obj.get own k = Obj.get src k) ->
  fold_left (fun acc key => Obj.set acc key (Obj.get src key)) l own = own.
Proof.
  induction l as [| x l IH]; simpl; intros H.
  - reflexivity.
  - destruct (H x (or_introl eq_refl)) as [H1 H2].
    rewrite <- H2, set_same by exact H1. apply IH. intros k Hk. apply H. right. exact Hk.
Qed.

Lemma assign_idempotent (dst src : props) :
  Obj.assign (Obj.assign dst src) src = Obj.assign dst src.
Proof.
  unfold Obj.assign at 1. apply fold_set_same. intros k Hk.
  apply mem_In in Hk. rewrite hasOwnProperty_assign, get_assign, Hk.
  split; [apply orb_true_r | reflexivity].
Qed.

(** X15: applying the same options to the same target a second time changes
    nothing: when a call of [applyOptions] returns, calling it again with
    the same overrides and calling class on the target as the first call
    left it returns as well and leaves the target as it is. *)
Theorem applyOptions_idempotent :
  forall (classes : class_table) (fuel : nat) (options : props) (destObj : value)
         (callingClass : nat) (after : value),
    applyOptions classes fuel options destObj callingClass = Some (mkOutcome after None) ->
    applyOptions classes fuel options after callingClass = Some (mkOutcome after None).
Proof.
  intros classes fuel options destObj callingClass after H.
  destruct destObj as [| | b | n | s | f | p isArray own]; simpl in H;
    try discriminate; try (injection H as <-; reflexivity).
  unfold applyOptions in *.
  destruct (negb (proto_eqb p (ClassPrototype callingClass))) eqn:G.
  - injection H as <-. rewrite G. reflexivity.
  - destruct (getDefaultOptions classes fuel callingClass) as [defaults |];
      [| discriminate].
    destruct (first_invalid defaults (Obj.keys options)); [discriminate |].
    injection H as <-. rewrite G, assign_idempotent. reflexivity.
Qed.

Lemma applyOptions_idempotent_witness :
  exists after,
    applyOptions layers 2 (Obj.literal [("width", number 7)])
      (VObject (ClassPrototype 1) false (Obj.literal [("name", VString "a")])) 1
    = Some (mkOutcome after None)
    /\ applyOptions layers 2 (Obj.literal [("width", number 7)]) after 1
       = Some (mkOutcome after None).
Proof.
  eexists. split; [reflexivity |].
  apply (applyOptions_idempotent layers 2 (Obj.literal [("width", number 7)])
           (VObject (ClassPrototype 1) false (Obj.literal [("name", VString "a")])) 1).
  reflexivity.
Defined.

(** ** Publishing and subscribing *)

Lemma callbacks_of_push (callbacks : list (string * list value)) (t type : string)
  (callback : value) :
  callbacks_of (push_callback callbacks t callback) type
  = if String.eqb t type
    then Some (match callbacks_of callbacks type with Some l => l | None => [] end
               ++ [callback])%list
    else callbacks_of callbacks type.
Proof.
  induction callbacks as [| [t' l] rest IH]; simpl.
  - destruct (String.eqb t type); reflexivity.
  - destruct (String.eqb t' t) eqn:E; simpl.
    + apply String.eqb_eq in E. subst t'.
      destruct (String.eqb t type); reflexivity.
    + destruct (String.eqb t' type) eqn:E'.
      * apply String.eqb_eq in E'. subst t'.
        rewrite String.eqb_sym, E. reflexivity.
      * exact IH.
Qed.

Lemma handlers_subscribe (this : PubSub) (t type : string) (callback : value) :
  handlers (subscribe this t callback) type
  = if String.eqb t type
    then Some (match handlers this type with Some l => l | None => [] end
               ++ [callback])%list
    else handlers this type.
Proof.
  unfold handlers, subscribe. cbn [_callbacks]. rewrite callbacks_of_push.
  destruct (_callbacks this) as [callbacks |]; simpl;
    destruct (String.eqb t type); reflexivity.
Qed.

Lemma subscribers_snoc (subs : list (string * value)) (t type : string) (callback : value) :
  subscribers (subs ++ [(t, callback)]) type
  = if String.eqb t type then (subscribers subs type ++ [callback])%list
    else subscribers subs type.
Proof.
  unfold subscribers. rewrite filter_app, map_app. simpl.
  destruct (String.eqb t type); simpl; [reflexivity | apply app_nil_r].
Qed.

(** On an object that starts without [_callbacks], the array under a type
    holds the callbacks subscribed to it, and there is none when nothing
    was subscribed to it. *)
Lemma handlers_subscribe_all (subs : list (string * value)) (type : string) :
  handlers (subscribe_all (mkPubSub None) subs) type
  = match subscribers subs type with [] => None | l => Some l end.
Proof.
  induction subs as [| [t callback] subs IH] using rev_ind.
  - reflexivity.
  - unfold subscribe_all in *. rewrite fold_left_app. simpl.
    rewrite handlers_subscribe, IH, subscribers_snoc.
    destruct (String.eqb t type); [| reflexivity].
    destruct (subscribers subs type); reflexivity.
Qed.

Lemma publish_handlers (call : nat -> list value -> value + value)
  (this : PubSub) (type : string) (event : value) :
  _publish call this type event
  = match handlers this type with
    | None => mkPublication [] (Ok VUndefined)
    | Some l => _publish_loop call l event
    end.
Proof. unfold _publish, handlers. destruct (_callbacks this); reflexivity. Qed.

Lemma publish_loop_all (call : nat -> list value -> value + value)
  (l : list value) (event : value) :
  (forall h, In h l -> exists v, invoke call h [event] = Ok v) ->
  _publish_loop call l event = mkPublication l (Ok event).
Proof.
  induction l as [| h l IH]; simpl; intros H.
  - reflexivity.
  - destruct (H h (or_introl eq_refl)) as [v ->].
    rewrite IH by (intros h' Hh'; apply H; right; exact Hh'). reflexivity.
Qed.

Lemma publish_loop_failure (call : nat -> list value -> value + value)
  (pre post : list value) (h event : value) (e : error) :
  (forall h', In h' pre -> exists v, invoke call h' [event] = Ok v) ->
  invoke call h [event] = Err e ->
  _publish_loop call (pre ++ h :: post) event = mkPublication (pre ++ [h]) (Err e).
Proof.
  induction pre as [| h0 pre IH]; simpl; intros H He.
  - rewrite He. reflexivity.
  - destruct (H h0 (or_introl eq_refl)) as [v ->].
    rewrite IH; [reflexivity | | exact He]. intros h' Hh'. apply H. right. exact Hh'.
Qed.

(** X16: on an object that starts without subscriptions, publishing an event
    of a type calls the callbacks subscribed to this type, and no other,
    once for each subscription and in the order of the subscriptions, each
    with the event, and returns the event, when every one of them returns.
    When nothing was subscribed to the type it calls nothing and returns
    undefined, not the event. *)
Theorem publish_delivers_in_order :
  forall (call : nat -> list value -> value + value) (subs : list (string * value))
         (type : string) (event : value),
    let this := subscribe_all (mkPubSub None) subs in
    (subscribers subs type = [] ->
     _publish call this type event = mkPublication [] (Ok VUndefined))
    /\ (subscribers subs type <> [] ->
        (forall h, In h (subscribers subs type) -> exists v, invoke call h [event] = Ok v) ->
        _publish call this type event = mkPublication (subscribers subs type) (Ok event)).
Proof.
  intros call subs type event this. unfold this.
  rewrite publish_handlers, handlers_subscribe_all. split.
  - intros ->. reflexivity.
  - intros Hne Hall. destruct (subscribers subs type) as [| h l] eqn:E; [contradiction |].
    apply publish_loop_all. exact Hall.
Qed.

Lemma publish_delivers_in_order_witness :
  _publish one_throws
    (subscribe_all (mkPubSub None)
       [("play", VFunction 1); ("stop", VFunction 3); ("play", VFunction 1)])
    "play" (VString "e")
  = mkPublication [VFunction 1; VFunction 1] (Ok (VString "e")).
Proof.
  apply (proj2 (publish_delivers_in_order one_throws
                  [("play", VFunction 1); ("stop", VFunction 3); ("play", VFunction 1)]
                  "play" (VString "e"))).
  - discriminate.
  - intros h Hh. simpl in Hh. destruct Hh as [<- | [<- | []]];
      exists VUndefined; reflexivity.
Defined.

(** X17: when a callback throws (or is no callable), publishing stops there:
    the callbacks subscribed before it were called, those subscribed after
    it are not, and what it threw is thrown by [_publish]. *)
Theorem publish_stops_at_first_failure :
  forall (call : nat -> list value -> value + value) (subs : list (string * value))
         (type : string) (event : value) (pre post : list value) (h : value) (e : error),
    subscribers subs type = (pre ++ h :: post)%list ->
    (forall h', In h' pre -> exists v, invoke call h' [event] = Ok v) ->
    invoke call h [event] = Err e ->
    _publish call (subscribe_all (mkPubSub None) subs) type event
    = mkPublication (pre ++ [h]) (Err e).
Proof.
  intros call subs type event pre post h e Hs Hpre He.
  rewrite publish_handlers, handlers_subscribe_all, Hs.
  destruct (pre ++ h :: post)%list as [| x l] eqn:E.
  - destruct pre; discriminate.
  - rewrite <- E. apply publish_loop_failure; assumption.
Qed.

Lemma publish_stops_at_first_failure_witness :
  _publish one_throws
    (subscribe_all (mkPubSub None)
       [("play", VFunction 1); ("stop", VFunction 3); ("play", VFunction 2);
        ("play", VFunction 4)])
    "play" (VString "e")
  = mkPublication [VFunction 1; VFunction 2] (Err (CalleeThrew (VString "no"))).
Proof.
  apply (publish_stops_at_first_failure one_throws
           [("play", VFunction 1); ("stop", VFunction 3); ("play", VFunction 2);
            ("play", VFunction 4)]
           "play" (VString "e") [VFunction 1] [VFunction 4] (VFunction 2)).
  - reflexivity.
  - intros h' [<- | []]. exists VUndefined. reflexivity.
  - reflexivity.
Defined.

(** ** Memoization *)

Section MemoizeFacts.

Variable State V : Type.
Variable factory : State -> string -> (V + value) * State.

Lemma cache_get_app (c1 c2 : list (string * V)) (key : string) :
  cache_get (c1 ++ c2) key
  = match cache_get c1 key with Some v => Some v | None => cache_get c2 key end.
Proof.
  induction c1 as [| [k v] rest IH]; simpl.
  - reflexivity.
  - destruct (String.eqb k key); [reflexivity | exact IH].
Qed.

Lemma memoized_keeps (m : memo State V) (key key' : string) (v : V) :
  cache_get (cache m) key = Some v ->
  cache_get (cache (snd (fst (memoized factory m key')))) key = Some v.
Proof.
  intros H. unfold memoized.
  destruct (cache_get (cache m) key') as [v' |]; [exact H |].
  destruct (factory (host m) key') as [[v' | thrown] s]; simpl.
  - rewrite cache_get_app, H. reflexivity.
  - exact H.
Qed.

Lemma memoized_all_keeps (keys : list string) (m : memo State V) (key : string) (v : V) :
  cache_get (cache m) key = Some v ->
  cache_get (cache (snd (fst (memoized_all factory m keys)))) key = Some v.
Proof.
  revert m. induction keys as [| k rest IH]; intros m H; simpl.
  - exact H.
  - pose proof (memoized_keeps m key k v H) as H1.
    destruct (memoized factory m k) as [[x m1] c1]. simpl in H1.
    specialize (IH m1 H1).
    destruct (memoized_all factory m1 rest) as [[xs m2] c2]. exact IH.
Qed.

Lemma memoized_returned (m : memo State V) (key : string) (v : V) :
  fst (fst (memoized factory m key)) = Ok v ->
  cache_get (cache (snd (fst (memoized factory m key)))) key = Some v.
Proof.
  unfold memoized.
  destruct (cache_get (cache m) key) as [v' |] eqn:E.
  - simpl. intros H. injection H as <-. exact E.
  - destruct (factory (host m) key) as [[v' | thrown] s]; simpl; intros H.
    + injection H as <-. rewrite cache_get_app, E. simpl.
      rewrite String.eqb_refl. reflexivity.
    + discriminate.
Qed.

End MemoizeFacts.

(** X18: what a memoized function returned for a key, it returns for this
    key in every later call, whatever calls come in between and whatever the
    factory would now return: these later calls do not call the factory and
    leave the cache and the host as they are.  What the factory throws is
    thrown by the memoized function and is not kept. *)
Theorem memoized_returns_first_result :
  forall (State V : Type) (factory : State -> string -> (V + value) * State)
         (m : memo State V) (key : string),
    (forall v between,
       fst (fst (memoized factory m key)) = Ok v ->
       let m1 := snd (fst (memoized factory m key)) in
       let m2 := snd (fst (memoized_all factory m1 between)) in
       memoized factory m2 key = (Ok v, m2, []))
    /\ (forall thrown s,
          cache_get (cache m) key = None ->
          factory (host m) key = (inr thrown, s) ->
          memoized factory m key = (Err (CalleeThrew thrown), mkMemo (cache m) s, [key])).
Proof.
  intros State V factory m key. split.
  - intros v between H m1 m2.
    pose proof (memoized_returned State V factory m key v H) as H1. fold m1 in H1.
    pose proof (memoized_all_keeps State V factory between m1 key v H1) as H2. fold m2 in H2.
    unfold memoized. rewrite H2. reflexivity.
  - intros thrown s Hc Hf. unfold memoized. rewrite Hc, Hf. reflexivity.
Qed.

Lemma memoized_returns_first_result_witness :
  memoized (fun (n : nat) (_ : string) => (@inl nat value n, S n))
    (snd (fst (memoized_all (fun (n : nat) (_ : string) => (@inl nat value n, S n))
                 (snd (fst (memoized (fun (n : nat) (_ : string) => (@inl nat value n, S n))
                              (memoize 0) "a")))
                 ["b"; "c"])))
    "a"
  = (Ok 0,
     snd (fst (memoized_all (fun (n : nat) (_ : string) => (@inl nat value n, S n))
                 (snd (fst (memoized (fun (n : nat) (_ : string) => (@inl nat value n, S n))
                              (memoize 0) "a")))
                 ["b"; "c"])),
     []).
Proof.
  apply (proj1 (memoized_returns_first_result nat nat
                  (fun (n : nat) (_ : string) => (@inl nat value n, S n))
                  (memoize 0) "a") 0 ["b"; "c"]).
  reflexivity.
Defined.

Section MemoizeOnce.

Variable State V : Type.
Variable factory : State -> string -> (V + value) * State.
Hypothesis returns : forall s key, exists v s', factory s key = (inl v, s').

Lemma memoized_all_calls (keys : list string) (m : memo State V) :
  let calls := snd (memoized_all factory m keys) in
  let m' := snd (fst (memoized_all factory m keys)) in
  NoDup calls
  /\ (forall k, In k calls <-> In k keys /\ cache_get (cache m) k = None)
  /\ (forall k, cache_get (cache m') k <> None <->
                cache_get (cache m) k <> None \/ In k keys).
Proof.
  revert m. induction keys as [| key rest IH]; intros m; simpl.
  - split; [constructor |]. split; [intros k; tauto |].
    intros k. split; [auto | intros [H | []]; exact H].
  - unfold memoized at 1 2 3.
    destruct (cache_get (cache m) key) as [v |] eqn:E.
    + specialize (IH m).
      destruct (memoized_all factory m rest) as [[xs m2] c2]. simpl in *.
      destruct IH as [Hnd [Hin Hc]]. split; [exact Hnd |]. split.
      * intros k. rewrite Hin. split; [tauto |].
        intros [[<- | Hk] Hn]; [congruence | tauto].
      * intros k. rewrite Hc. split; [tauto |].
        intros [H | [<- | H]]; auto. left. congruence.
    + destruct (returns (host m) key) as [v [s' Hf]]. rewrite Hf.
      specialize (IH (mkMemo (cache m ++ [(key, v)]) s')).
      destruct (memoized_all factory (mkMemo (cache m ++ [(key, v)]) s') rest)
        as [[xs m2] c2]. simpl in *.
      destruct IH as [Hnd [Hin Hc]].
      assert (G : forall k, cache_get (cache m ++ [(key, v)]) k = None
                            <-> cache_get (cache m) k = None /\ k <> key).
      { intros k. rewrite cache_get_app. destruct (cache_get (cache m) k) as [w |].
        - split; [discriminate | intros [C _]; discriminate].
        - simpl. destruct (String.eqb key k) eqn:Ek.
          + apply String.eqb_eq in Ek. subst. split; [discriminate | intros [_ C]; congruence].
          + apply String.eqb_neq in Ek. split; [intros _; split; congruence | reflexivity]. }
      split; [| split].
      * constructor; [| exact Hnd]. intros C. apply Hin in C.
        destruct C as [_ C]. apply G in C. destruct C as [_ C]. congruence.
      * intros k. rewrite Hin, G. split.
        -- intros [<- | [Hk [Hn _]]]; auto.
        -- intros [[<- | Hk] Hn]; [left; reflexivity |].
           destruct (String.eqb key k) eqn:Ek.
           ++ apply String.eqb_eq in Ek. left. exact Ek.
           ++ apply String.eqb_neq in Ek. right. repeat split; auto.
      * intros k. rewrite Hc. split.
        -- intros [H | H]; [| auto].
           destruct (String.eqb key k) eqn:Ek.
           ++ apply String.eqb_eq in Ek. auto.
           ++ left. intros C. apply H. apply G. split; [exact C |].
              apply String.eqb_neq in Ek. congruence.
        -- intros [H | [<- | H]]; auto.
           ++ left. intros C. apply G in C. tauto.
           ++ left. intros C. apply G in C. destruct C as [_ C]. congruence.
Qed.

End MemoizeOnce.

(** X19: a memoized function whose factory always returns calls the factory
    exactly once for each distinct key it is called with, starting from an
    empty cache, when no key is a name that every object inherits from
    [Object.prototype] (as [toString] and [constructor] are: the test
    [key in cache] holds of them from the start, and the factory is never
    called with them).  In any sequence of calls with such keys the factory
    is called with every key of the sequence, and with none twice. *)
Theorem memoized_calls_factory_once :
  forall (State V : Type) (factory : State -> string -> (V + value) * State)
         (s : State) (keys : list string),
    (forall s key, exists v s', factory s key = (inl v, s')) ->
    (forall k, In k keys -> ~ In k Object_prototype_names) ->
    let calls := snd (memoized_all factory (memoize s) keys) in
    NoDup calls /\ forall k, In k calls <-> In k keys.
Proof.
  intros State V factory s keys Hret _ calls.
  destruct (memoized_all_calls State V factory Hret keys (mkMemo [] s)) as [Hnd [Hin _]].
  split; [exact Hnd |]. intros k. unfold calls. rewrite Hin. simpl. tauto.
Qed.

Lemma memoized_calls_factory_once_witness :
  snd (memoized_all (fun (n : nat) key => (inl (VString key), S n)) (memoize 0)
         ["a"; "b"; "a"; "a"; "b"])
  = ["a"; "b"]
  /\ NoDup (snd (memoized_all (fun (n : nat) key => (@inl value value (VString key), S n))
                   (memoize 0) ["a"; "b"; "a"; "a"; "b"])).
Proof.
  split; [reflexivity |].
  apply (memoized_calls_factory_once nat value
           (fun n key => (inl (VString key), S n)) 0 ["a"; "b"; "a"; "a"; "b"]).
  - intros s key. eexists. eexists. reflexivity.
  - intros k Hk Hn. simpl in Hk.
    repeat (destruct Hk as [<- | Hk]; [simpl in Hn; intuition discriminate |]).
    destruct Hk.
Defined.

(** ** Parsing a colour *)

(** X20: [parseColor] does not refuse a string that is no colour: when the
    rendering context ignores the string, as it does for what is no colour,
    the colour returned is that of the fill style the context was left
    with, so that a string parsed right after another one gets the colour
    of this other one; the result depends on the calls made before, and is
    then kept for the string. *)
Theorem parseColor_refused_string :
  forall (style : Type) (set_fillStyle : style -> string -> style)
         (getImageData : style -> num * num * num * num)
         (m : memo style Color.t) (bad : string),
    (forall s, set_fillStyle s bad = s) ->
    cache_get (cache m) bad = None ->
    fst (fst (parseColor style set_fillStyle getImageData m bad))
    = Ok (Color_of_data (getImageData (host m)))
    /\ (forall good,
          cache_get (cache m) good = None -> good <> bad ->
          let m1 := snd (fst (parseColor style set_fillStyle getImageData m good)) in
          fst (fst (parseColor style set_fillStyle getImageData m1 bad))
          = fst (fst (parseColor style set_fillStyle getImageData m good))).
Proof.
  intros style set_fillStyle getImageData m bad Hbad Hc. split.
  - unfold parseColor, memoized, parseColor_factory. rewrite Hc, Hbad. reflexivity.
  - intros good Hg Hne. unfold parseColor, memoized, parseColor_factory.
    rewrite Hg. cbn [fst snd cache host].
    rewrite cache_get_app, Hc. cbn [cache_get].
    destruct (String.eqb good bad) eqn:E; [apply String.eqb_eq in E; contradiction |].
    rewrite Hbad. reflexivity.
Qed.

Lemma parseColor_refused_string_witness :
  fst (fst (parseColor string two_colours two_colours_pixel
              (snd (fst (parseColor string two_colours two_colours_pixel
                           (memoize "") "red")))
              "rde"))
  = fst (fst (parseColor string two_colours two_colours_pixel (memoize "") "red")).
Proof.
  apply (proj2 (parseColor_refused_string string two_colours two_colours_pixel
                  (memoize "") "rde" (fun s => eq_refl) eq_refl) "red").
  - reflexivity.
  - discriminate.
Defined.

(** ** Printing and reading back a whole number *)

Lemma list_ascii_app (a b : string) :
  list_ascii_of_string (a ++ b) = (list_ascii_of_string a ++ list_ascii_of_string b)%list.
Proof. induction a as [| c a IH]; simpl; [reflexivity | rewrite IH; reflexivity]. Qed.

Lemma take_digits_uint (d : Decimal.uint) :
  forall (acc : Z) (count : nat) (rest : list ascii),
    match rest with c :: _ => is_digit c = false | [] => True end ->
    take_digits 10 (list_ascii_of_string (NilEmpty.string_of_uint d) ++ rest) acc count
    = (uint_value d acc, (Decimal.nb_digits d + count)%nat, rest).
Proof.
  induction d; intros acc count rest Hrest;
    try (cbn [NilEmpty.string_of_uint list_ascii_of_string app take_digits uint_value
              Decimal.nb_digits];
         change (digit_in 10 "0") with (Some 0%Z); change (digit_in 10 "1") with (Some 1%Z);
         change (digit_in 10 "2") with (Some 2%Z); change (digit_in 10 "3") with (Some 3%Z);
         change (digit_in 10 "4") with (Some 4%Z); change (digit_in 10 "5") with (Some 5%Z);
         change (digit_in 10 "6") with (Some 6%Z); change (digit_in 10 "7") with (Some 7%Z);
         change (digit_in 10 "8") with (Some 8%Z); change (digit_in 10 "9") with (Some 9%Z);
         cbv iota; rewrite IHd by exact Hrest;
         change (Z.of_N 10) with 10%Z; f_equal; f_equal; lia).
  simpl. destruct rest as [| c rest]; [reflexivity |].
  unfold is_digit in Hrest. simpl. destruct (digit_in 10 c); [discriminate | reflexivity].
Qed.

Lemma of_uint_acc_value (d : Decimal.uint) :
  forall acc : positive, Zpos (Pos.of_uint_acc d acc) = uint_value d (Zpos acc).
Proof.
  induction d; intros acc;
    cbn [Pos.of_uint_acc uint_value]; try reflexivity; rewrite IHd; f_equal;
    rewrite ?Pos2Z.inj_add, ?Pos2Z.inj_mul; lia.
Qed.

Lemma of_uint_value (d : Decimal.uint) : Z.of_N (Pos.of_uint d) = uint_value d 0.
Proof.
  induction d; simpl; try reflexivity; try exact IHd;
    rewrite of_uint_acc_value; reflexivity.
Qed.

Lemma to_uint_value (n : N) : uint_value (N.to_uint n) 0 = Z.of_N n.
Proof.
  rewrite <- of_uint_value. change (Pos.of_uint (N.to_uint n)) with (N.of_uint (N.to_uint n)).
  rewrite DecimalN.Unsigned.of_to. reflexivity.
Qed.

Lemma uint_value_lower (d : Decimal.uint) :
  forall acc : Z, (0 <= acc)%Z ->
    (acc * 10 ^ Z.of_nat (Decimal.nb_digits d) <= uint_value d acc)%Z.
Proof.
  induction d; intros acc Hacc; cbn [uint_value Decimal.nb_digits];
    try (rewrite Nat2Z.inj_succ, Z.pow_succ_r by lia;
         match goal with
         | |- (_ <= uint_value _ ?a)%Z =>
             apply Z.le_trans with (a * 10 ^ Z.of_nat (Decimal.nb_digits d))%Z;
             [| apply IHd; lia]
         end;
         pose proof (Z.pow_nonneg 10 (Z.of_nat (Decimal.nb_digits d))); nia).
  simpl. lia.
Qed.

Lemma to_uint_normal (p : positive) :
  match Pos.to_uint p with Decimal.Nil | Decimal.D0 _ => False | _ => True end.
Proof.
  pose proof (DecimalPos.Unsigned.of_to p) as E.
  pose proof (DecimalPos.Unsigned.to_of (Pos.to_uint p)) as N.
  rewrite E in N. change (N.to_uint (Npos p)) with (Pos.to_uint p) in N.
  destruct (Pos.to_uint p) as [| u | u | u | u | u | u | u | u | u | u] eqn:Ed;
    try exact I.
  - discriminate.
  - exfalso. rewrite DecimalFacts.unorm_D0 in N.
    destruct (Decimal.nzhead u) eqn:Eu;
      [ apply DecimalFacts.unorm_0 in Eu; rewrite Eu in N; injection N as ->;
        exact (DecimalPos.Unsigned.to_uint_nonzero p Ed)
      | rewrite DecimalFacts.unorm_nzhead in N by (rewrite Eu; discriminate);
        symmetry in N; exact (DecimalFacts.nzhead_nonzero _ _ N) .. ].
Qed.

Lemma nb_digits_bound (p : positive) :
  (Zpos p < 10 ^ 21)%Z -> (Decimal.nb_digits (Pos.to_uint p) <= 21)%nat.
Proof.
  intros H. pose proof (to_uint_normal p) as Hn.
  pose proof (to_uint_value (Npos p)) as V. change (N.to_uint (Npos p)) with (Pos.to_uint p) in V.
  change (Z.of_N (Npos p)) with (Zpos p) in V.
  destruct (Pos.to_uint p) as [| u | u | u | u | u | u | u | u | u | u];
    try contradiction; cbn [uint_value Decimal.nb_digits] in *;
    match type of V with
    | uint_value _ ?a = _ =>
        pose proof (uint_value_lower u a ltac:(lia)) as L
    end;
    rewrite V in L;
    destruct (Nat.le_gt_cases (Decimal.nb_digits u) 20) as [B | B]; try lia;
    exfalso;
    assert (P : (10 ^ 21 <= 10 ^ Z.of_nat (Decimal.nb_digits u))%Z)
      by (apply Z.pow_le_mono_r; lia);
    lia.
Qed.

Lemma string_of_uint_length (d : Decimal.uint) :
  String.length (NilEmpty.string_of_uint d) = Decimal.nb_digits d.
Proof. induction d; simpl; try rewrite IHd; reflexivity. Qed.

Lemma NilZero_positive (p : positive) :
  NilZero.string_of_uint (Pos.to_uint p) = NilEmpty.string_of_uint (Pos.to_uint p).
Proof.
  pose proof (to_uint_normal p) as Hn.
  destruct (Pos.to_uint p); try contradiction; reflexivity.
Qed.

Lemma strip_zeros_spec (l : list ascii) :
  exists k, l = (repeat "0"%char k ++ strip_zeros l)%list.
Proof.
  induction l as [| c r [k IH]]; simpl.
  - exists 0%nat. reflexivity.
  - unfold is_char. destruct (Ascii.eqb c "0") eqn:E.
    + apply Ascii.eqb_eq in E. subst c. exists (S k). simpl. rewrite <- IH. reflexivity.
    + exists 0%nat. reflexivity.
Qed.

Lemma drop_trailing_zeros_eq (s : string) :
  drop_trailing_zeros s
  = string_of_list_ascii (rev (strip_zeros (rev (list_ascii_of_string s)))).
Proof. reflexivity. Qed.

Lemma string_of_list_app (a b : list ascii) :
  string_of_list_ascii (a ++ b) = string_of_list_ascii a ++ string_of_list_ascii b.
Proof. induction a as [| c a IH]; simpl; [reflexivity | rewrite IH; reflexivity]. Qed.

Lemma zeros_repeat (k : nat) : string_of_list_ascii (repeat "0"%char k) = zeros k.
Proof. induction k as [| k IH]; simpl; [reflexivity | rewrite IH; reflexivity]. Qed.

Lemma string_length_app (a b : string) :
  String.length (a ++ b) = (String.length a + String.length b)%nat.
Proof. induction a as [| c a IH]; simpl; [reflexivity | rewrite IH; reflexivity]. Qed.

Lemma zeros_length (k : nat) : String.length (zeros k) = k.
Proof. induction k as [| k IH]; simpl; [reflexivity | rewrite IH; reflexivity]. Qed.

Lemma drop_trailing_zeros_restore (s : string) :
  drop_trailing_zeros s
  ++ zeros (String.length s - String.length (drop_trailing_zeros s)) = s.
Proof.
  destruct (strip_zeros_spec (rev (list_ascii_of_string s))) as [k Hk].
  assert (E : s = drop_trailing_zeros s ++ zeros k).
  { rewrite drop_trailing_zeros_eq, <- zeros_repeat, <- string_of_list_app.
    rewrite <- (rev_repeat k "0"%char), <- rev_app_distr, <- Hk, rev_involutive.
    symmetry. apply string_of_list_ascii_of_string. }
  assert (L : (String.length s - String.length (drop_trailing_zeros s))%nat = k).
  { rewrite E at 1. rewrite string_length_app, zeros_length. lia. }
  rewrite L. symmetry. exact E.
Qed.

Lemma Qnum_of_Z (z : Z) : this (Q2Qc (inject_Z z)) = inject_Z z.
Proof.
  unfold Q2Qc. cbn [this]. apply Qred_identity. simpl. apply Z.gcd_1_r.
Qed.

(** A whole number below [10^21] prints as its decimal digits. *)
Lemma Number_toString_whole (n : Z) :
  (0 <= n < 10 ^ 21)%Z -> Number_toString (Num.of_Z n) = dec_of_Z n.
Proof.
  intros Hn. unfold Number_toString, Num.of_Z. rewrite Qnum_of_Z. cbn [Qnum Qden inject_Z].
  destruct n as [| p | p]; [reflexivity | | lia].
  unfold positive_to_string.
  change (Z.to_nat (Z.log2 1 + 1)) with 1%nat. cbn [decimal_scale].
  rewrite Z.mod_1_r. cbn [Z.eqb]. rewrite Z.div_1_r.
  change (10 ^ 0)%Z with 1%Z. rewrite Z.mul_1_r.
  set (m := dec_of_Z (Zpos p)).
  assert (Lm : (String.length m <= 21)%nat).
  { unfold m, dec_of_Z. change (N.to_uint (Z.to_N (Zpos p))) with (Pos.to_uint p).
    rewrite NilZero_positive, string_of_uint_length. apply nb_digits_bound. lia. }
  pose proof (drop_trailing_zeros_restore m) as R.
  assert (Ld : (String.length (drop_trailing_zeros m) <= String.length m)%nat).
  { rewrite <- R at 2. rewrite string_length_app. lia. }
  unfold layout.
  replace ((Z.of_nat (String.length (drop_trailing_zeros m))
            <=? Z.of_nat (String.length m) - 0)%Z
           && (Z.of_nat (String.length m) - 0 <=? 21)%Z) with true.
  - replace (Z.to_nat (Z.of_nat (String.length m) - 0
                       - Z.of_nat (String.length (drop_trailing_zeros m))))
      with (String.length m - String.length (drop_trailing_zeros m))%nat by lia.
    exact R.
  - symmetry. apply andb_true_iff. split; apply Z.leb_le; lia.
Qed.

Lemma digit_char (c : ascii) :
  is_digit c = true ->
  is_ws c = false /\ is_char c "-" = false /\ is_char c "+" = false
  /\ Ascii.eqb "I" c = false /\ Ascii.eqb c " " = false.
Proof.
  destruct c as [[] [] [] [] [] [] [] []]; intros H;
    try (vm_compute in H; discriminate H); vm_compute; auto.
Qed.

Lemma to_uint_digits (m : N) :
  NilZero.string_of_uint (N.to_uint m) = NilEmpty.string_of_uint (N.to_uint m)
  /\ exists c r, list_ascii_of_string (NilEmpty.string_of_uint (N.to_uint m)) = c :: r
                 /\ is_digit c = true.
Proof.
  destruct m as [| p].
  - split; [reflexivity |]. eexists. eexists. split; reflexivity.
  - change (N.to_uint (Npos p)) with (Pos.to_uint p). split; [apply NilZero_positive |].
    pose proof (to_uint_normal p) as Hn.
    destruct (Pos.to_uint p); try contradiction;
      eexists; eexists; split; reflexivity.
Qed.

Lemma count_spaces_uint (d : Decimal.uint) :
  count_spaces (NilEmpty.string_of_uint d) = 0%nat.
Proof. induction d; simpl; auto. Qed.

Lemma count_spaces_app (a b : string) :
  count_spaces (a ++ b) = (count_spaces a + count_spaces b)%nat.
Proof.
  induction a as [| c a IH]; simpl; [reflexivity |]. rewrite IH. lia.
Qed.

Lemma take_digits_none (c : ascii) (r : list ascii) :
  is_digit c = false -> take_digits 10 (c :: r) 0 0 = (0%Z, 0%nat, c :: r).
Proof.
  unfold is_digit. simpl. destruct (digit_in 10 c); [discriminate | reflexivity].
Qed.

Lemma ends_numeral_spec (unit : string) :
  ends_numeral unit = true ->
  let l := list_ascii_of_string unit in
  match l with c :: _ => is_digit c = false /\ is_char c "." = false | [] => True end
  /\ take_exponent l = (0%Z, l).
Proof.
  unfold ends_numeral. destruct (list_ascii_of_string unit) as [| c r]; intros H.
  - split; [exact I | reflexivity].
  - apply andb_true_iff in H. destruct H as [H H3].
    apply andb_true_iff in H. destruct H as [H1 H2].
    apply negb_true_iff in H1, H2, H3. split; [auto |].
    unfold take_exponent.
    destruct (is_char c "e" || is_char c "E"); [| reflexivity].
    cbn [andb] in H3. destruct r as [| s r'].
    + reflexivity.
    + destruct (is_char s "-") eqn:Em.
      * cbn [orb] in H3. destruct r' as [| d r'']; [reflexivity |].
        rewrite take_digits_none by exact H3. reflexivity.
      * destruct (is_char s "+") eqn:Ep.
        -- cbn [orb] in H3. destruct r' as [| d r'']; [reflexivity |].
           rewrite take_digits_none by exact H3. reflexivity.
        -- cbn [orb] in H3. rewrite take_digits_none by exact H3. reflexivity.
Qed.

(** Reading back the digits of a whole number, whatever follows them that
    ends the numeral. *)
Lemma parseFloat_whole (n : Z) (unit : string) :
  (0 <= n)%Z -> ends_numeral unit = true ->
  parseFloat (dec_of_Z n ++ unit) = Num.of_Z n.
Proof.
  intros Hn Hu. unfold parseFloat, dec_of_Z.
  destruct (to_uint_digits (Z.to_N n)) as [E [c [r [El Hc]]]].
  rewrite E, list_ascii_app.
  destruct (digit_char c Hc) as [W [Sm [Sp [Si _]]]].
  destruct (ends_numeral_spec unit Hu) as [Hstop Hexp].
  set (lu := list_ascii_of_string unit) in *.
  assert (T : take_decimal
                (list_ascii_of_string (NilEmpty.string_of_uint (N.to_uint (Z.to_N n))) ++ lu)
              = Some (Num.of_Z n, lu)).
  { unfold take_decimal.
    assert (Hsign : take_sign
                      (list_ascii_of_string (NilEmpty.string_of_uint (N.to_uint (Z.to_N n))) ++ lu)
                    = (false,
                       (list_ascii_of_string (NilEmpty.string_of_uint (N.to_uint (Z.to_N n))) ++ lu)%list)).
    { rewrite El. cbn [app]. unfold take_sign. rewrite Sm, Sp. reflexivity. }
    rewrite Hsign.
    assert (Hinf : strip_prefix (list_ascii_of_string "Infinity")
                     (list_ascii_of_string (NilEmpty.string_of_uint (N.to_uint (Z.to_N n))) ++ lu)
                   = None).
    { rewrite El. cbn [app list_ascii_of_string strip_prefix]. rewrite Si. reflexivity. }
    rewrite Hinf. unfold take_unsigned_decimal.
    rewrite take_digits_uint by (destruct lu; [exact I | apply Hstop]).
    rewrite to_uint_value, Z2N.id by exact Hn.
    assert (Hnb : Nat.eqb (Decimal.nb_digits (N.to_uint (Z.to_N n)) + 0) 0 = false).
    { apply Nat.eqb_neq. rewrite Nat.add_0_r, <- string_of_uint_length.
      rewrite <- (string_of_list_ascii_of_string (NilEmpty.string_of_uint _)), El.
      simpl. discriminate. }
    assert (Hpoint : match lu with
                     | c0 :: r0 =>
                         if is_char c0 "."
                         then let '(m, nf, r') := take_digits 10 r0 n 0 in
                              if Nat.eqb (Decimal.nb_digits (N.to_uint (Z.to_N n)) + 0) 0
                                 && Nat.eqb nf 0
                              then (n, 0%nat, lu) else (m, nf, r')
                         else (n, 0%nat, lu)
                     | [] => (n, 0%nat, lu)
                     end = (n, 0%nat, lu)).
    { destruct lu as [| c0 r0]; [reflexivity |]. destruct Hstop as [_ Hp]. rewrite Hp. reflexivity. }
    rewrite Hpoint, Hnb, Hexp. cbn [andb]. do 2 f_equal. unfold Num.of_Z. f_equal.
    apply Q2Qc_eq_iff. unfold pow10. simpl Qpower. ring. }
  assert (Htrim : trim_left
                    (list_ascii_of_string (NilEmpty.string_of_uint (N.to_uint (Z.to_N n))) ++ lu)
                  = (list_ascii_of_string (NilEmpty.string_of_uint (N.to_uint (Z.to_N n))) ++ lu)%list).
  { rewrite El. cbn [app trim_left]. rewrite W. reflexivity. }
  rewrite Htrim, T. reflexivity.
Qed.

Lemma string_app_assoc (a b c : string) : (a ++ b) ++ c = a ++ b ++ c.
Proof. induction a as [| x a IH]; simpl; [reflexivity | rewrite IH; reflexivity]. Qed.

(** X21: a font whose size is a whole number below [10^21], whose unit and
    family hold no space, and whose unit does not continue the numeral of
    the size, is read back by [parseFont] from the string that [toString]
    makes of it: parsing undoes printing.  This includes the fonts built
    without a unit, whose unit is ["px"]. *)
Theorem parseFont_Font_toString :
  forall (n : Z) (name : string) (given : option string),
    let font := Font_constructor (Num.of_Z n) name given in
    (0 <= n < 10 ^ 21)%Z ->
    count_spaces (sizeUnit font) = 0%nat ->
    count_spaces name = 0%nat ->
    ends_numeral (sizeUnit font) = true ->
    parseFont (Font_toString font) = Ok font.
Proof.
  intros n name given font Hn Hu Hf He.
  set (unit := sizeUnit font) in *.
  assert (Ef : font = mkFont (Num.of_Z n) name unit) by reflexivity.
  rewrite Ef. unfold Font_toString. cbn [size sizeUnit family].
  rewrite Number_toString_whole by exact Hn.
  assert (Hs : count_spaces (dec_of_Z n ++ unit) = 0%nat).
  { rewrite count_spaces_app, Hu. unfold dec_of_Z.
    rewrite (proj1 (to_uint_digits _)), count_spaces_uint. reflexivity. }
  unfold parseFont.
  rewrite <- string_app_assoc.
  rewrite split_space_app by exact Hs. rewrite split_space_no_space by exact Hf.
  rewrite parseFloat_whole by (try exact He; lia).
  rewrite Number_toString_whole by exact Hn. rewrite skip_app. reflexivity.
Qed.

Lemma parseFont_Font_toString_witness :
  Font_toString (Font_constructor (Num.of_Z 12) "serif" None) = "12px serif"
  /\ parseFont "12px serif" = Ok (mkFont (Num.of_Z 12) "serif" "px").
Proof.
  assert (E : Font_toString (Font_constructor (Num.of_Z 12) "serif" None) = "12px serif")
    by (vm_compute; reflexivity).
  split; [exact E |]. rewrite <- E.
  apply (parseFont_Font_toString 12 "serif" None).
  - split; [lia | reflexivity].
  - reflexivity.
  - reflexivity.
  - reflexivity.
Defined.

(** ** Colours *)

Lemma whole_exact (z : Z) : (0 <= z < 2 ^ 53)%Z -> (0 <= z < 10 ^ 21)%Z.
Proof.
  intros [H0 H1]. split; [exact H0 |].
  apply (Z.lt_trans _ _ _ H1). reflexivity.
Qed.

(** X22: a colour whose channels are whole numbers from 0 to below [2^53],
    the whole numbers that binary64 holds exactly and the host prints with
    all their digits, prints as [rgba(r, g, b, a)] with the decimal digits
    of its channels; a colour built without its fourth channel is opaque,
    its alpha being 255, and an alpha that is given is kept, also when it
    is 0. *)
Theorem Color_toString_whole :
  forall (r g b : Z) (a : option Z),
    (0 <= r < 2 ^ 53)%Z -> (0 <= g < 2 ^ 53)%Z -> (0 <= b < 2 ^ 53)%Z ->
    (forall z, a = Some z -> (0 <= z < 2 ^ 53)%Z) ->
    Color.toString
      (Color.constructor (Num.of_Z r) (Num.of_Z g) (Num.of_Z b) (option_map Num.of_Z a))
    = "rgba(" ++ dec_of_Z r ++ ", " ++ dec_of_Z g ++ ", " ++ dec_of_Z b ++ ", "
      ++ dec_of_Z (match a with Some z => z | None => 255%Z end) ++ ")".
Proof.
  intros r g b a Hr Hg Hb Ha. unfold Color.toString, Color.constructor.
  cbn [Color.r Color.g Color.b Color.a].
  rewrite !Number_toString_whole by (apply whole_exact; assumption).
  destruct a as [z |]; cbn [option_map].
  - rewrite Number_toString_whole by (apply whole_exact, Ha; reflexivity). reflexivity.
  - reflexivity.
Qed.

Lemma Color_toString_whole_witness :
  Color.toString (Color.constructor (Num.of_Z 255) (Num.of_Z 128) (Num.of_Z 0) None)
  = "rgba(255, 128, 0, 255)".
Proof.
  apply (Color_toString_whole 255 128 0 None); try (split; [lia | reflexivity]).
  intros z H. discriminate.
Defined.
